(** * Sincronia core: manifest sync and push engine

    A shallow embedding of the sync/push engine of Sincronia's core
    package (manifest writing, missing-file detection, reconciliation,
    local file scan, file-tree grouping, record build, push, scope guard,
    update sets), the properties its specification states and further
    properties read off the code.

    Modelling conventions.

    - A JavaScript object used as a dictionary is an association list in
      the order in which its properties were created, its keys pairwise
      distinct ([obj_wf]).  Reading [o[k]] is [obj_get], assigning
      [o[k] = v] is [obj_set] (in place when the key exists, appended
      otherwise).  Keys are ordinary names: neither array indices, which
      JavaScript enumerates first whenever they were created
      ([Object_keys]), nor properties of [Object.prototype]; for such
      keys the order of creation is the order of [Object.keys], and
      [Object.keys(o).map(k => f(k, o[k]))] is a [map] over the pairs.
    - An [async] function that only talks to stateless collaborators (file
      system, plugin manager, record update) is a value of the writer type
      [M]: the value it settles to and the external calls it issued.  A
      rejected promise is the value [Err e], [e] an [Error] object;
      [await] on it is a [match].  Logging is left out.
    - An object mutated in place (the manifest's records, the [missing]
      accumulator) is threaded explicitly: the function returns the object
      as it is left in memory, also when it rejects.
    - [Promise.all] over promises that were all created by a preceding
      [map] lets every one of them run; [settled] lists them in array
      order.  The push pipeline, whose result order is the subject of a
      claim, takes the order in which its promises settle as a parameter
      ([Schedule]).
    - [retryOnErr] is not in src: the update of a record that it wraps
      is one call whose outcome is that of the whole retry loop, and one
      event [EvUpdateRecord] stands for the requests it sends, however
      many there are.
    - The remote instance behind the scope and update-set operations is an
      abstract state; reads are functions of it, writes transform it.
    - The local file scan records its calls in the same writer style, with
      a call type of its own ([ScanEvent]).  [String.prototype.split] is
      [split]; a string is a sequence of one-byte characters. *)

From stdpp Require Import prelude strings pretty gmap.

Local Open Scope string_scope.
Local Open Scope list_scope.

(* ================================================================== *)
(** * JavaScript objects as ordered dictionaries *)
(* ================================================================== *)

Definition obj (V : Type) : Type := list (string * V).

Definition obj_keys {V} (o : obj V) : list string := map fst o.

Definition obj_values {V} (o : obj V) : list V := map snd o.

Definition obj_wf {V} (o : obj V) : Prop := NoDup (obj_keys o).

Fixpoint obj_get {V} (o : obj V) (k : string) : option V :=
  match o with
  | [] => None
  | (k', v) :: rest => if String.eqb k' k then Some v else obj_get rest k
  end.

(** [o[k] = v]: an existing property keeps its place, a new one is the
    last created. *)
Fixpoint obj_set {V} (o : obj V) (k : string) (v : V) : obj V :=
  match o with
  | [] => [(k, v)]
  | (k', v') :: rest =>
      if String.eqb k' k then (k, v) :: rest else (k', v') :: obj_set rest k v
  end.

(** Mutation of the object stored at [o[k]] (nothing to do when absent). *)
Fixpoint obj_alter {V} (f : V -> V) (k : string) (o : obj V) : obj V :=
  match o with
  | [] => []
  | (k', v) :: rest =>
      if String.eqb k' k then (k', f v) :: rest else (k', v) :: obj_alter f k rest
  end.

(** The dictionary an object denotes, its enumeration order forgotten:
    two objects are structurally identical when they denote the same map. *)
Definition obj_map {V W} (f : V -> W) (o : obj V) : gmap string W :=
  list_to_map (prod_map id f <$> o).

(* ================================================================== *)
(** * Settled promises *)
(* ================================================================== *)

(** A thrown [Error]; only its [message] is ever read. *)
Record Error := { err_message : string }.

Inductive Result (A : Type) : Type :=
| Ok (value : A)
| Err (reason : Error).
Arguments Ok {A} value.
Arguments Err {A} reason.

Definition is_ok {A} (r : Result A) : bool :=
  match r with Ok _ => true | Err _ => false end.

(** [Promise.all] on settled outcomes: every value, or a rejection. *)
Fixpoint all_ok {A} (rs : list (Result A)) : Result (list A) :=
  match rs with
  | [] => Ok []
  | Ok a :: rest =>
      match all_ok rest with Ok l => Ok (a :: l) | Err e => Err e end
  | Err e :: _ => Err e
  end.

Definition void {A} (r : Result A) : Result unit :=
  match r with Ok _ => Ok tt | Err e => Err e end.

(* ================================================================== *)
(** * Data model ([@sincronia/types]) *)
(* ================================================================== *)

(** [SN.File]; [content] is optional and removed by [delete file.content]. *)
Record File := {
  file_name : string;
  file_type : string;
  file_content : option string
}.

Record MetaRecord := {
  rec_sys_id : string;
  rec_name : string;
  rec_files : list File
}.

Record TableConfig := { tbl_records : obj MetaRecord }.

Definition TableMap : Type := obj TableConfig.

Record AppManifest := {
  man_scope : string;
  man_tables : TableMap
}.

(** An entry [{ name, type }] of the missing-file map. *)
Record MissingFile := {
  mf_name : string;
  mf_type : string
}.

Definition MissingFileTableMap : Type := obj (obj (list MissingFile)).

(** [Sinc.FileContext]: the parse of one local path. *)
Record FileContext := {
  ctx_tableName : string;
  ctx_sys_id : string;
  ctx_targetField : string;
  ctx_name : string;
  ctx_content : string
}.

Definition RecordContextMap : Type := obj FileContext.
Definition TableContextTree : Type := obj RecordContextMap.
Definition AppFileContextTree : Type := obj TableContextTree.

Record PushResult := {
  success : bool;
  message : string
}.

Record ScopeObj := { scope : string }.

Record ScopeCheckResult := {
  match_ : bool;
  sessionScope : string;
  manifestScope : string
}.

Record UpdateSet := {
  us_name : string;
  us_id : string
}.

#[global] Instance Error_eq_dec : EqDecision Error.
Proof. solve_decision. Defined.
#[global] Instance File_eq_dec : EqDecision File.
Proof. solve_decision. Defined.
#[global] Instance MetaRecord_eq_dec : EqDecision MetaRecord.
Proof. solve_decision. Defined.
#[global] Instance TableConfig_eq_dec : EqDecision TableConfig.
Proof. solve_decision. Defined.
#[global] Instance AppManifest_eq_dec : EqDecision AppManifest.
Proof. solve_decision. Defined.
#[global] Instance MissingFile_eq_dec : EqDecision MissingFile.
Proof. solve_decision. Defined.
#[global] Instance FileContext_eq_dec : EqDecision FileContext.
Proof. solve_decision. Defined.
#[global] Instance PushResult_eq_dec : EqDecision PushResult.
Proof. solve_decision. Defined.

(* ================================================================== *)
(** * External calls and the writer type of asynchronous functions *)
(* ================================================================== *)

(** One constructor per call that leaves the module. *)
Inductive Event : Type :=
| EvCreateDir (path : string)
| EvWriteSNFile (forceWrite : bool) (file : File) (recPath : string)
| EvWriteFileForce (path content : string)
| EvPathExists (path : string)
| EvSNFileExists (recPath : string) (file : File)
| EvGetMissingFiles (missing : MissingFileTableMap)
| EvGetFinalFileContents (ctx : FileContext)
| EvUpdateRecord (table sysId : string) (fields : obj string)
| EvTick (total : nat).

#[global] Instance Event_eq_dec : EqDecision Event.
Proof. solve_decision. Defined.

Definition M (A : Type) : Type := A * list Event.

Definition ret {A} (a : A) : M A := (a, []).

Definition bind {A B} (m : M A) (k : A -> M B) : M B :=
  let r := k (fst m) in (fst r, snd m ++ snd r).

Notation "x <- m ;; k" := (bind m (fun x => k))
  (at level 100, m at next level, right associativity).

(** An external call: the event it leaves and the outcome it settles to. *)
Definition call {A} (ev : Event) (outcome : A) : M A := (outcome, [ev]).

(** The promises of an array, each already started: values by index. *)
Definition settled {A} (tasks : list (M A)) : M (list A) :=
  (map fst tasks, concat (map snd tasks)).

Definition Promise_all {A} (tasks : list (M (Result A))) : M (Result (list A)) :=
  rs <- settled tasks ;; ret (all_ok rs).

(** Modelled from the spec: [allSettled] of genericUtils (not in src), the
    settle-all wait "that waits for every outcome, converting failures
    into tagged data". *)
Definition allSettled {A} (tasks : list (M (Result A))) : M (list (Result A)) :=
  settled tasks.

(** ** Completion order

    [completed order tasks] lists the promises in the order in which they
    settle; [Promise.all] stores each value at the index of its promise. *)
Definition completed {A} (order : list nat) (tasks : list (M A))
  : list (nat * M A) :=
  omap (fun i => (fun t => (i, t)) <$> tasks !! i) order.

Fixpoint settled_at {A} (done : list (nat * A)) (i : nat) : option A :=
  match done with
  | [] => None
  | (j, a) :: rest => if Nat.eqb j i then Some a else settled_at rest i
  end.

Definition settled_in {A} (order : list nat) (tasks : list (M A)) : M (list A) :=
  let done := completed order tasks in
  (omap (settled_at (map (fun p => (fst p, fst (snd p))) done))
        (seq 0 (length tasks)),
   concat (map (fun p => snd (snd p)) done)).

(** The first rejection in completion order is the one [Promise.all]
    rejects with. *)
Fixpoint first_rejection {A} (rs : list (Result A)) : option Error :=
  match rs with
  | [] => None
  | Err e :: _ => Some e
  | Ok _ :: rest => first_rejection rest
  end.

Definition Promise_all_in {A} (order : list nat) (tasks : list (M (Result A)))
  : M (Result (list A)) :=
  let done := completed order tasks in
  rs <- settled_in order tasks ;;
  ret (match first_rejection (map (fun p => fst (snd p)) done) with
       | Some e => Err e
       | None => all_ok rs
       end).

Definition allSettled_in {A} (order : list nat) (tasks : list (M (Result A)))
  : M (list (Result A)) :=
  settled_in order tasks.

(* ================================================================== *)
(** * Collaborators *)
(* ================================================================== *)

(** [./FileUtils] (not in src): outcomes of the file-system helpers.  A
    write or a directory creation may be rejected; a probe always
    resolves, to whether the path exists. *)
Class FileUtils := {
  (** [writeSNFileCurry(forceWrite)(file, recPath)] *)
  writeSNFile : bool -> File -> string -> Result unit;
  createDirRecursively : string -> Result unit;
  writeFileForce : string -> string -> Result unit;
  pathExists : string -> bool;
  (** [SNFileExists(recPath)(file)] *)
  SNFileExists : string -> File -> bool;
  (** [appendToPath(prefix)(suffix)] *)
  appendToPath : string -> string -> string
}.

(** [path.join] and [JSON.stringify(manifest, null, indent)]. *)
Class Runtime := {
  path_join : string -> string -> string;
  JSON_stringify : AppManifest -> nat -> string
}.

(** [./config] and [./Logger]. *)
Class ConfigManager := {
  getSourcePath : string;
  getManifestPath : string;
  getManifest : option AppManifest;
  getLogLevel : string
}.

(** [./server], [./PluginManager] and the push helpers of [./snClient]. *)
Class Services := {
  getMissingFiles : MissingFileTableMap -> Result TableMap;
  getFinalFileContents : FileContext -> Result string;
  Response : Type;
  (** [retryOnErr(() => client.updateRecord(table, sysId, fields), ...)]:
      how the retry loop settles, after one request or several. *)
  retryOnErr_updateRecord : string -> string -> obj string -> Result Response;
  processPushResponse : Response -> string -> Result PushResult
}.

(* ================================================================== *)
(** * Manifest model: [processManifest] *)
(* ================================================================== *)

Section Manifest.
Context {FU : FileUtils} {RT : Runtime} {CM : ConfigManager}.

Definition fileWrite (forceWrite : bool) (file : File) (recPath : string)
  : M (Result unit) :=
  call (EvWriteSNFile forceWrite file recPath) (writeSNFile forceWrite file recPath).

(** [delete file.content] *)
Definition delete_content (file : File) : File :=
  {| file_name := file_name file;
     file_type := file_type file;
     file_content := None |}.

Definition strip_rec (rec : MetaRecord) : MetaRecord :=
  {| rec_sys_id := rec_sys_id rec;
     rec_name := rec_name rec;
     rec_files := map delete_content (rec_files rec) |}.

(** Returns the outcome and [rec] as it is left in memory. *)
Definition processFilesInManRec (recPath : string) (rec : MetaRecord)
    (forceWrite : bool) : M (Result unit * MetaRecord) :=
  written <- Promise_all
    (map (fun file => fileWrite forceWrite file recPath) (rec_files rec)) ;;
  match written with
  | Err e => ret (Err e, rec)
  | Ok _ => ret (Ok tt, strip_rec rec)
  end.

(** The members of an object processed concurrently, each mutated in
    place: the joint outcome and the object as left in memory. *)
Definition for_each_member {V} (f : string -> V -> M (Result unit * V))
    (o : obj V) : M (Result unit * obj V) :=
  rs <- settled (map (fun kv => f (fst kv) (snd kv)) o) ;;
  ret (void (all_ok (map fst rs)), zip (obj_keys o) (map snd rs)).

Definition processRecsInManTable (tablePath : string) (table : TableConfig)
    (forceWrite : bool) : M (Result unit * TableConfig) :=
  let records := tbl_records table in
  let recKeyToPath (rec : MetaRecord) := path_join tablePath (rec_name rec) in
  dirs <- Promise_all
    (map (fun kv => call (EvCreateDir (recKeyToPath (snd kv)))
                         (createDirRecursively (recKeyToPath (snd kv))))
         records) ;;
  match dirs with
  | Err e => ret (Err e, table)
  | Ok _ =>
      done <- for_each_member
        (fun _ rec => processFilesInManRec (recKeyToPath rec) rec forceWrite)
        records ;;
      ret (fst done, {| tbl_records := snd done |})
  end.

Definition processTablesInManifest (tables : TableMap) (forceWrite : bool)
  : M (Result unit * TableMap) :=
  for_each_member
    (fun tableName table =>
       processRecsInManTable (path_join getSourcePath tableName) table forceWrite)
    tables.

Definition processManifest (manifest : AppManifest) (forceWrite : bool)
  : M (Result unit * AppManifest) :=
  done <- processTablesInManifest (man_tables manifest) forceWrite ;;
  let manifest' :=
    {| man_scope := man_scope manifest; man_tables := snd done |} in
  match fst done with
  | Err e => ret (Err e, manifest')
  | Ok _ =>
      w <- call (EvWriteFileForce getManifestPath (JSON_stringify manifest' 2))
                (writeFileForce getManifestPath (JSON_stringify manifest' 2)) ;;
      ret (w, manifest')
  end.

End Manifest.

(* ================================================================== *)
(** * Missing-file detector: [findMissingFiles], [processMissingFiles] *)
(* ================================================================== *)

(** The closures returned by [markFileMissing(missingObj)] update the
    object they captured: here they transform it. *)
Definition MarkFileMissingFunc : Type :=
  File -> MissingFileTableMap -> MissingFileTableMap.
Definition MarkRecordMissingFunc : Type := string -> MarkFileMissingFunc.
Definition MarkTableMissingFunc : Type := string -> MarkRecordMissingFunc.

Definition markFileMissing : MarkTableMissingFunc :=
  fun table recordId file missingObj =>
    let missingObj :=
      match obj_get missingObj table with
      | None => obj_set missingObj table []
      | Some _ => missingObj
      end in
    let missingObj :=
      obj_alter
        (fun ofTable =>
           match obj_get ofTable recordId with
           | None => obj_set ofTable recordId []
           | Some _ => ofTable
           end)
        table missingObj in
    obj_alter
      (obj_alter
         (fun entries =>
            entries ++ [{| mf_name := file_name file; mf_type := file_type file |}])
         recordId)
      table missingObj.

Definition markRecordMissing (record : MetaRecord)
    (missingFunc : MarkRecordMissingFunc)
    (missing : MissingFileTableMap) : MissingFileTableMap :=
  fold_left (fun missing file => missingFunc (rec_sys_id record) file missing)
            (rec_files record) missing.

Definition markTableMissing (table : TableConfig) (tableName : string)
    (missingFunc : MarkTableMissingFunc)
    (missing : MissingFileTableMap) : MissingFileTableMap :=
  fold_left
    (fun missing kv => markRecordMissing (snd kv) (missingFunc tableName) missing)
    (tbl_records table) missing.

(** The callbacks of one [map], each updating the shared accumulator,
    taken in array order.  (In the engine the synchronous prefix of a
    callback runs before the continuations of its siblings, so the order
    in which keys enter [missing] may differ; no statement below depends
    on that order.) *)
Fixpoint for_each {A S} (f : A -> S -> M S) (l : list A) (s : S) : M S :=
  match l with
  | [] => ret s
  | a :: rest => s' <- f a s ;; for_each f rest s'
  end.

Section MissingFiles.
Context {FU : FileUtils} {RT : Runtime} {CM : ConfigManager} {SV : Services}.

Definition checkFilesForMissing (recPath : string) (files : list File)
    (missingFunc : MarkFileMissingFunc) (missing : MissingFileTableMap)
  : M MissingFileTableMap :=
  checks <- settled
    (map (fun file => call (EvSNFileExists recPath file) (SNFileExists recPath file))
         files) ;;
  ret (fold_left
         (fun missing cf =>
            if (fst cf : bool) then missing else missingFunc (snd cf) missing)
         (zip checks files) missing).

Definition checkRecordsForMissing (tablePath : string) (records : obj MetaRecord)
    (missingFunc : MarkRecordMissingFunc) (missing : MissingFileTableMap)
  : M MissingFileTableMap :=
  let recNames := obj_keys records in
  let recPaths := map (appendToPath tablePath) recNames in
  checks <- settled
    (map (fun recPath => call (EvPathExists recPath) (pathExists recPath)) recPaths) ;;
  for_each
    (fun '(check, recPath, record) missing =>
       if (check : bool)
       then checkFilesForMissing recPath (rec_files record)
              (missingFunc (rec_sys_id record)) missing
       else ret (markRecordMissing record missingFunc missing))
    (zip (zip checks recPaths) (obj_values records)) missing.

Definition checkTablesForMissing (topPath : string) (tables : TableMap)
    (missingFunc : MarkTableMissingFunc) (missing : MissingFileTableMap)
  : M MissingFileTableMap :=
  let tableNames := obj_keys tables in
  let tablePaths := map (appendToPath topPath) tableNames in
  checks <- settled
    (map (fun tablePath => call (EvPathExists tablePath) (pathExists tablePath))
         tablePaths) ;;
  for_each
    (fun '(check, tablePath, (tableName, table)) missing =>
       if (check : bool)
       then checkRecordsForMissing tablePath (tbl_records table)
              (missingFunc tableName) missing
       else ret (markTableMissing table tableName missingFunc missing))
    (zip (zip checks tablePaths) tables) missing.

Definition findMissingFiles (manifest : AppManifest) : M MissingFileTableMap :=
  checkTablesForMissing getSourcePath (man_tables manifest) markFileMissing [].

Definition processMissingFiles (newManifest : AppManifest) : M (Result unit) :=
  missing <- findMissingFiles newManifest ;;
  fetched <- call (EvGetMissingFiles missing) (getMissingFiles missing) ;;
  match fetched with
  | Err e => ret (Err e)
  | Ok filesToProcess =>
      done <- processTablesInManifest filesToProcess false ;;
      ret (fst done)
  end.

End MissingFiles.

(* ================================================================== *)
(** * File tree builder: [groupAppFiles], [countRecsInTree] *)
(* ================================================================== *)

Definition countRecsInTree (tree : AppFileContextTree) : nat :=
  fold_left (fun acc kv => acc + length (obj_keys (snd kv))) tree 0.

Definition fillIfNotExists {V} (rec : obj (obj V)) (key : string) : obj (obj V) :=
  match obj_get rec key with
  | None => obj_set rec key []
  | Some _ => rec
  end.

Definition groupAppFiles (fileCtxs : list FileContext) : AppFileContextTree :=
  fold_left
    (fun tree cur =>
       let tableName := ctx_tableName cur in
       let sys_id := ctx_sys_id cur in
       let targetField := ctx_targetField cur in
       let tree := fillIfNotExists tree tableName in
       let tree :=
         obj_alter (fun tableTree => fillIfNotExists tableTree sys_id)
                   tableName tree in
       obj_alter
         (obj_alter (fun recMap => obj_set recMap targetField cur) sys_id)
         tableName tree)
    fileCtxs [].

(** Structural identity of two trees: the same tables, records and
    fields with the same contexts. *)
Definition tree_map (tree : AppFileContextTree)
  : gmap string (gmap string (gmap string FileContext)) :=
  obj_map (obj_map (obj_map id)) tree.

Definition ctx_key (ctx : FileContext) : string * string * string :=
  (ctx_tableName ctx, ctx_sys_id ctx, ctx_targetField ctx).

(* ================================================================== *)
(** * Build pipeline: [buildRec] *)
(* ================================================================== *)

Definition newline : string := String (Ascii.ascii_of_nat 10) EmptyString.

(** Modelled from the spec: [aggregateErrorMessages] of genericUtils (not
    in src).  The spec says the aggregated message enumerates every
    failure's label and reason; each entry is the label produced by
    [labelFn] for the error and its position in [errs], then the error's
    message (or [defaultMsg] when it has none). *)
Definition aggregateErrorMessages (errs : list Error) (defaultMsg : string)
    (labelFn : Error -> nat -> string) : string :=
  fold_left
    (fun acc ie =>
       acc +:+ newline +:+ labelFn (snd ie) (fst ie) +:+ ":" +:+ newline +:+
       (if String.eqb (err_message (snd ie)) "" then defaultMsg
        else err_message (snd ie)))
    (imap (fun index err => (index, err)) errs) "".

(** [builtFiles.filter(b => b.status === "rejected").map(b => b.reason)] *)
Definition rejections {A} (rs : list (Result A)) : list Error :=
  omap (fun r => match r with Err e => Some e | Ok _ => None end) rs.

(** The [value] of every fulfilled result. *)
Definition built_contents {A} (rs : list (Result A)) : list A :=
  omap (fun r => match r with Ok a => Some a | Err _ => None end) rs.

Section Build.
Context {SV : Services}.

Definition buildRec (rec : RecordContextMap) : M (Result (obj string)) :=
  let fields := obj_keys rec in
  builtFiles <- allSettled
    (map (fun kv => call (EvGetFinalFileContents (snd kv))
                         (getFinalFileContents (snd kv)))
         rec) ;;
  let buildSuccess := forallb is_ok builtFiles in
  if negb buildSuccess then
    ret (Err {| err_message :=
                  aggregateErrorMessages (rejections builtFiles)
                    "Failed to build!" (fun _ index => pretty index) |})
  else
    ret (Ok (fold_left
               (fun acc fc => obj_set acc (fst fc) (snd fc))
               (zip fields (built_contents builtFiles)) [])).

End Build.

(** The failed fields of a record, each with its index among the
    record's fields and the reason of its failure. *)
Definition failed_fields {A} (rs : list (Result A)) : list (nat * Error) :=
  omap (fun ir => match snd ir with Err e => Some (fst ir, e) | Ok _ => None end)
       (imap (fun index r => (index, r)) rs).

(** The message the specification describes: every failed field labelled
    with its own index. *)
Definition message_by_field_index {A} (rs : list (Result A)) : string :=
  fold_left
    (fun acc ie =>
       acc +:+ newline +:+ pretty (fst ie) +:+ ":" +:+ newline +:+
       (if String.eqb (err_message (snd ie)) "" then "Failed to build!"
        else err_message (snd ie)))
    (failed_fields rs) "".

(* ================================================================== *)
(** * Push orchestrator: [buildAndPush], [pushFiles] *)
(* ================================================================== *)

Definition summarizeRecord (table recDescriptor : string) : string :=
  table +:+ " > " +:+ recDescriptor.

(** The order in which the promises of one table settle. *)
Record TableSchedule := {
  builds_settle : list nat;
  pushes_settle : list nat
}.

Record Schedule := {
  tables_settle : list nat;
  table_schedule : nat -> TableSchedule
}.

Definition is_order (order : list nat) (n : nat) : Prop :=
  Permutation order (seq 0 n).

Definition valid_schedule (sched : Schedule) (tree : AppFileContextTree) : Prop :=
  is_order (tables_settle sched) (length tree) /\
  forall i table tableTree,
    tree !! i = Some (table, tableTree) ->
    is_order (builds_settle (table_schedule sched i)) (length tableTree) /\
    is_order (pushes_settle (table_schedule sched i)) (length tableTree).

(** Every promise settles in array order. *)
Definition in_array_order (tree : AppFileContextTree) : Schedule :=
  {| tables_settle := seq 0 (length tree);
     table_schedule := fun i =>
       let n := match tree !! i with Some kv => length (snd kv) | None => 0 end in
       {| builds_settle := seq 0 n; pushes_settle := seq 0 n |} |}.

(** Reading [.name] of [undefined]. *)
Definition TypeError_name_of_undefined : Error :=
  {| err_message := "Cannot read property 'name' of undefined" |}.

Definition getProgTick (logLevel : string) (total : nat) : option (M unit) :=
  if String.eqb logLevel "info" then Some (call (EvTick total) tt) else None.

Section Push.
Context {CM : ConfigManager} {SV : Services}.

Definition failed (recSummary : string) (e : Error) : PushResult :=
  let errMsg :=
    if String.eqb (err_message e) "" then "Too many retries" else err_message e in
  {| success := false; message := recSummary +:+ " : " +:+ errMsg |}.

(** The callback of [builtRecs.map] in [buildAndPush]: the push of one
    record, given how its build settled. *)
Definition pushRec (table : string) (tick : option (M unit))
    (buildRes : Result (obj string)) (recId : string) (recMap : RecordContextMap)
  : M (Result PushResult) :=
  match recMap with
  | [] => ret (Err TypeError_name_of_undefined)
  | (_, first) :: _ =>
      let recDesc :=
        if String.eqb (ctx_name first) "" then recId else ctx_name first in
      let recSummary := summarizeRecord table recDesc in
      match buildRes with
      | Err reason =>
          ret (Ok {| success := false;
                     message := recSummary +:+ " : " +:+ err_message reason |})
      | Ok value =>
          res <- call (EvUpdateRecord table recId value)
                      (retryOnErr_updateRecord table recId value) ;;
          let result :=
            match res with
            | Ok response =>
                match processPushResponse response recSummary with
                | Ok pushed => pushed
                | Err e => failed recSummary e
                end
            | Err e => failed recSummary e
            end in
          _ <- match tick with Some tick => tick | None => ret tt end ;;
          ret (Ok result)
      end
  end.

Definition buildAndPush (sched : TableSchedule) (table : string)
    (tableTree : TableContextTree) (tick : option (M unit))
  : M (Result (list PushResult)) :=
  builtRecs <- allSettled_in (builds_settle sched)
    (map (fun kv => buildRec (snd kv)) tableTree) ;;
  Promise_all_in (pushes_settle sched)
    (map (fun br => pushRec table tick (fst br) (fst (snd br)) (snd (snd br)))
         (zip builtRecs tableTree)).

Definition pushFiles (sched : Schedule) (appFileTree : AppFileContextTree)
    (recordCount : nat) : M (Result (list PushResult)) :=
  let tick := getProgTick getLogLevel recordCount in
  tablePushResults <- Promise_all_in (tables_settle sched)
    (imap (fun i kv => buildAndPush (table_schedule sched i) (fst kv) (snd kv) tick)
          appFileTree) ;;
  ret (match tablePushResults with
       | Ok results => Ok (concat results)
       | Err e => Err e
       end).

(** The outcome of one record, as a function of the collaborators. *)
Definition push_outcome (table : string) (recId : string)
    (recMap : RecordContextMap) : Result PushResult :=
  fst (pushRec table None (fst (buildRec recMap)) recId recMap).

End Push.

Definition is_tick (ev : Event) : bool :=
  match ev with EvTick _ => true | _ => false end.

(** How many times the progress observer was invoked. *)
Definition ticks (trace : list Event) : nat :=
  length (List.filter is_tick trace).

(* ================================================================== *)
(** * Scope guard and update-set manager *)
(* ================================================================== *)

(** The client of [./snClient] against a remote instance in state
    [Remote].  A read is wrapped in [processSimpleResponse], which
    extracts the requested field or raises; a write returns the state it
    leaves.

    The scope-preference read is the expression of [swapServerScope],
    [processSimpleResponse(...) || ""]: the identifier of the record, or
    the empty string when the response carries none.  The read of the
    update-set preference in [createAndAssignUpdateSet] has no [|| ""]:
    it is the [sys_id] of the response as it comes, [None] when the
    response has no such field ([undefined]), and that value is what the
    update call receives as the identifier of the record. *)
Class SNClient (Remote : Type) := {
  getScopeId : string -> Remote -> Result string;
  getCurrentScope : Remote -> Result ScopeObj;
  getUserSysId : Remote -> Result string;
  getCurrentAppUserPrefSysId : string -> Remote -> Result string;
  updateCurrentAppUserPref : string -> string -> Remote -> Result unit * Remote;
  createCurrentAppUserPref : string -> string -> Remote -> Result unit * Remote;
  createUpdateSet : string -> Remote -> Result string * Remote;
  getCurrentUpdateSetUserPref : string -> Remote -> Result (option string);
  updateCurrentUpdateSetUserPref :
    string -> option string -> Remote -> Result unit * Remote;
  createCurrentUpdateSetUserPref :
    string -> string -> Remote -> Result unit * Remote
}.

(** An asynchronous function over the remote instance: the state it
    leaves and the value or the error it settles to. *)
Definition Session (Remote A : Type) : Type := Remote -> Result A * Remote.

Definition resolve {Remote A} (a : A) : Session Remote A := fun s => (Ok a, s).

(** [const x = await m; k x]: a rejection of [m] is thrown on. *)
Definition await {Remote A B} (m : Session Remote A) (k : A -> Session Remote B)
  : Session Remote B :=
  fun s =>
    match m s with
    | (Ok a, s') => k a s'
    | (Err e, s') => (Err e, s')
    end.

Notation "x <~ m ;; k" := (await m (fun x => k))
  (at level 100, m at next level, right associativity).

Definition read {Remote A} (f : Remote -> Result A) : Session Remote A :=
  fun s => (f s, s).

Section Scope.
Context {Remote : Type} {CL : SNClient Remote} {CM : ConfigManager}.

Definition swapServerScope (scopeId : string) : Session Remote unit :=
  userSysId <~ read getUserSysId ;;
  curAppUserPrefId <~ read (getCurrentAppUserPrefSysId userSysId) ;;
  if negb (String.eqb curAppUserPrefId "")
  then updateCurrentAppUserPref scopeId curAppUserPrefId
  else createCurrentAppUserPref scopeId userSysId.

Definition swapScope (currentScope : string) : Session Remote ScopeObj :=
  scopeId <~ read (getScopeId currentScope) ;;
  _ <~ swapServerScope scopeId ;;
  read getCurrentScope.

Definition createAndAssignUpdateSet (updateSetName : string)
  : Session Remote UpdateSet :=
  updateSetSysId <~ createUpdateSet updateSetName ;;
  userSysId <~ read getUserSysId ;;
  curUpdateSetUserPrefId <~ read (getCurrentUpdateSetUserPref userSysId) ;;
  _ <~ (if negb (bool_decide (curUpdateSetUserPrefId = Some ""))
        then updateCurrentUpdateSetUserPref updateSetSysId curUpdateSetUserPrefId
        else createCurrentUpdateSetUserPref updateSetSysId userSysId) ;;
  resolve {| us_name := updateSetName; us_id := updateSetSysId |}.

Definition checkScope (swap : bool) : Session Remote ScopeCheckResult :=
  match getManifest with
  | Some man =>
      scopeObj <~ read getCurrentScope ;;
      if String.eqb (scope scopeObj) (man_scope man) then
        resolve {| match_ := true;
                   sessionScope := scope scopeObj;
                   manifestScope := man_scope man |}
      else if swap then
        swappedScopeObj <~ swapScope (man_scope man) ;;
        resolve {| match_ := String.eqb (scope swappedScopeObj) (man_scope man);
                   sessionScope := scope swappedScopeObj;
                   manifestScope := man_scope man |}
      else
        resolve {| match_ := false;
                   sessionScope := scope scopeObj;
                   manifestScope := man_scope man |}
  | None =>
      resolve {| match_ := true; sessionScope := ""; manifestScope := "" |}
  end.

End Scope.

(* ================================================================== *)
(** * Local file scan: [getValidPaths], [getFileTreeAndCount] *)
(* ================================================================== *)

(** [s.split(separator)] of JavaScript for a string separator: the
    pieces of [s] between the occurrences of the separator, found from
    the left and not overlapping; the characters of [s] when the
    separator is empty.  [skip] counts the characters of a separator
    just found that are still to be passed over, [chunk] is the piece
    being read. *)
Fixpoint split_from (separator : string) (skip : nat) (chunk s : string)
  : list string :=
  match s with
  | EmptyString => [chunk]
  | String c rest =>
      match skip with
      | S skip => split_from separator skip chunk rest
      | O =>
          if String.prefix separator s
          then chunk :: split_from separator (String.length separator - 1) "" rest
          else split_from separator 0 (chunk +:+ String c "") rest
      end
  end.

Definition split (s separator : string) : list string :=
  match separator with
  | EmptyString => map (fun c => String c "") (String.list_ascii_of_string s)
  | String _ _ => split_from separator 0 "" s
  end.

(** The scan helpers of [./FileUtils] and the delimiter of
    [./constants] (not in src): listing the files below a path and
    parsing the path of a file into its context ([None] for a path that
    is not an application file) may be rejected. *)
Class Scanner := {
  PATH_DELIMITER : string;
  getPathsInPath : string -> Result (list string);
  getFileContextFromPath : string -> Result (option FileContext)
}.

(** The calls of the scan, in the writer style of [M]. *)
Inductive ScanEvent : Type :=
| ScPathExists (path : string)
| ScGetPathsInPath (path : string)
| ScGetFileContextFromPath (path : string).

#[global] Instance ScanEvent_eq_dec : EqDecision ScanEvent.
Proof. solve_decision. Defined.

Module Scan.

Definition T (A : Type) : Type := A * list ScanEvent.

Definition ret {A} (a : A) : T A := (a, []).

Definition bind {A B} (m : T A) (k : A -> T B) : T B :=
  let r := k (fst m) in (fst r, snd m ++ snd r).

Definition call {A} (ev : ScanEvent) (outcome : A) : T A := (outcome, [ev]).

Definition settled {A} (tasks : list (T A)) : T (list A) :=
  (map fst tasks, concat (map snd tasks)).

Definition Promise_all {A} (tasks : list (T (Result A))) : T (Result (list A)) :=
  bind (settled tasks) (fun rs => ret (all_ok rs)).

End Scan.

Notation "x <~~ m ;; k" := (Scan.bind m (fun x => k))
  (at level 100, m at next level, right associativity).

Section FileScan.
Context {FU : FileUtils} {SC : Scanner}.

(** [maybeFileContexts.filter(ctx => ctx !== undefined)] is [omap id]. *)
Definition getAppFilesInPath (path : string) : Scan.T (Result (list FileContext)) :=
  listed <~~ Scan.call (ScGetPathsInPath path) (getPathsInPath path) ;;
  match listed with
  | Err e => Scan.ret (Err e)
  | Ok filePaths =>
      parsed <~~ Scan.Promise_all
        (map (fun filePath =>
                Scan.call (ScGetFileContextFromPath filePath)
                          (getFileContextFromPath filePath))
             filePaths) ;;
      match parsed with
      | Err e => Scan.ret (Err e)
      | Ok maybeFileContexts => Scan.ret (Ok (omap id maybeFileContexts))
      end
  end.

(** [appFileLists.flat()] is [concat]. *)
Definition getAppFilesInPaths (paths : list string)
  : Scan.T (Result (list FileContext)) :=
  scanned <~~ Scan.Promise_all (map getAppFilesInPath paths) ;;
  match scanned with
  | Err e => Scan.ret (Err e)
  | Ok appFileLists => Scan.ret (Ok (concat appFileLists))
  end.

(** The chunks kept are the non-empty ones; a probe always resolves, and
    [pathChunks.filter((_, index) => pathExistsCheck[index])] keeps the
    chunks whose probe answered [true]. *)
Definition getValidPaths (encodedPaths : string) : Scan.T (list string) :=
  let pathChunks :=
    List.filter (fun p => negb (String.eqb p "")) (split encodedPaths PATH_DELIMITER) in
  pathExistsCheck <~~ Scan.settled
    (map (fun p => Scan.call (ScPathExists p) (pathExists p)) pathChunks) ;;
  Scan.ret (map snd (List.filter fst (zip pathExistsCheck pathChunks))).

Definition getFileTreeAndCount (encodedPaths : string)
  : Scan.T (Result (AppFileContextTree * nat)) :=
  validPaths <~~ getValidPaths encodedPaths ;;
  scanned <~~ getAppFilesInPaths validPaths ;;
  match scanned with
  | Err e => Scan.ret (Err e)
  | Ok appFileCtxs =>
      let appFileTree := groupAppFiles appFileCtxs in
      let recordCount := countRecsInTree appFileTree in
      Scan.ret (Ok (appFileTree, recordCount))
  end.

End FileScan.

(* ================================================================== *)
(** * Vocabulary of the statements *)
(* ================================================================== *)

Section ManifestVocabulary.
Context {FU : FileUtils} {RT : Runtime} {CM : ConfigManager}.

(** Every file of the record is written successfully. *)
Definition writes_ok (forceWrite : bool) (recPath : string) (rec : MetaRecord)
  : bool :=
  forallb (fun file => is_ok (writeSNFile forceWrite file recPath)) (rec_files rec).

Definition rec_dir (tablePath : string) (rec : MetaRecord) : string :=
  path_join tablePath (rec_name rec).

(** Every record directory of the table is created successfully. *)
Definition dirs_ok (tablePath : string) (table : TableConfig) : bool :=
  forallb (fun kv => is_ok (createDirRecursively (rec_dir tablePath (snd kv))))
          (tbl_records table).

Definition table_ok (forceWrite : bool) (tablePath : string) (table : TableConfig)
  : bool :=
  dirs_ok tablePath table &&
  forallb (fun kv => writes_ok forceWrite (rec_dir tablePath (snd kv)) (snd kv))
          (tbl_records table).

Definition table_dir (tableName : string) : string :=
  path_join getSourcePath tableName.

(** Every directory creation and every file write succeeds. *)
Definition all_written (tables : TableMap) (forceWrite : bool) : bool :=
  forallb (fun kv => table_ok forceWrite (table_dir (fst kv)) (snd kv)) tables.

(** The calls of the table-write stage: per table the directory
    creations, then (once they all succeeded) the file writes. *)
Definition table_writes (forceWrite : bool) (tablePath : string)
    (table : TableConfig) : list Event :=
  map (fun kv => EvCreateDir (rec_dir tablePath (snd kv))) (tbl_records table) ++
  (if dirs_ok tablePath table
   then concat
          (map (fun kv =>
                  map (fun file =>
                         EvWriteSNFile forceWrite file (rec_dir tablePath (snd kv)))
                      (rec_files (snd kv)))
               (tbl_records table))
   else []).

Definition tables_writes (tables : TableMap) (forceWrite : bool) : list Event :=
  concat (map (fun kv => table_writes forceWrite (table_dir (fst kv)) (snd kv))
              tables).

(** The tree as the table-write stage leaves it in memory: a record is
    stripped of its content once its own files are written. *)
Definition strip_written_table (forceWrite : bool) (tablePath : string)
    (table : TableConfig) : TableConfig :=
  if dirs_ok tablePath table
  then {| tbl_records :=
            map (fun kv =>
                   (fst kv,
                    if writes_ok forceWrite (rec_dir tablePath (snd kv)) (snd kv)
                    then strip_rec (snd kv) else snd kv))
                (tbl_records table) |}
  else table.

Definition strip_written (tables : TableMap) (forceWrite : bool) : TableMap :=
  map (fun kv => (fst kv, strip_written_table forceWrite (table_dir (fst kv)) (snd kv)))
      tables.

(** The tree with the content of every file removed. *)
Definition strip_tables (tables : TableMap) : TableMap :=
  map (fun kv =>
         (fst kv,
          {| tbl_records :=
               map (fun kr => (fst kr, strip_rec (snd kr))) (tbl_records (snd kv)) |}))
      tables.

Definition strip_manifest (manifest : AppManifest) : AppManifest :=
  {| man_scope := man_scope manifest;
     man_tables := strip_tables (man_tables manifest) |}.

Definition persist (manifest : AppManifest) : Event :=
  EvWriteFileForce getManifestPath (JSON_stringify manifest 2).

End ManifestVocabulary.

Definition is_persist (ev : Event) : bool :=
  match ev with EvWriteFileForce _ _ => true | _ => false end.

(** A write that would overwrite a local edit. *)
Definition is_forced_write (ev : Event) : bool :=
  match ev with EvWriteSNFile true _ _ => true | _ => false end.

Section DetectorVocabulary.
Context {FU : FileUtils} {CM : ConfigManager}.

(** The detector finds the file: the three probes it makes for it
    succeed, for the table directory, for the record directory, which it
    names by the key of the record ([recName]), and for the file. *)
Definition file_present (tableName recName : string) (file : File) : bool :=
  let tablePath := appendToPath getSourcePath tableName in
  let recPath := appendToPath tablePath recName in
  pathExists tablePath && pathExists recPath && SNFileExists recPath file.

Definition all_present (manifest : AppManifest) : Prop :=
  forall tableName table recName record file,
    In (tableName, table) (man_tables manifest) ->
    In (recName, record) (tbl_records table) ->
    In file (rec_files record) ->
    file_present tableName recName file = true.

(** The callback of [checks.map] in [checkRecordsForMissing], for one
    record. *)
Definition check_record (tablePath : string) (missingFunc : MarkRecordMissingFunc)
    (kv : string * MetaRecord) (missing : MissingFileTableMap)
  : M MissingFileTableMap :=
  let recPath := appendToPath tablePath (fst kv) in
  if pathExists recPath
  then checkFilesForMissing recPath (rec_files (snd kv))
         (missingFunc (rec_sys_id (snd kv))) missing
  else ret (markRecordMissing (snd kv) missingFunc missing).

(** The callback of [checks.map] in [checkTablesForMissing], for one
    table. *)
Definition check_table (topPath : string) (missingFunc : MarkTableMissingFunc)
    (kv : string * TableConfig) (missing : MissingFileTableMap)
  : M MissingFileTableMap :=
  let tablePath := appendToPath topPath (fst kv) in
  if pathExists tablePath
  then checkRecordsForMissing tablePath (tbl_records (snd kv))
         (missingFunc (fst kv)) missing
  else ret (markTableMissing (snd kv) (fst kv) missingFunc missing).

(** The probes issued below a table directory that exists: one per
    record directory, then one per file of each record directory that
    exists. *)
Definition record_probes (tablePath : string) (records : obj MetaRecord)
  : list Event :=
  map (fun kv => EvPathExists (appendToPath tablePath (fst kv))) records ++
  concat
    (map (fun kv =>
            let recPath := appendToPath tablePath (fst kv) in
            if pathExists recPath
            then map (fun file => EvSNFileExists recPath file) (rec_files (snd kv))
            else [])
         records).

(** The probes of a detection run: one per table directory, then, table
    by table, those below each table directory that exists. *)
Definition detector_probes (tables : TableMap) : list Event :=
  map (fun kv => EvPathExists (appendToPath getSourcePath (fst kv))) tables ++
  concat
    (map (fun kv =>
            let tablePath := appendToPath getSourcePath (fst kv) in
            if pathExists tablePath
            then record_probes tablePath (tbl_records (snd kv))
            else [])
         tables).

End DetectorVocabulary.

Definition is_probe (ev : Event) : bool :=
  match ev with EvPathExists _ | EvSNFileExists _ _ => true | _ => false end.

(** The entries reported for a record ([[]] when it has no key). *)
Definition missing_of (missing : MissingFileTableMap) (table recordId : string)
  : list MissingFile :=
  match obj_get missing table with
  | Some ofTable => default [] (obj_get ofTable recordId)
  | None => []
  end.

Definition missing_entry (file : File) : MissingFile :=
  {| mf_name := file_name file; mf_type := file_type file |}.

Definition reported (table recordId : string) (entry : MissingFile)
    (missing : MissingFileTableMap) : Prop :=
  In entry (missing_of missing table recordId).

(** The manifest with the records of its [i]-th table removed. *)
Definition without_records (i : nat) (manifest : AppManifest) : AppManifest :=
  {| man_scope := man_scope manifest;
     man_tables :=
       match man_tables manifest !! i with
       | Some (tableName, _) =>
           <[i := (tableName, {| tbl_records := [] |})]> (man_tables manifest)
       | None => man_tables manifest
       end |}.

(** The reducer of [groupAppFiles]. *)
Definition add_context (tree : AppFileContextTree) (cur : FileContext)
  : AppFileContextTree :=
  let tree := fillIfNotExists tree (ctx_tableName cur) in
  let tree :=
    obj_alter (fun tableTree => fillIfNotExists tableTree (ctx_sys_id cur))
              (ctx_tableName cur) tree in
  obj_alter
    (obj_alter (fun recMap => obj_set recMap (ctx_targetField cur) cur)
               (ctx_sys_id cur))
    (ctx_tableName cur) tree.

(** The same step on the dictionaries the trees denote. *)
Definition tree_map_add (cur : FileContext)
    (m : gmap string (gmap string (gmap string FileContext)))
  : gmap string (gmap string (gmap string FileContext)) :=
  let ofTable := default ∅ (m !! ctx_tableName cur) in
  let ofRecord := default ∅ (ofTable !! ctx_sys_id cur) in
  <[ctx_tableName cur :=
      <[ctx_sys_id cur := <[ctx_targetField cur := cur]> ofRecord]> ofTable]> m.

Section BuildVocabulary.
Context {SV : Services}.

(** How the transform of each field settles, in field order. *)
Definition field_outcomes (rec : RecordContextMap) : list (Result string) :=
  map (fun kv => getFinalFileContents (snd kv)) rec.

End BuildVocabulary.

(** Every record of the tree has at least one field context, as in
    every tree [groupAppFiles] builds. *)
Definition records_nonempty (tree : AppFileContextTree) : Prop :=
  forall table tableTree recId recMap,
    In (table, tableTree) tree -> In (recId, recMap) tableTree -> recMap <> [].

Section PushVocabulary.
Context {CM : ConfigManager} {SV : Services}.

(** One outcome per record, tables in enumeration order and records in
    enumeration order within each table. *)
Definition record_outcomes (tree : AppFileContextTree) : list (Result PushResult) :=
  concat
    (map (fun kv =>
            map (fun rv => push_outcome (fst kv) (fst rv) (snd rv)) (snd kv))
         tree).

(** The record has a field and its build succeeds: its push is
    attempted. *)
Definition reaches_push (recMap : RecordContextMap) : bool :=
  match recMap with
  | [] => false
  | _ :: _ => is_ok (fst (buildRec recMap))
  end.

Definition pushed_records (tree : AppFileContextTree) : nat :=
  length (List.filter reaches_push (concat (map (fun kv => map snd (snd kv)) tree))).

End PushVocabulary.

Section ScopeVocabulary.
Context {Remote : Type} {CL : SNClient Remote}.

(** The write [swapServerScope] performs: an update of the user's scope
    preference when it exists, its creation otherwise. *)
Definition assign_scope (scopeId userSysId prefId : string)
  : Session Remote unit :=
  if negb (String.eqb prefId "")
  then updateCurrentAppUserPref scopeId prefId
  else createCurrentAppUserPref scopeId userSysId.

End ScopeVocabulary.

(** A tree all of whose records have a field context, decided. *)
Definition records_nonemptyb (tree : AppFileContextTree) : bool :=
  forallb
    (fun kv =>
       forallb (fun rv => match snd rv with [] => false | _ :: _ => true end)
               (snd kv))
    tree.

(** Every promise settles later than the ones after it in its array. *)
Definition last_first (tree : AppFileContextTree) : Schedule :=
  {| tables_settle := rev (seq 0 (length tree));
     table_schedule := fun i =>
       let n := match tree !! i with Some kv => length (snd kv) | None => 0 end in
       {| builds_settle := rev (seq 0 n); pushes_settle := rev (seq 0 n) |} |}.

Section DetectorReportVocabulary.
Context {FU : FileUtils} {CM : ConfigManager}.


End DetectorReportVocabulary.

Section WriterPathVocabulary.
Context {FU : FileUtils} {RT : Runtime} {CM : ConfigManager}.

(** The file is on disk where [processManifest] puts it: below the
    directory of its table, in the directory that
    [processRecsInManTable] names by the [name] of the record. *)
Definition file_where_written (tableName : string) (record : MetaRecord)
    (file : File) : bool :=
  pathExists (table_dir tableName) &&
  pathExists (rec_dir (table_dir tableName) record) &&
  SNFileExists (rec_dir (table_dir tableName) record) file.

(** Every declared file is on disk at the path it is written to. *)
Definition all_where_written (manifest : AppManifest) : bool :=
  forallb
    (fun kv =>
       forallb
         (fun kr => forallb (file_where_written (fst kv) (snd kr)) (rec_files (snd kr)))
         (tbl_records (snd kv)))
    (man_tables manifest).

End WriterPathVocabulary.

(** Every record is filed under its name. *)
Definition keyed_by_name (manifest : AppManifest) : bool :=
  forallb
    (fun kv =>
       forallb (fun kr => String.eqb (fst kr) (rec_name (snd kr)))
               (tbl_records (snd kv)))
    (man_tables manifest).

(** [if (!o[k]) o[k] = d], for a member that is never falsy once set. *)
Definition obj_fill {V} (d : V) (o : obj V) (k : string) : obj V :=
  match obj_get o k with
  | None => obj_set o k d
  | Some _ => o
  end.

(** A missing-file map as a consumer may rely on it: table names are
    pairwise distinct, so are the record identifiers of a table, no
    table is reported without a record and no record without a file. *)
Definition missing_records_wf (ofTable : obj (list MissingFile)) : Prop :=
  obj_wf ofTable /\ ofTable <> [] /\
  forall recordId entries, In (recordId, entries) ofTable -> entries <> [].

Definition missing_wf (missing : MissingFileTableMap) : Prop :=
  obj_wf missing /\
  forall table ofTable, In (table, ofTable) missing -> missing_records_wf ofTable.

(** [tree[table][sysId][field]], [None] when a level is missing. *)
Definition tree_get (tree : AppFileContextTree) (table sysId field : string)
  : option FileContext :=
  match obj_get tree table with
  | Some tableTree =>
      match obj_get tableTree sysId with
      | Some recMap => obj_get recMap field
      | None => None
      end
  | None => None
  end.

(** A tree as JavaScript can hold it and as the push pipeline expects
    it: no key occurs twice at any level, no table is without a record
    and no record without a field. *)
Definition table_tree_wf (tableTree : TableContextTree) : Prop :=
  obj_wf tableTree /\ tableTree <> [] /\
  forall recId recMap, In (recId, recMap) tableTree -> obj_wf recMap /\ recMap <> [].

Definition tree_wf (tree : AppFileContextTree) : Prop :=
  obj_wf tree /\
  forall table tableTree, In (table, tableTree) tree -> table_tree_wf tableTree.

(** The record a context belongs to. *)
Definition rec_key (ctx : FileContext) : string * string :=
  (ctx_tableName ctx, ctx_sys_id ctx).

(** The elements of a list in the order of their first occurrence. *)
Definition first_seen {A} `{EqDecision A} (l : list A) : list A :=
  reverse (remove_dups (reverse l)).

(** An array index: the canonical decimal numeral of an integer below
    [2^32 - 1] ([0], [7], [10]; not [007]). *)
Definition is_digit (c : Ascii.ascii) : bool :=
  Nat.leb 48 (Ascii.nat_of_ascii c) && Nat.leb (Ascii.nat_of_ascii c) 57.

Definition numeral_value (s : string) : N :=
  fold_left (fun acc c => (10 * acc + (Ascii.N_of_ascii c - 48))%N)
            (String.list_ascii_of_string s) 0%N.

Definition array_index (k : string) : bool :=
  match k with
  | EmptyString => false
  | String c rest =>
      forallb is_digit (String.list_ascii_of_string k) &&
      (negb (Nat.eqb (Ascii.nat_of_ascii c) 48) || String.eqb rest "") &&
      N.ltb (numeral_value k) 4294967295
  end.

Fixpoint insert_index (k : string) (sorted : list string) : list string :=
  match sorted with
  | [] => [k]
  | k' :: rest =>
      if N.leb (numeral_value k) (numeral_value k') then k :: sorted
      else k' :: insert_index k rest
  end.

(** The order in which JavaScript enumerates own string keys that were
    created in the order [created]: the array indices in ascending
    numeric order, then the other keys in the order of their creation. *)
Definition enumeration (created : list string) : list string :=
  fold_right insert_index [] (List.filter array_index created) ++
  List.filter (fun k => negb (array_index k)) created.

(** [Object.keys(o)]. *)
Definition Object_keys {V} (o : obj V) : list string := enumeration (obj_keys o).

(** The names an object inherits from [Object.prototype]: read through
    [o[k]] they are there before any assignment. *)
Definition Object_prototype_names : list string :=
  ["constructor"; "__proto__"; "hasOwnProperty"; "isPrototypeOf";
   "propertyIsEnumerable"; "toLocaleString"; "toString"; "valueOf";
   "__defineGetter__"; "__defineSetter__"; "__lookupGetter__"; "__lookupSetter__"].

Definition own_name (k : string) : bool :=
  negb (existsb (String.eqb k) Object_prototype_names).

(** No key a context contributes is inherited by the empty object. *)
Definition own_names (ctx : FileContext) : bool :=
  own_name (ctx_tableName ctx) && own_name (ctx_sys_id ctx) &&
  own_name (ctx_targetField ctx).

(** The tree holds a record of that table with that identifier. *)
Definition has_rec (tree : AppFileContextTree) (table sysId : string) : bool :=
  match obj_get tree table with
  | Some tableTree => bool_decide (is_Some (obj_get tableTree sysId))
  | None => false
  end.

Definition is_transform (ev : Event) : bool :=
  match ev with EvGetFinalFileContents _ => true | _ => false end.

Definition is_update (ev : Event) : bool :=
  match ev with EvUpdateRecord _ _ _ => true | _ => false end.

(** One transform per field context of the tree. *)
Definition transforms (tree : AppFileContextTree) : list Event :=
  concat
    (map (fun kv =>
            concat (map (fun rv => map (fun fc => EvGetFinalFileContents (snd fc))
                                       (snd rv))
                        (snd kv)))
         tree).

Section PushCallsVocabulary.
Context {CM : ConfigManager} {SV : Services}.

(** The calls one record gives rise to, the observer apart: a transform
    per field context and, when the record has a field and all its
    transforms succeed, the retried update with the built fields (one
    event for the whole [retryOnErr], however many requests it sends). *)
Definition record_update (table recId : string) (recMap : RecordContextMap)
  : list Event :=
  match recMap with
  | [] => []
  | _ :: _ =>
      match fst (buildRec recMap) with
      | Ok fields => [EvUpdateRecord table recId fields]
      | Err _ => []
      end
  end.

Definition record_calls (table recId : string) (recMap : RecordContextMap)
  : list Event :=
  map (fun kv => EvGetFinalFileContents (snd kv)) recMap ++
  record_update table recId recMap.

Definition expected_calls (tree : AppFileContextTree) : list Event :=
  concat
    (map (fun kv =>
            concat (map (fun rv => record_calls (fst kv) (fst rv) (snd rv)) (snd kv)))
         tree).

End PushCallsVocabulary.

(** The character occurs in the string. *)
Fixpoint has_char (d : Ascii.ascii) (s : string) : bool :=
  match s with
  | EmptyString => false
  | String c rest => Ascii.eqb c d || has_char d rest
  end.

Section FileScanVocabulary.
Context {FU : FileUtils} {SC : Scanner}.

(** The contexts of the application files below a path, once its
    listing and the parse of every listed file have succeeded. *)
Definition contexts_below (path : string) : list FileContext :=
  match getPathsInPath path with
  | Ok filePaths =>
      omap (fun filePath =>
              match getFileContextFromPath filePath with
              | Ok maybe => maybe
              | Err _ => None
              end)
           filePaths
  | Err _ => []
  end.

(** The listing of the path and the parse of every file it lists
    succeed. *)
Definition scans_ok (path : string) : bool :=
  match getPathsInPath path with
  | Ok filePaths =>
      forallb (fun filePath => is_ok (getFileContextFromPath filePath)) filePaths
  | Err _ => false
  end.

End FileScanVocabulary.

(* ================================================================== *)
(** * A concrete project: collaborators and inputs of the examples *)
(* ================================================================== *)

Module Demo.

Definition join (prefix suffix : string) : string := prefix +:+ "/" +:+ suffix.

Definition quote : string := String (Ascii.ascii_of_nat 34) EmptyString.

(** A small JSON printer in the layout of [JSON.stringify(v, null, n)]
    (the names of the examples need no escaping). *)
#[warnings="-register-all"]
Inductive Json : Type :=
| JString (s : string)
| JArray (items : list Json)
| JObject (members : list (string * Json)).

Fixpoint pad (n : nat) : string :=
  match n with O => "" | S n => " " +:+ pad n end.

Fixpoint join_with (sep : string) (parts : list string) : string :=
  match parts with
  | [] => ""
  | [p] => p
  | p :: rest => p +:+ sep +:+ join_with sep rest
  end.

Fixpoint print (indent depth : nat) (j : Json) : string :=
  let inner := pad (indent * S depth) in
  let close := newline +:+ pad (indent * depth) in
  match j with
  | JString s => quote +:+ s +:+ quote
  | JArray [] => "[]"
  | JArray items =>
      "[" +:+ newline +:+
      join_with ("," +:+ newline)
        (map (fun item => inner +:+ print indent (S depth) item) items) +:+
      close +:+ "]"
  | JObject [] => "{}"
  | JObject members =>
      "{" +:+ newline +:+
      join_with ("," +:+ newline)
        (map (fun kv =>
                match kv with
                | (k, v) =>
                    inner +:+ quote +:+ k +:+ quote +:+ ": " +:+
                    print indent (S depth) v
                end)
             members) +:+
      close +:+ "}"
  end.

Definition file_json (file : File) : Json :=
  JObject ([("name", JString (file_name file)); ("type", JString (file_type file))]
           ++ match file_content file with
              | Some content => [("content", JString content)]
              | None => []
              end).

Definition manifest_json (manifest : AppManifest) : Json :=
  JObject
    [("scope", JString (man_scope manifest));
     ("tables",
      JObject
        (map (fun kv =>
                (fst kv,
                 JObject
                   [("records",
                     JObject
                       (map (fun kr =>
                               (fst kr,
                                JObject
                                  [("sys_id", JString (rec_sys_id (snd kr)));
                                   ("name", JString (rec_name (snd kr)));
                                   ("files",
                                    JArray (map file_json (rec_files (snd kr))))]))
                            (tbl_records (snd kv))))]))
             (man_tables manifest)))].

Definition runtime : Runtime :=
  {| path_join := join;
     JSON_stringify := fun manifest indent => print indent 0 (manifest_json manifest) |}.

(** The local tree: one table directory, one record directory, one file. *)
Definition disk : list string :=
  ["src"; "src/sys_ui_page"; "src/sys_ui_page/Home";
   "src/sys_ui_page/Home/page.html"].

Definition on_disk (path : string) : bool := existsb (String.eqb path) disk.

(** Writing a file named [locked] is refused. *)
Definition files : FileUtils :=
  {| writeSNFile := fun _ file _ =>
       if String.eqb (file_name file) "locked"
       then Err {| err_message := "EACCES: permission denied" |}
       else Ok tt;
     createDirRecursively := fun _ => Ok tt;
     writeFileForce := fun _ _ => Ok tt;
     pathExists := on_disk;
     SNFileExists := fun recPath file =>
       on_disk (join recPath (file_name file +:+ "." +:+ file_type file));
     appendToPath := join |}.

(** The same helpers on any local tree, given by the paths that exist;
    every write succeeds. *)
Definition files_on (paths : list string) : FileUtils :=
  {| writeSNFile := fun _ _ _ => Ok tt;
     createDirRecursively := fun _ => Ok tt;
     writeFileForce := fun _ _ => Ok tt;
     pathExists := fun path => existsb (String.eqb path) paths;
     SNFileExists := fun recPath file =>
       existsb (String.eqb (join recPath (file_name file +:+ "." +:+ file_type file)))
               paths;
     appendToPath := join |}.

(** The directory with the directories above it, outermost first. *)
Fixpoint dirs_below (parent : string) (names : list string) : list string :=
  match names with
  | [] => []
  | name :: rest =>
      let dir := if String.eqb parent "" then name else join parent name in
      dir :: dirs_below dir rest
  end.

Definition dirs_to (path : string) : list string := dirs_below "" (split path "/").

(** The paths a call of the writer brings into being. *)
Definition written_by (ev : Event) : list string :=
  match ev with
  | EvCreateDir path => dirs_to path
  | EvWriteSNFile _ file recPath =>
      [join recPath (file_name file +:+ "." +:+ file_type file)]
  | EvWriteFileForce path _ => [path]
  | _ => []
  end.

(** The local tree after the calls of [trace], all of them successful. *)
Definition disk_after (trace : list Event) (paths : list string) : list string :=
  fold_left (fun paths ev => paths ++ written_by ev) trace paths.

Definition script : File :=
  {| file_name := "script"; file_type := "js"; file_content := Some "gs.info(1)" |}.
Definition page : File :=
  {| file_name := "page"; file_type := "html"; file_content := Some "<p/>" |}.
Definition style : File :=
  {| file_name := "style"; file_type := "css"; file_content := Some "p {}" |}.
Definition locked : File :=
  {| file_name := "locked"; file_type := "js"; file_content := Some "var x" |}.

Definition validate : MetaRecord :=
  {| rec_sys_id := "abc"; rec_name := "Validate"; rec_files := [script] |}.

Definition sys_script : TableConfig :=
  {| tbl_records := [("Validate", validate)] |}.

Definition manifest : AppManifest :=
  {| man_scope := "x_app";
     man_tables :=
       [("sys_script", sys_script);
        ("sys_ui_page",
         {| tbl_records :=
              [("Home",
                {| rec_sys_id := "def"; rec_name := "Home";
                   rec_files := [page; style] |})] |})] |}.

(** The record [validate] filed under its identifier, not its name. *)
Definition manifest_keyed_by_id : AppManifest :=
  {| man_scope := "x_app";
     man_tables := [("sys_script", {| tbl_records := [("abc", validate)] |})] |}.

(** A manifest whose second record cannot be written. *)
Definition manifest_locked : AppManifest :=
  {| man_scope := "x_app";
     man_tables :=
       [("sys_script",
         {| tbl_records :=
              [("Validate",
                {| rec_sys_id := "abc"; rec_name := "Validate";
                   rec_files := [script] |});
               ("Secret",
                {| rec_sys_id := "xyz"; rec_name := "Secret";
                   rec_files := [locked] |})] |})] |}.

(** [manifest_locked] as a failed [processManifest] leaves it in memory. *)
Definition manifest_locked_left : AppManifest :=
  {| man_scope := "x_app";
     man_tables :=
       [("sys_script",
         {| tbl_records :=
              [("Validate",
                {| rec_sys_id := "abc"; rec_name := "Validate";
                   rec_files :=
                     [{| file_name := "script"; file_type := "js";
                         file_content := None |}] |});
               ("Secret",
                {| rec_sys_id := "xyz"; rec_name := "Secret";
                   rec_files := [locked] |})] |})] |}.

(** A manifest whose only record declares no file; its table directory
    is not on [disk]. *)
Definition manifest_no_files : AppManifest :=
  {| man_scope := "x_app";
     man_tables :=
       [("sys_script",
         {| tbl_records :=
              [("Validate",
                {| rec_sys_id := "abc"; rec_name := "Validate";
                   rec_files := [] |})] |})] |}.

(** A manifest all of whose files are on [disk]. *)
Definition manifest_present : AppManifest :=
  {| man_scope := "x_app";
     man_tables :=
       [("sys_ui_page",
         {| tbl_records :=
              [("Home",
                {| rec_sys_id := "def"; rec_name := "Home";
                   rec_files := [page] |})] |})] |}.

Definition config : ConfigManager :=
  {| getSourcePath := "src";
     getManifestPath := "sinc.manifest.json";
     getManifest := Some manifest;
     getLogLevel := "info" |}.

Definition config_first_run : ConfigManager :=
  {| getSourcePath := "src";
     getManifestPath := "sinc.manifest.json";
     getManifest := None;
     getLogLevel := "info" |}.

(** The remote answers with the content of every file asked for; a
    context without content does not build; the record [locked] rejects
    every update. *)
Definition services : Services :=
  {| getMissingFiles := fun missing =>
       Ok (map (fun kv =>
                  (fst kv,
                   {| tbl_records :=
                        map (fun kr =>
                               (fst kr,
                                {| rec_sys_id := fst kr;
                                   rec_name := fst kr;
                                   rec_files :=
                                     map (fun entry =>
                                            {| file_name := mf_name entry;
                                               file_type := mf_type entry;
                                               file_content := Some "from remote" |})
                                         (snd kr) |}))
                            (snd kv) |}))
               missing);
     getFinalFileContents := fun ctx =>
       if String.eqb (ctx_content ctx) ""
       then Err {| err_message := "nothing to build" |}
       else Ok (ctx_content ctx);
     Response := nat;
     retryOnErr_updateRecord := fun _ sysId _ =>
       if String.eqb sysId "locked" then Err {| err_message := "" |} else Ok 200;
     processPushResponse := fun _ recSummary =>
       Ok {| success := true; message := recSummary +:+ " pushed" |} |}.

Definition ctx (table sysId field content : string) : FileContext :=
  {| ctx_tableName := table; ctx_sys_id := sysId; ctx_targetField := field;
     ctx_name := ""; ctx_content := content |}.

Definition contexts : list FileContext :=
  [ctx "sys_script" "abc" "script" "gs.info(1)";
   ctx "sys_ui_page" "def" "html" "<p/>";
   ctx "sys_script" "locked" "script" "var x";
   ctx "sys_ui_page" "def" "css" "p {}"].

(** Two contexts for the same field of the same record. *)
Definition clash : list FileContext :=
  [ctx "sys_script" "abc" "script" "first"; ctx "sys_script" "abc" "script" "second"].

(** Contexts of records some of whose identifiers are array indices. *)
Definition numbered : list FileContext :=
  [ctx "sys_script" "10" "script" "var a";
   ctx "sys_ui_page" "def" "html" "<p/>";
   ctx "sys_script" "abc" "script" "var b";
   ctx "sys_script" "9" "script" "var c";
   ctx "sys_script" "9" "active" "true"].

(** One record whose only field does not build. *)
Definition tree_unbuilt : AppFileContextTree :=
  [("sys_script", [("abc", [("script", ctx "sys_script" "abc" "script" "")])])].

(** A record without any field context. *)
Definition tree_hollow : AppFileContextTree := [("sys_script", [("abc", [])])].

(** A record whose first field builds and whose second does not. *)
Definition rec_second_fails : RecordContextMap :=
  [("html", ctx "sys_ui_page" "def" "html" "<p/>");
   ("css", ctx "sys_ui_page" "def" "css" "")].

(** The remote instance: its active scope, the user's scope preference
    record (empty when there is none), its update sets, what it answers
    as [sys_id] of the user's update-set preference (the identifier of
    the record, the empty string, or no such field at all) and the
    user's current update set. *)
Record Remote := {
  active_scope : string;
  app_pref : string;
  update_sets : list UpdateSet;
  update_set_pref : option string;
  current_update_set : string
}.

Definition scope_id (name : string) : string := "id:" +:+ name.
Definition scope_of_id (id : string) : string :=
  String.substring 3 (String.length id - 3) id.

Definition set_scope (scopeId prefId : string) (s : Remote) : Remote :=
  {| active_scope := scope_of_id scopeId; app_pref := prefId;
     update_sets := update_sets s; update_set_pref := update_set_pref s;
     current_update_set := current_update_set s |}.

Definition set_update_set (updateSetId : string) (prefId : option string)
    (s : Remote) : Remote :=
  {| active_scope := active_scope s; app_pref := app_pref s;
     update_sets := update_sets s; update_set_pref := prefId;
     current_update_set := updateSetId |}.

Definition client : SNClient Remote :=
  {| getScopeId := fun name _ => Ok (scope_id name);
     getCurrentScope := fun s => Ok {| scope := active_scope s |};
     getUserSysId := fun _ => Ok "user1";
     getCurrentAppUserPrefSysId := fun _ s => Ok (app_pref s);
     updateCurrentAppUserPref := fun scopeId prefId s =>
       (Ok tt, set_scope scopeId prefId s);
     createCurrentAppUserPref := fun scopeId _ s =>
       (Ok tt, set_scope scopeId "pref1" s);
     createUpdateSet := fun name s =>
       let id := "us" +:+ pretty (length (update_sets s)) in
       (Ok id,
        {| active_scope := active_scope s; app_pref := app_pref s;
           update_sets := update_sets s ++ [{| us_name := name; us_id := id |}];
           update_set_pref := update_set_pref s;
           current_update_set := current_update_set s |});
     getCurrentUpdateSetUserPref := fun _ s => Ok (update_set_pref s);
     updateCurrentUpdateSetUserPref := fun updateSetId prefId s =>
       (Ok tt, set_update_set updateSetId prefId s);
     createCurrentUpdateSetUserPref := fun updateSetId _ s =>
       (Ok tt, set_update_set updateSetId (Some "uspref1") s) |}.

Definition remote : Remote :=
  {| active_scope := "global"; app_pref := ""; update_sets := [];
     update_set_pref := Some ""; current_update_set := "" |}.

(** [remote] after the swap to the scope of [manifest]. *)
Definition remote_swapped : Remote :=
  {| active_scope := "x_app"; app_pref := "pref1"; update_sets := [];
     update_set_pref := Some ""; current_update_set := "" |}.

Definition remote_in_scope : Remote :=
  {| active_scope := "x_app"; app_pref := "pref1"; update_sets := [];
     update_set_pref := Some ""; current_update_set := "" |}.




(** The same project at another log level. *)
Definition config_debug : ConfigManager :=
  {| getSourcePath := "src";
     getManifestPath := "sinc.manifest.json";
     getManifest := Some manifest;
     getLogLevel := "debug" |}.

(** A tree one of whose records has no field context. *)
Definition tree_partly_hollow : AppFileContextTree :=
  [("sys_script", [("abc", [("script", ctx "sys_script" "abc" "script" "gs.info(1)")])]);
   ("sys_ui_page", [("def", [])])].

(** The character [:]. *)
Definition colon : Ascii.ascii := Ascii.ascii_of_nat 58.

(** Below the page directory lie the page of [Home] and a file that is
    not an application file; other directories list nothing. *)
Definition scanner : Scanner :=
  {| PATH_DELIMITER := ":";
     getPathsInPath := fun path =>
       if String.eqb path "src/sys_ui_page"
       then Ok ["src/sys_ui_page/Home/page.html"; "src/sys_ui_page/Home/notes.txt"]
       else Ok [];
     getFileContextFromPath := fun filePath =>
       if String.eqb filePath "src/sys_ui_page/Home/page.html"
       then Ok (Some (ctx "sys_ui_page" "def" "html" "<p/>"))
       else Ok None |}.

(** What the scan of the page directory finds. *)
Definition tree_scanned : AppFileContextTree :=
  [("sys_ui_page", [("def", [("html", ctx "sys_ui_page" "def" "html" "<p/>")])])].

End Demo.

(* ================================================================== *)
(** * Properties *)
(* ================================================================== *)

(** ** Settled promises *)

Lemma all_ok_is_ok {A} (rs : list (Result A)) :
  is_ok (all_ok rs) = forallb is_ok rs.
Proof.
  induction rs as [|[a|e] rs IH]; simpl; auto.
  rewrite <- IH. destruct (all_ok rs); reflexivity.
Qed.

Lemma is_ok_void {A} (r : Result A) : is_ok (void r) = is_ok r.
Proof. destruct r; reflexivity. Qed.

Lemma forallb_map {A B} (f : A -> B) (p : B -> bool) (l : list A) :
  forallb p (map f l) = forallb (fun a => p (f a)) l.
Proof. induction l; simpl; congruence. Qed.

Lemma forallb_ext_in {A} (p q : A -> bool) (l : list A) :
  (forall a, In a l -> p a = q a) -> forallb p l = forallb q l.
Proof.
  induction l as [|a l IH]; simpl; intros H; [reflexivity|].
  rewrite (H a), IH; auto.
Qed.

Lemma zip_map_fst_snd {A B C} (f : A -> B) (g : A -> C) (l : list A) :
  zip (map f l) (map g l) = map (fun a => (f a, g a)) l.
Proof. induction l; simpl; congruence. Qed.

(** ** Manifest model *)

Section ManifestProperties.
Context {FU : FileUtils} {RT : Runtime} {CM : ConfigManager}.

Lemma processFilesInManRec_trace recPath rec forceWrite :
  snd (processFilesInManRec recPath rec forceWrite) =
  map (fun file => EvWriteSNFile forceWrite file recPath) (rec_files rec).
Proof.
  unfold processFilesInManRec, Promise_all, bind, settled, ret, fileWrite, call.
  cbn [fst snd]. rewrite !map_map. cbn [fst snd].
  destruct (all_ok _); cbn [fst snd]; rewrite !app_nil_r;
    induction (rec_files rec); simpl; congruence.
Qed.

Lemma processFilesInManRec_ok recPath rec forceWrite :
  is_ok (fst (fst (processFilesInManRec recPath rec forceWrite))) =
  writes_ok forceWrite recPath rec.
Proof.
  unfold processFilesInManRec, Promise_all, bind, settled, ret, fileWrite, call,
    writes_ok.
  cbn [fst snd]. rewrite map_map. cbn [fst].
  rewrite <- (forallb_map (fun file => writeSNFile forceWrite file recPath) is_ok).
  rewrite <- all_ok_is_ok. destruct (all_ok _); reflexivity.
Qed.

Lemma processFilesInManRec_memory recPath rec forceWrite :
  snd (fst (processFilesInManRec recPath rec forceWrite)) =
  if writes_ok forceWrite recPath rec then strip_rec rec else rec.
Proof.
  rewrite <- processFilesInManRec_ok.
  unfold processFilesInManRec, Promise_all, bind, settled, ret.
  cbn [fst snd]. destruct (all_ok _); reflexivity.
Qed.

Lemma for_each_member_ok {V} (f : string -> V -> M (Result unit * V)) (o : obj V) :
  is_ok (fst (fst (for_each_member f o))) =
  forallb (fun kv => is_ok (fst (fst (f (fst kv) (snd kv))))) o.
Proof.
  unfold for_each_member, bind, settled, ret. cbn [fst snd].
  rewrite is_ok_void, all_ok_is_ok, !map_map, forallb_map. reflexivity.
Qed.

Lemma for_each_member_memory {V} (f : string -> V -> M (Result unit * V)) (o : obj V) :
  snd (fst (for_each_member f o)) =
  map (fun kv => (fst kv, snd (fst (f (fst kv) (snd kv))))) o.
Proof.
  unfold for_each_member, bind, settled, ret, obj_keys. cbn [fst snd].
  rewrite !map_map. apply zip_map_fst_snd.
Qed.

Lemma for_each_member_trace {V} (f : string -> V -> M (Result unit * V)) (o : obj V) :
  snd (for_each_member f o) = concat (map (fun kv => snd (f (fst kv) (snd kv))) o).
Proof.
  unfold for_each_member, bind, settled, ret. cbn [fst snd].
  rewrite app_nil_r, map_map. reflexivity.
Qed.

Lemma createDirs_ok tablePath table :
  is_ok (fst (Promise_all
    (map (fun kv => call (EvCreateDir (rec_dir tablePath (snd kv)))
                         (createDirRecursively (rec_dir tablePath (snd kv))))
         (tbl_records table)))) = dirs_ok tablePath table.
Proof.
  unfold Promise_all, bind, settled, ret, call, dirs_ok. cbn [fst snd].
  rewrite all_ok_is_ok, map_map, forallb_map. reflexivity.
Qed.

Lemma processRecsInManTable_ok tablePath table forceWrite :
  is_ok (fst (fst (processRecsInManTable tablePath table forceWrite))) =
  table_ok forceWrite tablePath table.
Proof.
  unfold table_ok. rewrite <- createDirs_ok.
  unfold processRecsInManTable, rec_dir in *.
  unfold bind at 1. cbn [fst snd].
  destruct (fst (Promise_all _)) eqn:E; cbn [is_ok andb].
  - unfold bind, ret. cbn [fst snd]. rewrite for_each_member_ok.
    apply forallb_ext_in. intros kv _. apply processFilesInManRec_ok.
  - reflexivity.
Qed.

Lemma processRecsInManTable_memory tablePath table forceWrite :
  snd (fst (processRecsInManTable tablePath table forceWrite)) =
  strip_written_table forceWrite tablePath table.
Proof.
  unfold strip_written_table. rewrite <- createDirs_ok.
  unfold processRecsInManTable, rec_dir in *.
  unfold bind at 1. cbn [fst snd].
  destruct (fst (Promise_all _)) eqn:E; cbn [is_ok].
  - unfold bind, ret. cbn [fst snd]. rewrite for_each_member_memory.
    f_equal. apply map_ext. intros kv.
    rewrite processFilesInManRec_memory. reflexivity.
  - reflexivity.
Qed.

Lemma processRecsInManTable_trace tablePath table forceWrite :
  snd (processRecsInManTable tablePath table forceWrite) =
  table_writes forceWrite tablePath table.
Proof.
  unfold table_writes. rewrite <- createDirs_ok.
  unfold processRecsInManTable, rec_dir in *.
  unfold bind at 1. cbn [fst snd].
  assert (Hdirs : snd (Promise_all
      (map (fun kv => call (EvCreateDir (rec_dir tablePath (snd kv)))
                           (createDirRecursively (rec_dir tablePath (snd kv))))
           (tbl_records table))) =
    map (fun kv => EvCreateDir (rec_dir tablePath (snd kv))) (tbl_records table)).
  { unfold Promise_all, bind, settled, ret, call, rec_dir. cbn [fst snd].
    rewrite app_nil_r, map_map. cbn [snd].
    induction (tbl_records table); simpl; congruence. }
  unfold rec_dir in Hdirs. rewrite Hdirs. f_equal.
  destruct (fst (Promise_all _)) eqn:E; cbn [is_ok]; [|reflexivity].
  unfold bind, ret. cbn [fst snd]. rewrite app_nil_r, for_each_member_trace.
  f_equal. apply map_ext. intros kv. apply processFilesInManRec_trace.
Qed.

Lemma processTablesInManifest_ok tables forceWrite :
  is_ok (fst (fst (processTablesInManifest tables forceWrite))) =
  all_written tables forceWrite.
Proof.
  unfold processTablesInManifest, all_written, TableMap in *.
  rewrite for_each_member_ok.
  apply forallb_ext_in. intros kv _. apply processRecsInManTable_ok.
Qed.

Lemma processTablesInManifest_memory tables forceWrite :
  snd (fst (processTablesInManifest tables forceWrite)) =
  strip_written tables forceWrite.
Proof.
  unfold processTablesInManifest, strip_written, TableMap in *.
  rewrite for_each_member_memory.
  apply map_ext. intros kv. rewrite processRecsInManTable_memory. reflexivity.
Qed.

Lemma processTablesInManifest_trace tables forceWrite :
  snd (processTablesInManifest tables forceWrite) = tables_writes tables forceWrite.
Proof.
  unfold processTablesInManifest, tables_writes, TableMap in *.
  rewrite for_each_member_trace.
  f_equal. apply map_ext. intros kv. apply processRecsInManTable_trace.
Qed.

(** Once everything is written, every record has been stripped. *)
Lemma strip_written_all tables forceWrite :
  all_written tables forceWrite = true ->
  strip_written tables forceWrite = strip_tables tables.
Proof.
  unfold all_written, strip_written, strip_tables. intros H.
  apply map_ext_in. intros [tableName table] Hin.
  rewrite forallb_forall in H. specialize (H _ Hin). cbn [fst snd] in *.
  unfold table_ok in H. apply andb_true_iff in H as [Hd Hw].
  unfold strip_written_table. rewrite Hd. do 2 f_equal.
  apply map_ext_in. intros [recName rec] Hr.
  rewrite forallb_forall in Hw. specialize (Hw _ Hr). cbn [fst snd] in *.
  rewrite Hw. reflexivity.
Qed.

(** The table-write stage never touches the manifest file, and forces a
    write only when asked to. *)
Lemma tables_writes_no_persist tables forceWrite :
  forallb (fun ev => negb (is_persist ev)) (tables_writes tables forceWrite) = true.
Proof.
  apply forallb_forall. intros ev Hin.
  unfold tables_writes in Hin. apply in_concat in Hin as (l & Hl & Hev).
  apply in_map_iff in Hl as (kv & <- & _).
  unfold table_writes in Hev. apply in_app_or in Hev as [Hev|Hev].
  - apply in_map_iff in Hev as (kr & <- & _). reflexivity.
  - destruct (dirs_ok _ _); [|destruct Hev].
    apply in_concat in Hev as (l & Hl & Hev).
    apply in_map_iff in Hl as (kr & <- & _).
    apply in_map_iff in Hev as (file & <- & _). reflexivity.
Qed.

Lemma tables_writes_unforced tables :
  forallb (fun ev => negb (is_forced_write ev)) (tables_writes tables false) = true.
Proof.
  apply forallb_forall. intros ev Hin.
  unfold tables_writes in Hin. apply in_concat in Hin as (l & Hl & Hev).
  apply in_map_iff in Hl as (kv & <- & _).
  unfold table_writes in Hev. apply in_app_or in Hev as [Hev|Hev].
  - apply in_map_iff in Hev as (kr & <- & _). reflexivity.
  - destruct (dirs_ok _ _); [|destruct Hev].
    apply in_concat in Hev as (l & Hl & Hev).
    apply in_map_iff in Hl as (kr & <- & _).
    apply in_map_iff in Hev as (file & <- & _). reflexivity.
Qed.

(** One refused file write is enough for [all_written] to fail. *)
Lemma refused_write_not_all_written tables forceWrite tableName table recName rec file :
  In (tableName, table) tables ->
  In (recName, rec) (tbl_records table) ->
  In file (rec_files rec) ->
  is_ok (writeSNFile forceWrite file (rec_dir (table_dir tableName) rec)) = false ->
  all_written tables forceWrite = false.
Proof.
  intros Ht Hr Hf Hw. apply not_true_is_false. intros Hall.
  unfold all_written in Hall. rewrite forallb_forall in Hall.
  specialize (Hall _ Ht). cbn [fst snd] in Hall.
  unfold table_ok in Hall. apply andb_true_iff in Hall as [_ Hall].
  rewrite forallb_forall in Hall. specialize (Hall _ Hr). cbn [snd] in Hall.
  unfold writes_ok in Hall. rewrite forallb_forall in Hall.
  rewrite (Hall _ Hf) in Hw. discriminate.
Qed.

(** C2 (as amended). [processManifest] runs the table-write stage and
    then, only if every directory creation and every file write of every
    table and record succeeded, persists the manifest: the call that
    writes the manifest file is the last one, its content is the
    2-space-indented JSON of the tree with the content of every file
    removed, and the outcome is that of this write.  If any of them
    failed the operation fails and the manifest file is not written.  In
    memory, content is removed record by record, from each record whose
    own files were written, whatever happens to the others. *)
Theorem processManifest_persists_after_writes manifest forceWrite :
  let done := processManifest manifest forceWrite in
  let tables := man_tables manifest in
  snd done =
    tables_writes tables forceWrite ++
    (if all_written tables forceWrite then [persist (strip_manifest manifest)]
     else []) /\
  forallb (fun ev => negb (is_persist ev)) (tables_writes tables forceWrite) = true /\
  is_ok (fst (fst done)) =
    (all_written tables forceWrite &&
     is_ok (writeFileForce getManifestPath
              (JSON_stringify (strip_manifest manifest) 2))) /\
  snd (fst done) =
    {| man_scope := man_scope manifest;
       man_tables := strip_written tables forceWrite |}.
Proof.
  cbn zeta.
  pose proof (processTablesInManifest_ok (man_tables manifest) forceWrite) as Hok.
  pose proof (strip_written_all (man_tables manifest) forceWrite) as Hall.
  unfold processManifest, bind, call, ret, persist. cbn [fst snd].
  rewrite !processTablesInManifest_trace, !processTablesInManifest_memory.
  destruct (fst (fst (processTablesInManifest _ _))) eqn:E; cbn [is_ok] in Hok;
    rewrite <- Hok; cbn [andb fst snd is_ok].
  - assert (Hm : {| man_scope := man_scope manifest;
                    man_tables := strip_written (man_tables manifest) forceWrite |} =
                 strip_manifest manifest).
    { unfold strip_manifest. rewrite Hall by congruence. reflexivity. }
    rewrite app_nil_r, Hm.
    repeat split; auto using tables_writes_no_persist.
  - rewrite app_nil_r. repeat split; auto using tables_writes_no_persist.
Qed.

End ManifestProperties.

(** ** JavaScript objects *)

Lemma obj_get_set {V} (o : obj V) k v k' :
  obj_get (obj_set o k v) k' = if String.eqb k k' then Some v else obj_get o k'.
Proof.
  induction o as [|[k0 v0] o IH]; simpl.
  - reflexivity.
  - destruct (String.eqb k0 k) eqn:E0; simpl.
    + apply String.eqb_eq in E0. subst k0.
      destruct (String.eqb k k'); reflexivity.
    + rewrite IH. destruct (String.eqb k0 k') eqn:E1; [|reflexivity].
      apply String.eqb_eq in E1. subst k0.
      rewrite String.eqb_sym, E0. reflexivity.
Qed.

Lemma obj_get_alter {V} (f : V -> V) (o : obj V) k k' :
  obj_get (obj_alter f k o) k' =
  if String.eqb k k' then f <$> obj_get o k else obj_get o k'.
Proof.
  induction o as [|[k0 v0] o IH]; simpl.
  - destruct (String.eqb k k'); reflexivity.
  - destruct (String.eqb k0 k) eqn:E0; simpl.
    + apply String.eqb_eq in E0. subst k0.
      destruct (String.eqb k k'); reflexivity.
    + rewrite IH. destruct (String.eqb k0 k') eqn:E1; [|reflexivity].
      apply String.eqb_eq in E1. subst k0.
      rewrite String.eqb_sym, E0. reflexivity.
Qed.

Lemma obj_set_not_nil {V} (o : obj V) k v : obj_set o k v <> [].
Proof. destruct o as [|[k0 v0] o]; simpl; [|destruct (String.eqb k0 k)]; discriminate. Qed.

Lemma obj_alter_nil {V} (f : V -> V) k (o : obj V) : obj_alter f k o = [] <-> o = [].
Proof.
  destruct o as [|[k0 v0] o]; simpl; [tauto|].
  destruct (String.eqb k0 k); split; discriminate.
Qed.

Ltac obj_simpl :=
  repeat first
    [ rewrite obj_get_alter
    | rewrite obj_get_set
    | rewrite String.eqb_refl
    | match goal with H : obj_get _ _ = _ |- _ => rewrite H end
    | match goal with H : String.eqb _ _ = _ |- _ => rewrite H end
    | progress cbn [fmap option_fmap option_map obj_get default id] ].

(** ** Missing-file detector *)

Lemma markFileMissing_not_nil table recordId file missing :
  markFileMissing table recordId file missing <> [].
Proof.
  unfold markFileMissing. intros Hn.
  apply obj_alter_nil in Hn. apply obj_alter_nil in Hn.
  destruct (obj_get missing table) eqn:E.
  - subst missing. discriminate.
  - revert Hn. apply obj_set_not_nil.
Qed.

(** What is reported for a record after one more file is marked. *)
Lemma missing_of_markFileMissing table recordId file missing table' recordId' :
  missing_of (markFileMissing table recordId file missing) table' recordId' =
  if String.eqb table table' && String.eqb recordId recordId'
  then missing_of missing table recordId ++ [missing_entry file]
  else missing_of missing table' recordId'.
Proof.
  unfold markFileMissing, missing_of, missing_entry.
  destruct (String.eqb table table') eqn:Et; cbn [andb].
  - apply String.eqb_eq in Et. subst table'.
    destruct (obj_get missing table) as [ofTable|] eqn:Em; obj_simpl.
    + destruct (String.eqb recordId recordId') eqn:Er.
      * apply String.eqb_eq in Er. subst recordId'.
        destruct (obj_get ofTable recordId) as [entries|] eqn:Eo; obj_simpl;
          reflexivity.
      * destruct (obj_get ofTable recordId) as [entries|] eqn:Eo; obj_simpl;
          reflexivity.
    + destruct (String.eqb recordId recordId') eqn:Er; obj_simpl; reflexivity.
  - destruct (obj_get missing table) as [ofTable|] eqn:Em; obj_simpl; reflexivity.
Qed.

Lemma settled_calls {A B} (ev : A -> Event) (out : A -> B) (l : list A) :
  settled (map (fun a => call (ev a) (out a)) l) = (map out l, map ev l).
Proof.
  unfold settled, call. rewrite !map_map. cbn [fst snd]. f_equal.
  induction l; simpl; congruence.
Qed.

Lemma for_each_map {A B S} (g : A -> B) (f : B -> S -> M S) (l : list A) (s : S) :
  for_each f (map g l) s = for_each (fun a => f (g a)) l s.
Proof.
  revert s. induction l as [|a l IH]; intros s; simpl; [reflexivity|].
  unfold bind. rewrite IH. reflexivity.
Qed.

(** The calls of a loop whose steps issue calls that do not depend on
    the accumulator. *)
Lemma for_each_trace {A S} (f : A -> S -> M S) (tr : A -> list Event)
    (l : list A) (s : S) :
  (forall a s, In a l -> snd (f a s) = tr a) ->
  snd (for_each f l s) = concat (map tr l).
Proof.
  revert s. induction l as [|a l IH]; intros s H; simpl; [reflexivity|].
  unfold bind. cbn [fst snd]. rewrite H by (left; reflexivity).
  rewrite IH by (intros; apply H; right; assumption). reflexivity.
Qed.

(** An invariant of the accumulator that every step maintains. *)
Lemma for_each_invariant {A S} (f : A -> S -> M S) (P : S -> Prop)
    (l : list A) (s : S) :
  (forall a s, In a l -> P s -> P (fst (f a s))) ->
  P s -> P (fst (for_each f l s)).
Proof.
  revert s. induction l as [|a l IH]; intros s H Hs; simpl; [assumption|].
  unfold bind. cbn [fst snd]. apply IH.
  - intros; apply H; [right|]; assumption.
  - apply H; [left; reflexivity|assumption].
Qed.

(** The accumulator stays empty exactly when no step adds to it. *)
Lemma for_each_nil {A B} (f : A -> list B -> M (list B)) (quiet : A -> Prop)
    (l : list A) (s : list B) :
  (forall a s, In a l -> fst (f a s) = [] <-> s = [] /\ quiet a) ->
  fst (for_each f l s) = [] <-> s = [] /\ forall a, In a l -> quiet a.
Proof.
  revert s. induction l as [|a l IH]; intros s H; simpl.
  - split; [intros ->; split; [reflexivity|intros ? []]|intros [-> _]; reflexivity].
  - unfold bind. cbn [fst snd].
    rewrite IH by (intros; apply H; right; assumption).
    rewrite H by (left; reflexivity).
    split.
    + intros [[-> Ha] Hl]. split; [reflexivity|]. intros a' [<-|Hin]; auto.
    + intros [-> Hl]. repeat split; auto.
Qed.

Lemma fold_left_nil {A B} (f : list B -> A -> list B) (quiet : A -> Prop)
    (l : list A) (s : list B) :
  (forall a s, In a l -> f s a = [] <-> s = [] /\ quiet a) ->
  fold_left f l s = [] <-> s = [] /\ forall a, In a l -> quiet a.
Proof.
  revert s. induction l as [|a l IH]; intros s H; simpl.
  - split; [intros ->; split; [reflexivity|intros ? []]|intros [-> _]; reflexivity].
  - rewrite IH by (intros; apply H; right; assumption).
    rewrite H by (left; reflexivity).
    split.
    + intros [[-> Ha] Hl]. split; [reflexivity|]. intros a' [<-|Hin]; auto.
    + intros [-> Hl]. repeat split; auto.
Qed.

Lemma fold_left_invariant {A S} (f : S -> A -> S) (P : S -> Prop)
    (l : list A) (s : S) :
  (forall a s, In a l -> P s -> P (f s a)) -> P s -> P (fold_left f l s).
Proof.
  revert s. induction l as [|a l IH]; intros s H Hs; simpl; [assumption|].
  apply IH; [intros; apply H; [right|]; assumption|].
  apply H; [left; reflexivity|assumption].
Qed.

(** Something one step establishes and every step keeps. *)
Lemma for_each_establish {A S} (f : A -> S -> M S) (Q : S -> Prop)
    (l : list A) (a : A) (s : S) :
  In a l ->
  (forall s, Q (fst (f a s))) ->
  (forall a' s, In a' l -> Q s -> Q (fst (f a' s))) ->
  Q (fst (for_each f l s)).
Proof.
  revert s. induction l as [|a0 l IH]; intros s Hin Ha Hkeep; [destruct Hin|].
  simpl. unfold bind. cbn [fst snd]. destruct Hin as [->|Hin].
  - apply for_each_invariant; [|apply Ha].
    intros; apply Hkeep; [right|]; assumption.
  - apply IH; auto. intros; apply Hkeep; [right|]; assumption.
Qed.

Lemma fold_left_establish {A S} (f : S -> A -> S) (Q : S -> Prop)
    (l : list A) (a : A) (s : S) :
  In a l ->
  (forall s, Q (f s a)) ->
  (forall a' s, In a' l -> Q s -> Q (f s a')) ->
  Q (fold_left f l s).
Proof.
  revert s. induction l as [|a0 l IH]; intros s Hin Ha Hkeep; [destruct Hin|].
  simpl. destruct Hin as [->|Hin].
  - apply fold_left_invariant; [|apply Ha].
    intros; apply Hkeep; [right|]; assumption.
  - apply IH; auto. intros; apply Hkeep; [right|]; assumption.
Qed.

Lemma map_insert_same {A B} (f : A -> B) (l : list A) (i : nat) (x y : A) :
  l !! i = Some x -> f y = f x -> map f (<[i := y]> l) = map f l.
Proof.
  intros Hl Hf.
  change (f <$> <[i := y]> l = f <$> l).
  rewrite list_fmap_insert, Hf. apply list_insert_id.
  rewrite list_lookup_fmap, Hl. reflexivity.
Qed.

Section DetectorProperties.
Context {FU : FileUtils} {RT : Runtime} {CM : ConfigManager}.

Lemma checkFilesForMissing_eq recPath files missingFunc missing :
  checkFilesForMissing recPath files missingFunc missing =
  (fold_left
     (fun missing file =>
        if SNFileExists recPath file then missing else missingFunc file missing)
     files missing,
   map (fun file => EvSNFileExists recPath file) files).
Proof.
  unfold checkFilesForMissing, bind, ret.
  rewrite (settled_calls (EvSNFileExists recPath) (SNFileExists recPath)).
  cbn [fst snd]. rewrite app_nil_r. f_equal.
  revert missing. induction files as [|file files IH]; intros missing; simpl;
    [reflexivity|apply IH].
Qed.

Lemma zip_checks {A B C D} (f : A -> B) (g : A -> C) (h : A -> D) (l : list A) :
  zip (zip (map f l) (map g l)) (map h l) = map (fun a => (f a, g a, h a)) l.
Proof. induction l; simpl; congruence. Qed.

Lemma zip_checks_id {A B C} (f : A -> B) (g : A -> C) (l : list A) :
  zip (zip (map f l) (map g l)) l = map (fun a => (f a, g a, a)) l.
Proof. induction l; simpl; congruence. Qed.

Lemma checkRecordsForMissing_eq tablePath records missingFunc missing :
  checkRecordsForMissing tablePath records missingFunc missing =
  (fst (for_each (check_record tablePath missingFunc) records missing),
   map (fun kv => EvPathExists (appendToPath tablePath (fst kv))) records ++
   snd (for_each (check_record tablePath missingFunc) records missing)).
Proof.
  unfold checkRecordsForMissing, bind, obj_keys, obj_values.
  rewrite (settled_calls EvPathExists pathExists). cbn [fst snd].
  rewrite !map_map, zip_checks, for_each_map. reflexivity.
Qed.

Lemma checkTablesForMissing_eq topPath tables missingFunc missing :
  checkTablesForMissing topPath tables missingFunc missing =
  (fst (for_each (check_table topPath missingFunc) tables missing),
   map (fun kv => EvPathExists (appendToPath topPath (fst kv))) tables ++
   snd (for_each (check_table topPath missingFunc) tables missing)).
Proof.
  unfold checkTablesForMissing, bind, obj_keys.
  rewrite (settled_calls EvPathExists pathExists). cbn [fst snd].
  rewrite !map_map, zip_checks_id, for_each_map.
  assert (E : forall l m,
    for_each
      (fun a : string * TableConfig =>
         let '(check, tablePath, (tableName, table)) :=
           (pathExists (appendToPath topPath (fst a)), appendToPath topPath (fst a), a) in
         fun missing0 : MissingFileTableMap =>
           if check
           then checkRecordsForMissing tablePath (tbl_records table)
                  (missingFunc tableName) missing0
           else ret (markTableMissing table tableName missingFunc missing0)) l m =
    for_each (check_table topPath missingFunc) l m).
  { induction l as [|[tableName table] l IH]; intros m; simpl; [reflexivity|].
    unfold bind. rewrite !IH. reflexivity. }
  rewrite E. reflexivity.
Qed.

(** *** The probes issued *)

Lemma check_record_trace tablePath missingFunc kv missing :
  snd (check_record tablePath missingFunc kv missing) =
  if pathExists (appendToPath tablePath (fst kv))
  then map (fun file => EvSNFileExists (appendToPath tablePath (fst kv)) file)
           (rec_files (snd kv))
  else [].
Proof.
  unfold check_record. cbn zeta. destruct (pathExists _); [|reflexivity].
  rewrite checkFilesForMissing_eq. reflexivity.
Qed.

Lemma checkRecordsForMissing_trace tablePath records missingFunc missing :
  snd (checkRecordsForMissing tablePath records missingFunc missing) =
  record_probes tablePath records.
Proof.
  rewrite checkRecordsForMissing_eq. cbn [snd]. unfold record_probes. f_equal.
  apply for_each_trace. intros kv m _. apply check_record_trace.
Qed.

Lemma check_table_trace topPath missingFunc kv missing :
  snd (check_table topPath missingFunc kv missing) =
  if pathExists (appendToPath topPath (fst kv))
  then record_probes (appendToPath topPath (fst kv)) (tbl_records (snd kv))
  else [].
Proof.
  unfold check_table. cbn zeta. destruct (pathExists _); [|reflexivity].
  apply checkRecordsForMissing_trace.
Qed.

Lemma findMissingFiles_trace manifest :
  snd (findMissingFiles manifest) = detector_probes (man_tables manifest).
Proof.
  unfold findMissingFiles. rewrite checkTablesForMissing_eq. cbn [snd].
  unfold detector_probes. f_equal.
  apply for_each_trace. intros kv m _. apply check_table_trace.
Qed.

Lemma detector_probes_are_probes tables :
  forallb is_probe (detector_probes tables) = true.
Proof.
  apply forallb_forall. intros ev Hin. unfold detector_probes in Hin.
  apply in_app_or in Hin as [Hin|Hin].
  - apply in_map_iff in Hin as (kv & <- & _). reflexivity.
  - apply in_concat in Hin as (l & Hl & Hev).
    apply in_map_iff in Hl as (kv & <- & _). cbn zeta in Hev.
    destruct (pathExists _); [|destruct Hev].
    unfold record_probes in Hev. apply in_app_or in Hev as [Hev|Hev].
    + apply in_map_iff in Hev as (kr & <- & _). reflexivity.
    + apply in_concat in Hev as (l & Hl & Hev).
      apply in_map_iff in Hl as (kr & <- & _). cbn zeta in Hev.
      destruct (pathExists _); [|destruct Hev].
      apply in_map_iff in Hev as (file & <- & _). reflexivity.
Qed.

(** *** When nothing is reported *)

Lemma markRecordMissing_nil record table missing :
  markRecordMissing record (markFileMissing table) missing = [] <->
  missing = [] /\ forall file, In file (rec_files record) -> False.
Proof.
  unfold markRecordMissing. apply fold_left_nil. intros file m _.
  split; [intros Hn; exfalso; revert Hn; apply markFileMissing_not_nil|tauto].
Qed.

Lemma checkFilesForMissing_nil recPath files table recordId missing :
  fst (checkFilesForMissing recPath files (markFileMissing table recordId) missing) = [] <->
  missing = [] /\ forall file, In file files -> SNFileExists recPath file = true.
Proof.
  rewrite checkFilesForMissing_eq. cbn [fst]. apply fold_left_nil. intros file m _.
  destruct (SNFileExists recPath file).
  - tauto.
  - split; [intros Hn; exfalso; revert Hn; apply markFileMissing_not_nil|].
    intros [_ Hf]; discriminate.
Qed.

Lemma check_record_nil tablePath table kv missing :
  fst (check_record tablePath (markFileMissing table) kv missing) = [] <->
  missing = [] /\
  forall file, In file (rec_files (snd kv)) ->
    pathExists (appendToPath tablePath (fst kv)) = true /\
    SNFileExists (appendToPath tablePath (fst kv)) file = true.
Proof.
  unfold check_record. cbn zeta. destruct (pathExists _) eqn:E.
  - rewrite checkFilesForMissing_nil. split; intros [-> Hf]; split; auto.
    intros file Hin. apply Hf, Hin.
  - cbn [fst ret]. rewrite markRecordMissing_nil.
    split; intros [-> Hf]; split; auto.
    + intros file Hin. destruct (Hf file Hin).
    + intros file Hin. destruct (Hf file Hin) as [Hd _]. discriminate.
Qed.

Lemma checkRecordsForMissing_nil tablePath records table missing :
  fst (checkRecordsForMissing tablePath records (markFileMissing table) missing) = [] <->
  missing = [] /\
  forall kv, In kv records -> forall file, In file (rec_files (snd kv)) ->
    pathExists (appendToPath tablePath (fst kv)) = true /\
    SNFileExists (appendToPath tablePath (fst kv)) file = true.
Proof.
  rewrite checkRecordsForMissing_eq. cbn [fst].
  apply (for_each_nil _ (fun kv => forall file, In file (rec_files (snd kv)) ->
    pathExists (appendToPath tablePath (fst kv)) = true /\
    SNFileExists (appendToPath tablePath (fst kv)) file = true)).
  intros kv m _. apply check_record_nil.
Qed.

Lemma markTableMissing_nil table tableName missing :
  markTableMissing table tableName markFileMissing missing = [] <->
  missing = [] /\
  forall kv, In kv (tbl_records table) ->
    forall file, In file (rec_files (snd kv)) -> False.
Proof.
  unfold markTableMissing.
  apply (fold_left_nil _ (fun kv : string * MetaRecord =>
    forall file, In file (rec_files (snd kv)) -> False)).
  intros kv m _. apply markRecordMissing_nil.
Qed.

Lemma check_table_nil kv missing :
  fst (check_table getSourcePath markFileMissing kv missing) = [] <->
  missing = [] /\
  forall kr, In kr (tbl_records (snd kv)) ->
    forall file, In file (rec_files (snd kr)) ->
      file_present (fst kv) (fst kr) file = true.
Proof.
  unfold check_table, file_present. cbn zeta. destruct (pathExists _) eqn:E.
  - rewrite checkRecordsForMissing_nil. cbn [andb].
    split; intros [-> Hf]; split; auto; intros kr Hr file Hin.
    + destruct (Hf kr Hr file Hin) as [-> ->]. reflexivity.
    + specialize (Hf kr Hr file Hin). apply andb_true_iff in Hf. exact Hf.
  - cbn [fst ret andb]. rewrite markTableMissing_nil.
    split; intros [-> Hf]; split; auto; intros kr Hr file Hin.
    + destruct (Hf kr Hr file Hin).
    + specialize (Hf kr Hr file Hin). discriminate.
Qed.

(** On a file system in which whatever exists lies in a directory that
    exists, the local tree holds every declared file as soon as every
    declared file exists. *)
Lemma all_present_when_files_exist manifest :
  (forall path name, pathExists (appendToPath path name) = true ->
                     pathExists path = true) ->
  (forall recPath file, SNFileExists recPath file = true ->
                        pathExists recPath = true) ->
  (forall tableName table recName record file,
     In (tableName, table) (man_tables manifest) ->
     In (recName, record) (tbl_records table) ->
     In file (rec_files record) ->
     SNFileExists (appendToPath (appendToPath getSourcePath tableName) recName) file
     = true) ->
  all_present manifest.
Proof.
  intros Hdir Hfile Hall tableName table recName record file Ht Hr Hf.
  specialize (Hall _ _ _ _ _ Ht Hr Hf). unfold file_present. cbn zeta.
  pose proof (Hfile _ _ Hall) as Hrec. pose proof (Hdir _ _ Hrec) as Htbl.
  rewrite Htbl, Hrec, Hall. reflexivity.
Qed.

(** [findMissingFiles] returns the empty map exactly when the detector
    finds every file the manifest declares, each in the directory named
    by the key of its record. *)
Lemma findMissingFiles_empty_iff_all_present manifest :
  fst (findMissingFiles manifest) = [] <-> all_present manifest.
Proof.
  unfold findMissingFiles. rewrite checkTablesForMissing_eq. cbn [fst].
  etransitivity.
  { apply (for_each_nil _ (fun kv : string * TableConfig =>
      forall kr, In kr (tbl_records (snd kv)) ->
        forall file, In file (rec_files (snd kr)) ->
          file_present (fst kv) (fst kr) file = true)).
    intros kv m _. apply check_table_nil. }
  unfold all_present. split.
  - intros [_ H] tableName table recName record file Ht Hr Hf.
    exact (H (tableName, table) Ht (recName, record) Hr file Hf).
  - intros H. split; [reflexivity|].
    intros [tableName table] Ht [recName record] Hr file Hf.
    exact (H tableName table recName record file Ht Hr Hf).
Qed.

(** When every record is filed under its name, and the detector joins
    paths as the writer does, the detector looks where the writer
    writes: the map is empty exactly when every declared file is on
    disk at the path it is written to. *)
Lemma findMissingFiles_empty_when_keyed_by_name manifest :
  keyed_by_name manifest = true ->
  (forall prefix suffix, appendToPath prefix suffix = path_join prefix suffix) ->
  fst (findMissingFiles manifest) = [] <-> all_where_written manifest = true.
Proof.
  intros Hkeyed Hjoin. rewrite findMissingFiles_empty_iff_all_present.
  unfold keyed_by_name in Hkeyed. rewrite forallb_forall in Hkeyed.
  assert (Hname : forall tableName table recName record,
            In (tableName, table) (man_tables manifest) ->
            In (recName, record) (tbl_records table) ->
            recName = rec_name record).
  { intros tableName table recName record Ht Hr.
    specialize (Hkeyed _ Ht). cbn [snd] in Hkeyed.
    rewrite forallb_forall in Hkeyed. specialize (Hkeyed _ Hr).
    apply String.eqb_eq in Hkeyed. exact Hkeyed. }
  assert (Hsame : forall tableName table recName record file,
            In (tableName, table) (man_tables manifest) ->
            In (recName, record) (tbl_records table) ->
            file_present tableName recName file =
            file_where_written tableName record file).
  { intros tableName table recName record file Ht Hr.
    unfold file_present, file_where_written, rec_dir, table_dir.
    rewrite (Hname _ _ _ _ Ht Hr), !Hjoin. reflexivity. }
  unfold all_present, all_where_written. split.
  - intros H. apply forallb_forall. intros [tableName table] Ht.
    apply forallb_forall. intros [recName record] Hr.
    apply forallb_forall. intros file Hf. cbn [fst snd] in *.
    rewrite <- (Hsame _ _ _ _ file Ht Hr). exact (H _ _ _ _ _ Ht Hr Hf).
  - intros H tableName table recName record file Ht Hr Hf.
    rewrite forallb_forall in H. specialize (H _ Ht). cbn [fst snd] in H.
    rewrite forallb_forall in H. specialize (H _ Hr). cbn [fst snd] in H.
    rewrite forallb_forall in H. rewrite (Hsame _ _ _ _ file Ht Hr).
    exact (H file Hf).
Qed.

(** *** What is reported *)

Lemma markFileMissing_keeps table recordId entry table' recordId' file missing :
  reported table recordId entry missing ->
  reported table recordId entry (markFileMissing table' recordId' file missing).
Proof.
  unfold reported. rewrite missing_of_markFileMissing.
  destruct (String.eqb table' table && String.eqb recordId' recordId) eqn:E; auto.
  apply andb_true_iff in E as [Et Er].
  apply String.eqb_eq in Et, Er. subst. intros H. apply in_or_app. auto.
Qed.

Lemma markFileMissing_reports table recordId file missing :
  reported table recordId (missing_entry file)
           (markFileMissing table recordId file missing).
Proof.
  unfold reported. rewrite missing_of_markFileMissing, !String.eqb_refl.
  cbn [andb]. apply in_or_app. right. left. reflexivity.
Qed.

Lemma markRecordMissing_keeps table recordId entry record table' missing :
  reported table recordId entry missing ->
  reported table recordId entry
           (markRecordMissing record (markFileMissing table') missing).
Proof.
  unfold markRecordMissing. apply fold_left_invariant.
  intros file m _. apply markFileMissing_keeps.
Qed.

Lemma markRecordMissing_reports table record file missing :
  In file (rec_files record) ->
  reported table (rec_sys_id record) (missing_entry file)
           (markRecordMissing record (markFileMissing table) missing).
Proof.
  intros Hin. unfold markRecordMissing.
  apply (fold_left_establish _ _ _ file); auto.
  - intros m. apply markFileMissing_reports.
  - intros file' m _. apply markFileMissing_keeps.
Qed.

Lemma markTableMissing_keeps table recordId entry tbl table' missing :
  reported table recordId entry missing ->
  reported table recordId entry (markTableMissing tbl table' markFileMissing missing).
Proof.
  unfold markTableMissing. apply fold_left_invariant.
  intros kv m _. apply markRecordMissing_keeps.
Qed.

Lemma markTableMissing_reports tableName table recName record file missing :
  In (recName, record) (tbl_records table) ->
  In file (rec_files record) ->
  reported tableName (rec_sys_id record) (missing_entry file)
           (markTableMissing table tableName markFileMissing missing).
Proof.
  intros Hr Hf. unfold markTableMissing.
  apply (fold_left_establish _ _ _ (recName, record)); auto.
  - intros m. apply markRecordMissing_reports, Hf.
  - intros kv m _. apply markRecordMissing_keeps.
Qed.

Lemma checkRecordsForMissing_keeps table recordId entry tablePath records table' missing :
  reported table recordId entry missing ->
  reported table recordId entry
    (fst (checkRecordsForMissing tablePath records (markFileMissing table') missing)).
Proof.
  rewrite checkRecordsForMissing_eq. cbn [fst]. apply for_each_invariant.
  intros kv m _. unfold check_record. cbn zeta. destruct (pathExists _).
  - rewrite checkFilesForMissing_eq. cbn [fst]. apply fold_left_invariant.
    intros file m' _. destruct (SNFileExists _ _); auto using markFileMissing_keeps.
  - apply markRecordMissing_keeps.
Qed.

Lemma check_table_keeps table recordId entry topPath kv missing :
  reported table recordId entry missing ->
  reported table recordId entry (fst (check_table topPath markFileMissing kv missing)).
Proof.
  unfold check_table. cbn zeta. destruct (pathExists _).
  - apply checkRecordsForMissing_keeps.
  - apply markTableMissing_keeps.
Qed.

(** C6. When the directory of a table of the manifest is absent,
    [findMissingFiles] reports every record of that table as missing,
    that is, every file of every record under the record's [sys_id]; the
    callback that handles the table issues no probe at all, and the
    probes of the whole run are those of the manifest in which that table
    has no records: none is issued for a record directory or a file of
    that table. *)
Theorem absent_table_reported_without_probes manifest i tableName table :
  man_tables manifest !! i = Some (tableName, table) ->
  pathExists (appendToPath getSourcePath tableName) = false ->
  (forall recName record file,
     In (recName, record) (tbl_records table) ->
     In file (rec_files record) ->
     In (missing_entry file)
        (missing_of (fst (findMissingFiles manifest)) tableName (rec_sys_id record))) /\
  (forall missing,
     snd (check_table getSourcePath markFileMissing (tableName, table) missing) = []) /\
  snd (findMissingFiles manifest) =
  snd (findMissingFiles (without_records i manifest)).
Proof.
  intros Hi Habsent. split; [|split].
  2:{ intros missing. rewrite check_table_trace. cbn [fst]. rewrite Habsent.
      reflexivity. }
  - intros recName record file Hr Hf.
    unfold findMissingFiles. rewrite checkTablesForMissing_eq. cbn [fst].
    apply (for_each_establish _
             (reported tableName (rec_sys_id record) (missing_entry file))
             _ (tableName, table)).
    + apply list_elem_of_In. eapply list_elem_of_lookup_2, Hi.
    + intros m. unfold check_table. cbn [fst snd]. rewrite Habsent.
      cbn [fst ret]. eapply markTableMissing_reports; eassumption.
    + intros kv m _. apply check_table_keeps.
  - rewrite !findMissingFiles_trace. unfold without_records. cbn [man_tables].
    rewrite Hi. unfold detector_probes. f_equal; [|f_equal].
    + symmetry. eapply map_insert_same; [exact Hi|reflexivity].
    + symmetry. eapply map_insert_same; [exact Hi|].
      cbn [fst snd]. rewrite Habsent. reflexivity.
Qed.

End DetectorProperties.

(** ** File tree builder *)

Lemma eqb_decide (k k' : string) :
  String.eqb k k' = bool_decide (k = k').
Proof.
  destruct (String.eqb_spec k k').
  - rewrite bool_decide_eq_true_2; auto.
  - rewrite bool_decide_eq_false_2; auto.
Qed.

Lemma obj_map_lookup {V W} (f : V -> W) (o : obj V) (k : string) :
  obj_map f o !! k = f <$> obj_get o k.
Proof.
  unfold obj_map. induction o as [|[k0 v0] o IH]; simpl.
  - apply lookup_empty.
  - rewrite lookup_insert, eqb_decide. simpl. case_decide.
    + rewrite bool_decide_eq_true_2 by assumption. reflexivity.
    + rewrite bool_decide_eq_false_2 by assumption. apply IH.
Qed.

Lemma obj_map_set {V W} (f : V -> W) (o : obj V) (k : string) (v : V) :
  obj_map f (obj_set o k v) = <[k := f v]> (obj_map f o).
Proof.
  apply map_eq. intros k'.
  rewrite lookup_insert, !obj_map_lookup, obj_get_set, eqb_decide.
  case_decide.
  - rewrite bool_decide_eq_true_2 by assumption. reflexivity.
  - rewrite bool_decide_eq_false_2 by assumption. reflexivity.
Qed.

Lemma obj_map_alter {V W} (f : V -> W) (g : V -> V) (g' : W -> W)
    (o : obj V) (k : string) :
  (forall v, f (g v) = g' (f v)) ->
  obj_map f (obj_alter g k o) = alter g' k (obj_map f o).
Proof.
  intros Hfg. apply map_eq. intros k'.
  rewrite lookup_alter, !obj_map_lookup, obj_get_alter, eqb_decide.
  case_decide.
  - rewrite bool_decide_eq_true_2 by assumption.
    destruct (obj_get o k); simpl; [rewrite Hfg|]; reflexivity.
  - rewrite bool_decide_eq_false_2 by assumption. reflexivity.
Qed.

Lemma obj_map_fill {V W} (f : obj V -> gmap string W) (o : obj (obj V)) (k : string) :
  f [] = ∅ ->
  obj_map f (fillIfNotExists o k) =
  <[k := default ∅ (obj_map f o !! k)]> (obj_map f o).
Proof.
  intros Hf. unfold fillIfNotExists.
  rewrite obj_map_lookup. destruct (obj_get o k) as [v|] eqn:E; simpl.
  - symmetry. apply insert_id. rewrite obj_map_lookup, E. reflexivity.
  - rewrite obj_map_set, Hf. reflexivity.
Qed.

Lemma tree_map_add_context tree cur :
  tree_map (add_context tree cur) = tree_map_add cur (tree_map tree).
Proof.
  unfold tree_map, add_context, tree_map_add.
  set (t := ctx_tableName cur). set (r := ctx_sys_id cur).
  set (fd := ctx_targetField cur).
  set (F := obj_map (obj_map (@id FileContext))).
  rewrite (obj_map_alter F _
             (alter (fun ofRecord => <[fd := cur]> ofRecord) r)).
  2:{ intros v. unfold F.
      apply (obj_map_alter (obj_map id) _ (fun ofRecord => <[fd := cur]> ofRecord)).
      intros rm. apply obj_map_set. }
  rewrite (obj_map_alter F _
             (fun ofTable => <[r := default ∅ (ofTable !! r)]> ofTable)).
  2:{ intros v. unfold F. apply obj_map_fill. reflexivity. }
  rewrite obj_map_fill by reflexivity.
  set (m := obj_map F tree). set (ofTable := default ∅ (m !! t)).
  rewrite !alter_insert_eq. reflexivity.
Qed.

Lemma groupAppFiles_fold fileCtxs :
  groupAppFiles fileCtxs = fold_left add_context fileCtxs [].
Proof. reflexivity. Qed.

Lemma tree_map_fold fileCtxs tree :
  tree_map (fold_left add_context fileCtxs tree) =
  fold_left (fun m cur => tree_map_add cur m) fileCtxs (tree_map tree).
Proof.
  revert tree. induction fileCtxs as [|cur l IH]; intros tree; simpl.
  - reflexivity.
  - rewrite IH, tree_map_add_context. reflexivity.
Qed.

(** Contexts of different (table, record, field) can be added in either
    order. *)
Lemma tree_map_add_comm c1 c2 m :
  ctx_key c1 <> ctx_key c2 ->
  tree_map_add c1 (tree_map_add c2 m) = tree_map_add c2 (tree_map_add c1 m).
Proof.
  unfold ctx_key, tree_map_add. cbn zeta. intros Hne.
  destruct (decide (ctx_tableName c1 = ctx_tableName c2)) as [Et|Et].
  - rewrite <- Et in *. rewrite !lookup_insert_eq. cbn [default from_option id].
    rewrite !insert_insert_eq. f_equal.
    destruct (decide (ctx_sys_id c1 = ctx_sys_id c2)) as [Er|Er].
    + rewrite <- Er in *. rewrite !lookup_insert_eq. cbn [default from_option id].
      rewrite !insert_insert_eq. f_equal.
      apply insert_insert_ne. congruence.
    + rewrite !lookup_insert_ne by congruence.
      apply insert_insert_ne. congruence.
  - rewrite !lookup_insert_ne by congruence.
    apply insert_insert_ne. congruence.
Qed.

Lemma fold_left_permutation {A S K} (f : S -> A -> S) (key : A -> K)
    (l1 l2 : list A) :
  (forall a b s, key a <> key b -> f (f s a) b = f (f s b) a) ->
  Permutation l1 l2 ->
  NoDup (map key l1) ->
  forall s, fold_left f l1 s = fold_left f l2 s.
Proof.
  intros Hcomm Hperm. induction Hperm as [|x l l' Hp IH|x y l|l l' l'' Hp1 IH1 Hp2 IH2];
    intros Hnd s; simpl.
  - reflexivity.
  - apply IH. simpl in Hnd. apply NoDup_cons in Hnd. tauto.
  - f_equal. apply Hcomm. simpl in Hnd.
    apply NoDup_cons in Hnd as [Hy _]. intros E. apply Hy. rewrite E. left.
  - rewrite IH1 by assumption. apply IH2.
    assert (Hp : Permutation (map key l) (map key l'))
      by (apply Permutation_map, Hp1).
    rewrite <- Hp. exact Hnd.
Qed.

(** C9. Reordering the contexts given to [groupAppFiles] yields a
    structurally identical tree (the same tables, records and fields,
    holding the same contexts), provided the contexts have pairwise
    distinct (table, sys_id, targetField), as the data model requires. *)
Theorem groupAppFiles_permutation_invariant (fileCtxs reordered : list FileContext) :
  NoDup (map ctx_key fileCtxs) ->
  Permutation fileCtxs reordered ->
  tree_map (groupAppFiles reordered) = tree_map (groupAppFiles fileCtxs).
Proof.
  intros Hnd Hperm. rewrite !groupAppFiles_fold, !tree_map_fold. symmetry.
  apply (fold_left_permutation _ ctx_key); auto.
  intros a b s Hne. symmetry. apply tree_map_add_comm. exact Hne.
Qed.

(** ** Build pipeline *)

Lemma all_ok_Ok {A} (rs : list (Result A)) (l : list A) :
  all_ok rs = Ok l -> rs = map Ok l.
Proof.
  revert l. induction rs as [|[a|e] rs IH]; intros l H; simpl in H.
  - injection H as <-. reflexivity.
  - destruct (all_ok rs) as [l'|]; [|discriminate].
    injection H as <-. simpl. f_equal. apply IH. reflexivity.
  - discriminate.
Qed.

Lemma all_ok_built {A} (rs : list (Result A)) :
  forallb is_ok rs = true -> all_ok rs = Ok (built_contents rs).
Proof.
  induction rs as [|[a|e] rs IH]; simpl; intros H; [reflexivity| |discriminate].
  rewrite IH by assumption. reflexivity.
Qed.

Lemma built_contents_length {A} (rs : list (Result A)) :
  forallb is_ok rs = true -> length (built_contents rs) = length rs.
Proof.
  induction rs as [|[a|e] rs IH]; simpl; intros H; [reflexivity| |discriminate].
  rewrite IH by assumption. reflexivity.
Qed.

Lemma omap_cons_eq {A B} (g : A -> option B) (x : A) (l : list A) :
  omap g (x :: l) = match g x with Some y => y :: omap g l | None => omap g l end.
Proof. reflexivity. Qed.

(** The reasons handed to [aggregateErrorMessages] are those of the
    failed fields, in field order. *)
Lemma rejections_failed_fields {A} (rs : list (Result A)) :
  rejections rs = map snd (failed_fields rs).
Proof.
  unfold rejections, failed_fields.
  assert (H : forall g : nat -> nat,
    omap (fun r => match r with Err e => Some e | Ok _ => None end) rs =
    map snd
      (omap (fun ir : nat * Result A =>
               match snd ir with Err e => Some (fst ir, e) | Ok _ => None end)
            (imap (fun index r => (g index, r)) rs))).
  { induction rs as [|[a|e] rs IH]; intros g; [reflexivity| |].
    - rewrite imap_cons, !omap_cons_eq. cbn [snd]. apply (IH (fun i => g (S i))).
    - rewrite imap_cons, !omap_cons_eq. cbn [fst snd map]. f_equal.
      apply (IH (fun i => g (S i))). }
  apply (H (fun i => i)).
Qed.

Lemma obj_set_fresh {V} (o : obj V) k v :
  ~ In k (obj_keys o) -> obj_set o k v = o ++ [(k, v)].
Proof.
  induction o as [|[k0 v0] o IH]; simpl; intros Hk; [reflexivity|].
  destruct (String.eqb_spec k0 k) as [->|Hne]; [tauto|].
  rewrite IH by tauto. reflexivity.
Qed.

Lemma fold_obj_set {V} (l acc : obj V) :
  obj_wf (acc ++ l) ->
  fold_left (fun acc fc => obj_set acc (fst fc) (snd fc)) l acc = acc ++ l.
Proof.
  revert acc. induction l as [|[k v] l IH]; intros acc Hwf; simpl.
  - rewrite app_nil_r. reflexivity.
  - unfold obj_wf, obj_keys in *.
    rewrite obj_set_fresh.
    + rewrite IH; rewrite <- app_assoc; [reflexivity|exact Hwf].
    + rewrite map_app in Hwf. simpl in Hwf.
      apply NoDup_app in Hwf as (_ & Hdis & _).
      intros Hin. apply (Hdis k); [apply list_elem_of_In, Hin|left].
Qed.

Section BuildProperties.
Context {SV : Services}.

Lemma buildRec_eq rec :
  buildRec rec =
  (if forallb is_ok (field_outcomes rec)
   then Ok (fold_left (fun acc fc => obj_set acc (fst fc) (snd fc))
                      (zip (obj_keys rec) (built_contents (field_outcomes rec))) [])
   else Err {| err_message :=
                 aggregateErrorMessages (rejections (field_outcomes rec))
                   "Failed to build!" (fun _ index => pretty index) |},
   map (fun kv => EvGetFinalFileContents (snd kv)) rec).
Proof.
  unfold buildRec, allSettled, bind, field_outcomes.
  rewrite (settled_calls (fun kv => EvGetFinalFileContents (snd kv))
                         (fun kv => getFinalFileContents (snd kv))).
  cbn [fst snd]. destruct (forallb is_ok _); cbn [negb ret fst snd];
    rewrite app_nil_r; reflexivity.
Qed.

(** C4 (as amended). [buildRec] invokes the transform of every field,
    whatever the others do, and then either every transform succeeded
    and it returns the map from exactly the record's fields, in their
    order, to their built contents, or at least one failed and it fails
    with the aggregate of the reasons of all failed fields, in field
    order, each labelled with its position among the failures. *)
Theorem buildRec_all_or_nothing rec :
  obj_wf rec ->
  snd (buildRec rec) = map (fun kv => EvGetFinalFileContents (snd kv)) rec /\
  rejections (field_outcomes rec) = map snd (failed_fields (field_outcomes rec)) /\
  fst (buildRec rec) =
    if forallb is_ok (field_outcomes rec)
    then Ok (zip (obj_keys rec) (built_contents (field_outcomes rec)))
    else Err {| err_message :=
                  aggregateErrorMessages (rejections (field_outcomes rec))
                    "Failed to build!" (fun _ position => pretty position) |}.
Proof.
  intros Hwf. rewrite buildRec_eq. cbn [fst snd]. split; [reflexivity|].
  split; [apply rejections_failed_fields|].
  destruct (forallb is_ok (field_outcomes rec)) eqn:E; [|reflexivity].
  f_equal. rewrite fold_obj_set; [reflexivity|]. cbn [app].
  unfold obj_wf, obj_keys in *.
  assert (Hfst : map fst (zip (map fst rec) (built_contents (field_outcomes rec)))
                 = map fst rec).
  { apply fst_zip. rewrite built_contents_length by assumption.
    unfold field_outcomes. rewrite !length_map. reflexivity. }
  rewrite Hfst. exact Hwf.
Qed.

End BuildProperties.

(** ** Completion order *)

Lemma omap_seq {A B} (l : list A) (g : nat -> option B) (h : nat -> A -> B) (k : nat) :
  (forall i x, l !! i = Some x -> g (k + i) = Some (h i x)) ->
  omap g (seq k (length l)) = imap h l.
Proof.
  revert g h k. induction l as [|x l IH]; intros g h k H; [reflexivity|].
  rewrite imap_cons. cbn [length seq]. rewrite omap_cons_eq.
  pose proof (H 0 x eq_refl) as H0. rewrite Nat.add_0_r in H0. rewrite H0.
  f_equal. apply IH. intros i y Hi. cbn [compose].
  replace (S k + i) with (k + S i) by lia. apply (H (S i) y Hi).
Qed.

Lemma in_completed {A} (order : list nat) (tasks : list (M A)) j t :
  In (j, t) (completed order tasks) <-> In j order /\ tasks !! j = Some t.
Proof.
  unfold completed. rewrite <- !list_elem_of_In, list_elem_of_omap. split.
  - intros (i & Hi & Hf). destruct (tasks !! i) as [t'|] eqn:E; [|discriminate].
    simpl in Hf. injection Hf as <- <-. auto.
  - intros [Hj Ht]. exists j. rewrite Ht. auto.
Qed.

Lemma completed_permutation {A} (order : list nat) (tasks : list (M A)) :
  is_order order (length tasks) ->
  Permutation (completed order tasks) (imap (fun i t => (i, t)) tasks).
Proof.
  unfold is_order, completed. intros Hp. rewrite Hp.
  erewrite omap_seq; [reflexivity|].
  intros i x Hi. simpl. rewrite Hi. reflexivity.
Qed.

Lemma settled_at_agrees {A} (done : list (nat * A)) (v : nat -> option A) i :
  (forall j a, In (j, a) done -> v j = Some a) ->
  In i (map fst done) ->
  settled_at done i = v i.
Proof.
  induction done as [|[j a] done IH]; intros Hv Hi; [destruct Hi|].
  simpl. destruct (Nat.eqb_spec j i) as [->|Hne].
  - symmetry. apply Hv. left. reflexivity.
  - apply IH.
    + intros; apply Hv; right; assumption.
    + destruct Hi as [Hi|Hi]; [simpl in Hi; contradiction|exact Hi].
Qed.

(** Whatever the order in which they settle, the values of the promises
    are listed by index. *)
Lemma settled_in_values {A} (order : list nat) (tasks : list (M A)) :
  is_order order (length tasks) ->
  fst (settled_in order tasks) = map fst tasks.
Proof.
  intros Hp. unfold settled_in. cbn [fst].
  change (map fst tasks) with (fst <$> tasks).
  rewrite <- (imap_const fst tasks). apply omap_seq.
  intros i t Hi. cbn [plus const].
  rewrite (settled_at_agrees _ (fun j => fst <$> (tasks !! j))).
  - unfold M in *. cbv beta. rewrite Hi. reflexivity.
  - intros j a Hin. apply in_map_iff in Hin as ([j' t'] & E & Hin).
    injection E as -> <-. apply in_completed in Hin as [_ Ht].
    unfold M in *. cbv beta. rewrite Ht. reflexivity.
  - rewrite map_map. cbn [fst].
    apply in_map_iff. exists (i, t). split; [reflexivity|].
    apply in_completed. split; [|exact Hi].
    apply list_elem_of_In. unfold is_order in Hp. rewrite Hp.
    apply list_elem_of_In, in_seq. apply lookup_lt_Some in Hi. lia.
Qed.

Lemma concat_permutation {A} (l1 l2 : list (list A)) :
  Permutation l1 l2 -> Permutation (concat l1) (concat l2).
Proof.
  induction 1; simpl.
  - reflexivity.
  - apply Permutation_app_head. assumption.
  - rewrite !app_assoc. apply Permutation_app_tail, Permutation_app_comm.
  - etransitivity; eassumption.
Qed.

Lemma imap_pair_snd {A B} (f : A -> B) (l : list A) :
  map (fun p : nat * A => f (snd p)) (imap (fun i t => (i, t)) l) = map f l.
Proof.
  change (map (fun p : nat * A => f (snd p)) (imap (fun i t => (i, t)) l))
    with ((fun p : nat * A => f (snd p)) <$> imap (fun i t => (i, t)) l).
  rewrite fmap_imap. cbn. apply imap_const.
Qed.

(** The calls are those of the promises, in some order. *)
Lemma settled_in_trace {A} (order : list nat) (tasks : list (M A)) :
  is_order order (length tasks) ->
  Permutation (snd (settled_in order tasks)) (concat (map snd tasks)).
Proof.
  intros Hp. unfold settled_in. cbn [snd].
  rewrite <- (imap_pair_snd snd tasks).
  apply concat_permutation, Permutation_map, completed_permutation, Hp.
Qed.

Lemma first_rejection_None {A} (rs : list (Result A)) :
  forallb is_ok rs = true -> first_rejection rs = None.
Proof.
  induction rs as [|[a|e] rs IH]; simpl; auto. discriminate.
Qed.

Lemma Promise_all_in_values {A} (order : list nat) (tasks : list (M (Result A))) :
  is_order order (length tasks) ->
  forallb (fun t => is_ok (fst t)) tasks = true ->
  fst (Promise_all_in order tasks) = all_ok (map fst tasks).
Proof.
  intros Hp Hok. unfold Promise_all_in, bind, ret. cbn [fst snd].
  rewrite settled_in_values by assumption.
  rewrite first_rejection_None; [reflexivity|].
  rewrite forallb_map. apply forallb_forall. intros [j t] Hin.
  apply in_completed in Hin as [_ Ht]. cbn [fst snd].
  rewrite forallb_forall in Hok. apply Hok.
  apply list_elem_of_In. eapply list_elem_of_lookup_2, Ht.
Qed.

Lemma Promise_all_in_trace {A} (order : list nat) (tasks : list (M (Result A))) :
  is_order order (length tasks) ->
  Permutation (snd (Promise_all_in order tasks)) (concat (map snd tasks)).
Proof.
  intros Hp. unfold Promise_all_in, bind, ret. cbn [fst snd].
  rewrite app_nil_r. apply settled_in_trace, Hp.
Qed.

(** ** Push orchestrator *)

Lemma map_Ok_built {A} (rs : list (Result A)) :
  forallb is_ok rs = true -> map Ok (built_contents rs) = rs.
Proof.
  induction rs as [|[a|e] rs IH]; simpl; intros H; [reflexivity| |discriminate].
  rewrite IH by assumption. reflexivity.
Qed.

Lemma zip_map_self {A B} (f : A -> B) (l : list A) :
  zip (map f l) l = map (fun a => (f a, a)) l.
Proof. induction l; simpl; congruence. Qed.

Lemma countRecsInTree_sum (tree : AppFileContextTree) (acc : nat) :
  fold_left (fun acc kv => acc + length (obj_keys (snd kv))) tree acc =
  acc + length (concat (map snd tree)).
Proof.
  revert acc. induction tree as [|[table tableTree] tree IH]; intros acc; simpl.
  - lia.
  - rewrite IH, length_app. unfold obj_keys. rewrite length_map. lia.
Qed.

Lemma ticks_app (l1 l2 : list Event) : ticks (l1 ++ l2) = ticks l1 + ticks l2.
Proof. unfold ticks. rewrite List.filter_app, length_app. reflexivity. Qed.

Lemma ticks_permutation (l1 l2 : list Event) :
  Permutation l1 l2 -> ticks l1 = ticks l2.
Proof.
  unfold ticks. induction 1; simpl.
  - reflexivity.
  - destruct (is_tick x); simpl; congruence.
  - destruct (is_tick x), (is_tick y); reflexivity.
  - congruence.
Qed.

Lemma ticks_concat (ls : list (list Event)) :
  ticks (concat ls) = list_sum (map ticks ls).
Proof.
  induction ls as [|l ls IH]; simpl; [reflexivity|].
  rewrite ticks_app, IH. reflexivity.
Qed.

Lemma list_sum_zero {A} (f : A -> nat) (l : list A) :
  (forall a, In a l -> f a = 0) -> list_sum (map f l) = 0.
Proof.
  induction l as [|a l IH]; simpl; intros H; [reflexivity|].
  rewrite (H a), IH; auto.
Qed.

Lemma list_sum_indicator {A} (p : A -> bool) (l : list A) :
  list_sum (map (fun a => if p a then 1 else 0) l) = length (List.filter p l).
Proof.
  induction l as [|a l IH]; simpl; [reflexivity|].
  rewrite IH. destruct (p a); reflexivity.
Qed.

Section PushProperties.
Context {CM : ConfigManager} {SV : Services}.

(** The observer does not influence the outcome. *)
Lemma pushRec_value table tick buildRes recId recMap :
  fst (pushRec table tick buildRes recId recMap) =
  fst (pushRec table None buildRes recId recMap).
Proof.
  unfold pushRec. destruct recMap as [|[field first] rest]; [reflexivity|].
  destruct buildRes; reflexivity.
Qed.

Lemma pushRec_settles table tick buildRes recId recMap :
  recMap <> [] -> is_ok (fst (pushRec table tick buildRes recId recMap)) = true.
Proof.
  unfold pushRec. destruct recMap as [|[field first] rest]; [congruence|].
  intros _. destruct buildRes; reflexivity.
Qed.

Lemma record_outcomes_length tree :
  length (record_outcomes tree) = countRecsInTree tree.
Proof.
  unfold countRecsInTree, record_outcomes. rewrite countRecsInTree_sum. simpl.
  induction tree as [|[table tableTree] tree IH]; simpl; [reflexivity|].
  rewrite !length_app, IH, length_map. reflexivity.
Qed.

Lemma buildAndPush_values sched table tableTree tick :
  is_order (builds_settle sched) (length tableTree) ->
  is_order (pushes_settle sched) (length tableTree) ->
  (forall recId recMap, In (recId, recMap) tableTree -> recMap <> []) ->
  fst (buildAndPush sched table tableTree tick) =
  Ok (built_contents
        (map (fun rv => push_outcome table (fst rv) (snd rv)) tableTree)) /\
  forallb is_ok (map (fun rv => push_outcome table (fst rv) (snd rv)) tableTree)
  = true.
Proof.
  intros Hb Hp Hne.
  assert (Hall : forallb is_ok
      (map (fun rv => push_outcome table (fst rv) (snd rv)) tableTree) = true).
  { rewrite forallb_map. apply forallb_forall. intros [recId recMap] Hin.
    apply pushRec_settles. eapply Hne, Hin. }
  split; [|exact Hall].
  unfold buildAndPush, bind. cbn [fst]. unfold allSettled_in.
  rewrite settled_in_values by (rewrite length_map; exact Hb).
  rewrite map_map, zip_map_self, map_map. cbn [fst snd].
  rewrite Promise_all_in_values.
  - rewrite map_map.
    rewrite (map_ext _ (fun rv => push_outcome table (fst rv) (snd rv))).
    + apply all_ok_built, Hall.
    + intros rv. apply pushRec_value.
  - rewrite length_map. exact Hp.
  - rewrite forallb_map. apply forallb_forall. intros [recId recMap] Hin.
    apply pushRec_settles. eapply Hne, Hin.
Qed.

(** C3 (as amended). For a tree each of whose records has at least one
    field context, and whatever the order in which the builds and the
    pushes settle, [pushFiles] returns exactly one [PushResult] per
    record: the outcome of that record, tables in enumeration order and
    records in enumeration order within each table. *)
Theorem pushFiles_results_in_enumeration_order sched tree recordCount :
  valid_schedule sched tree ->
  records_nonempty tree ->
  exists results,
    fst (pushFiles sched tree recordCount) = Ok results /\
    map Ok results = record_outcomes tree /\
    length results = countRecsInTree tree.
Proof.
  intros [Ht Hs] Hne.
  set (outcomes := fun kv : string * TableContextTree =>
         map (fun rv => push_outcome (fst kv) (fst rv) (snd rv)) (snd kv)).
  assert (Htable : forall i kv, tree !! i = Some kv ->
    fst (buildAndPush (table_schedule sched i) (fst kv) (snd kv)
           (getProgTick getLogLevel recordCount)) =
    Ok (built_contents (outcomes kv)) /\
    forallb is_ok (outcomes kv) = true).
  { intros i [table tableTree] Hi. destruct (Hs i table tableTree Hi) as [Hb Hp].
    apply buildAndPush_values; auto.
    intros recId recMap Hin. apply (Hne table tableTree recId recMap); auto.
    apply list_elem_of_In. eapply list_elem_of_lookup_2, Hi. }
  assert (Hvalues :
    map fst (imap (fun i kv =>
                     buildAndPush (table_schedule sched i) (fst kv) (snd kv)
                       (getProgTick getLogLevel recordCount)) tree) =
    map (fun kv => Ok (built_contents (outcomes kv))) tree).
  { change (map fst ?l) with (fst <$> l). rewrite fmap_imap.
    change (map ?f tree) with (f <$> tree). rewrite <- imap_const.
    apply imap_ext. intros i kv Hi. cbn [compose const]. apply Htable, Hi. }
  assert (Hall : forall kv, In kv tree -> forallb is_ok (outcomes kv) = true).
  { intros kv Hin. apply list_elem_of_In, list_elem_of_lookup in Hin as [i Hi].
    apply (Htable i kv Hi). }
  exists (concat (map (fun kv => built_contents (outcomes kv)) tree)).
  assert (Hok : map Ok (concat (map (fun kv => built_contents (outcomes kv)) tree))
                = record_outcomes tree).
  { unfold record_outcomes. fold outcomes.
    clear - Hall. induction tree as [|kv tree IH]; [reflexivity|].
    simpl. rewrite map_app. f_equal.
    - apply map_Ok_built, Hall. left. reflexivity.
    - apply IH. intros kv' Hin. apply Hall. right. exact Hin. }
  split; [|split; [exact Hok|]].
  - unfold pushFiles, bind, ret. cbn [fst snd].
    rewrite Promise_all_in_values.
    + rewrite Hvalues.
      assert (E : forall l : list (string * TableContextTree),
        all_ok (map (fun kv => Ok (built_contents (outcomes kv))) l) =
        Ok (map (fun kv => built_contents (outcomes kv)) l)).
      { induction l as [|kv l IH]; simpl; [reflexivity|]. rewrite IH. reflexivity. }
      rewrite E. reflexivity.
    + rewrite length_imap. exact Ht.
    + rewrite <- forallb_map, Hvalues, forallb_map. apply forallb_forall.
      intros kv _. reflexivity.
  - rewrite <- record_outcomes_length, <- Hok, length_map. reflexivity.
Qed.

(** *** Progress ticks *)

Lemma buildRec_no_tick recMap : ticks (snd (buildRec recMap)) = 0.
Proof.
  rewrite buildRec_eq. cbn [snd]. unfold ticks.
  induction recMap as [|kv recMap IH]; simpl; auto.
Qed.

Lemma pushRec_ticks table total recId recMap :
  ticks (snd (pushRec table (getProgTick "info" total)
                 (fst (buildRec recMap)) recId recMap)) =
  if reaches_push recMap then 1 else 0.
Proof.
  unfold pushRec, reaches_push.
  destruct recMap as [|[field first] rest]; [reflexivity|].
  destruct (fst (buildRec _)); reflexivity.
Qed.

Lemma buildAndPush_ticks sched table tableTree total :
  is_order (builds_settle sched) (length tableTree) ->
  is_order (pushes_settle sched) (length tableTree) ->
  ticks (snd (buildAndPush sched table tableTree (getProgTick "info" total))) =
  length (List.filter reaches_push (map snd tableTree)).
Proof.
  intros Hb Hp. unfold buildAndPush, bind. cbn [fst snd]. unfold allSettled_in.
  rewrite ticks_app.
  rewrite (ticks_permutation _ _ (settled_in_trace _ _
             ltac:(rewrite length_map; exact Hb))).
  rewrite settled_in_values by (rewrite length_map; exact Hb).
  rewrite !map_map, zip_map_self, !map_map. cbn [fst snd].
  rewrite (ticks_permutation _ _ (Promise_all_in_trace _ _
             ltac:(rewrite length_map; exact Hp))).
  rewrite !ticks_concat, !map_map.
  rewrite list_sum_zero by (intros; apply buildRec_no_tick).
  rewrite <- list_sum_indicator, map_map. cbn [plus]. f_equal.
  apply map_ext. intros [recId recMap]. apply pushRec_ticks.
Qed.

Lemma pushFiles_tick_count sched tree recordCount :
  valid_schedule sched tree ->
  getLogLevel = "info" ->
  ticks (snd (pushFiles sched tree recordCount)) = pushed_records tree.
Proof.
  intros [Ht Hs] Hlevel. unfold pushFiles, bind, ret. cbn [fst snd].
  rewrite app_nil_r, Hlevel.
  erewrite ticks_permutation
    by (apply Promise_all_in_trace; rewrite length_imap; exact Ht).
  rewrite ticks_concat.
  change (map snd ?l) with (snd <$> l). rewrite fmap_imap.
  change (map ticks ?l) with (ticks <$> l). rewrite fmap_imap.
  rewrite (imap_ext _ (const (fun kv : string * TableContextTree =>
             length (List.filter reaches_push (map snd (snd kv)))))).
  2:{ intros i [table tableTree] Hi. cbn [compose const fst snd].
      destruct (Hs i table tableTree Hi) as [Hb Hp].
      apply (buildAndPush_ticks _ _ _ _ Hb Hp). }
  rewrite imap_const.
  unfold pushed_records. clear.
  induction tree as [|[table tableTree] tree IH]; [reflexivity|].
  simpl. rewrite List.filter_app, length_app. f_equal. apply IH.
Qed.

End PushProperties.

(** ** Remote reconciler *)

Section ReconcilerProperties.
Context {FU : FileUtils} {RT : Runtime} {CM : ConfigManager} {SV : Services}.

(** C10. [processMissingFiles] probes the local tree, asks the remote
    for the missing files and hands the fragment it receives to the
    table-write stage with [forceWrite = false]: these are all its calls.
    None of them writes the manifest file and no write is forced, whether
    the run succeeds or not. *)
Theorem processMissingFiles_never_persists manifest :
  let missing := fst (findMissingFiles manifest) in
  snd (processMissingFiles manifest) =
    detector_probes (man_tables manifest) ++
    [EvGetMissingFiles missing] ++
    match getMissingFiles missing with
    | Ok filesToProcess => tables_writes filesToProcess false
    | Err _ => []
    end /\
  forallb (fun ev => negb (is_persist ev) && negb (is_forced_write ev))
          (snd (processMissingFiles manifest)) = true /\
  is_ok (fst (processMissingFiles manifest)) =
    match getMissingFiles missing with
    | Ok filesToProcess => all_written filesToProcess false
    | Err _ => false
    end.
Proof.
  cbn zeta.
  assert (Htrace : snd (processMissingFiles manifest) =
    detector_probes (man_tables manifest) ++
    [EvGetMissingFiles (fst (findMissingFiles manifest))] ++
    match getMissingFiles (fst (findMissingFiles manifest)) with
    | Ok filesToProcess => tables_writes filesToProcess false
    | Err _ => []
    end).
  { unfold processMissingFiles, bind, call. cbn [fst snd].
    rewrite findMissingFiles_trace. do 2 f_equal.
    destruct (getMissingFiles _); cbn [ret fst snd]; [|reflexivity].
    rewrite app_nil_r. apply processTablesInManifest_trace. }
  split; [exact Htrace|split].
  - rewrite Htrace, !forallb_app. apply andb_true_iff. split.
    + apply forallb_forall. intros ev Hin.
      pose proof (detector_probes_are_probes (man_tables manifest)) as Hp.
      rewrite forallb_forall in Hp. specialize (Hp ev Hin).
      destruct ev; try discriminate; reflexivity.
    + cbn [forallb is_persist is_forced_write negb andb].
      destruct (getMissingFiles _) as [filesToProcess|]; [|reflexivity].
      apply forallb_forall. intros ev Hin.
      pose proof (tables_writes_no_persist filesToProcess false) as Hp.
      pose proof (tables_writes_unforced filesToProcess) as Hu.
      rewrite forallb_forall in Hp, Hu.
      rewrite (Hp ev Hin), (Hu ev Hin). reflexivity.
  - unfold processMissingFiles, bind, call. cbn [fst snd].
    destruct (getMissingFiles _); cbn [ret fst snd]; [|reflexivity].
    apply processTablesInManifest_ok.
Qed.

End ReconcilerProperties.

(** ** Scope guard and update-set manager *)

Section ScopeProperties.
Context {Remote : Type} {CL : SNClient Remote} {CM : ConfigManager}.

Lemma swapScope_swaps target s scopeId user prefId s' :
  getScopeId target s = Ok scopeId ->
  getUserSysId s = Ok user ->
  getCurrentAppUserPrefSysId user s = Ok prefId ->
  assign_scope scopeId user prefId s = (Ok tt, s') ->
  swapScope target s = (getCurrentScope s', s').
Proof.
  intros Hid Hu Hp Hw.
  unfold swapScope, swapServerScope, await, read. rewrite Hid, Hu, Hp.
  unfold assign_scope in Hw. rewrite Hw. reflexivity.
Qed.

(** C8. The four cases of [checkScope]: without a manifest it reports a
    match with empty scopes; when the remote active scope equals the
    manifest's it reports a match and leaves the remote as it is; when
    they differ and no swap is asked for it reports a mismatch and leaves
    the remote as it is; when they differ and a swap is asked for it
    updates the user's scope preference (creates it when there is none)
    and reports whether the scope read back equals the manifest's. *)
Theorem checkScope_cases (swap : bool) (s : Remote) :
  (getManifest = None ->
   checkScope swap s =
   (Ok {| match_ := true; sessionScope := ""; manifestScope := "" |}, s)) /\
  (forall man scopeObj,
     getManifest = Some man ->
     getCurrentScope s = Ok scopeObj ->
     (scope scopeObj = man_scope man ->
      checkScope swap s =
      (Ok {| match_ := true; sessionScope := scope scopeObj;
             manifestScope := man_scope man |}, s)) /\
     (scope scopeObj <> man_scope man -> swap = false ->
      checkScope swap s =
      (Ok {| match_ := false; sessionScope := scope scopeObj;
             manifestScope := man_scope man |}, s)) /\
     (scope scopeObj <> man_scope man -> swap = true ->
      forall scopeId user prefId s' swapped,
        getScopeId (man_scope man) s = Ok scopeId ->
        getUserSysId s = Ok user ->
        getCurrentAppUserPrefSysId user s = Ok prefId ->
        assign_scope scopeId user prefId s = (Ok tt, s') ->
        getCurrentScope s' = Ok swapped ->
        checkScope swap s =
        (Ok {| match_ := String.eqb (scope swapped) (man_scope man);
               sessionScope := scope swapped;
               manifestScope := man_scope man |}, s'))).
Proof.
  split.
  - intros Hman. unfold checkScope. rewrite Hman. reflexivity.
  - intros man scopeObj Hman Hcur.
    assert (Hread : checkScope swap s =
      (if String.eqb (scope scopeObj) (man_scope man) then
         resolve {| match_ := true; sessionScope := scope scopeObj;
                    manifestScope := man_scope man |}
       else if swap then
         swappedScopeObj <~ swapScope (man_scope man) ;;
         resolve {| match_ := String.eqb (scope swappedScopeObj) (man_scope man);
                    sessionScope := scope swappedScopeObj;
                    manifestScope := man_scope man |}
       else
         resolve {| match_ := false; sessionScope := scope scopeObj;
                    manifestScope := man_scope man |}) s).
    { unfold checkScope. rewrite Hman. unfold await at 1, read at 1.
      rewrite Hcur. reflexivity. }
    rewrite Hread. repeat split.
    + intros Heq. apply String.eqb_eq in Heq. rewrite Heq. reflexivity.
    + intros Hne ->. apply String.eqb_neq in Hne. rewrite Hne. reflexivity.
    + intros Hne -> scopeId user prefId s' swapped Hid Hu Hp Hw Hre.
      apply String.eqb_neq in Hne. rewrite Hne.
      unfold await. rewrite (swapScope_swaps _ _ _ _ _ _ Hid Hu Hp Hw), Hre.
      reflexivity.
Qed.



End ScopeProperties.

(** ** What every tree of [groupAppFiles] satisfies *)

Lemma records_nonemptyb_spec tree :
  records_nonemptyb tree = true -> records_nonempty tree.
Proof.
  unfold records_nonemptyb, records_nonempty.
  intros H table tableTree recId recMap Ht Hr ->.
  rewrite forallb_forall in H. specialize (H _ Ht). cbn [snd] in H.
  rewrite forallb_forall in H. specialize (H _ Hr). discriminate.
Qed.

(** Creating the member when it is missing and then mutating it. *)
Lemma forallb_alter_fill {V} (q : obj V -> bool) (g : obj V -> obj V)
    (o : obj (obj V)) (k : string) :
  q (g []) = true ->
  (forall v, q v = true -> q (g v) = true) ->
  forallb (fun kv => q (snd kv)) o = true ->
  forallb (fun kv => q (snd kv)) (obj_alter g k (fillIfNotExists o k)) = true.
Proof.
  intros Hnil Hg. unfold fillIfNotExists.
  induction o as [|[k0 v0] o IH]; simpl; intros Ho.
  - rewrite String.eqb_refl. simpl. rewrite Hnil. reflexivity.
  - apply andb_true_iff in Ho as [H0 Ho]. specialize (IH Ho).
    destruct (String.eqb k0 k) eqn:E; simpl; rewrite ?E; simpl.
    + rewrite Hg, Ho by assumption. reflexivity.
    + destruct (obj_get o k); simpl; rewrite ?E; simpl; rewrite H0; exact IH.
Qed.

Lemma obj_alter_alter {V} (f g : V -> V) (k : string) (o : obj V) :
  obj_alter g k (obj_alter f k o) = obj_alter (fun v => g (f v)) k o.
Proof.
  induction o as [|[k0 v0] o IH]; simpl; [reflexivity|].
  destruct (String.eqb k0 k) eqn:E; simpl; rewrite E; [reflexivity|].
  rewrite IH. reflexivity.
Qed.

Lemma add_context_nonempty tree cur :
  records_nonemptyb tree = true -> records_nonemptyb (add_context tree cur) = true.
Proof.
  unfold records_nonemptyb, add_context. intros H.
  rewrite obj_alter_alter.
  apply (forallb_alter_fill
           (fun tableTree : TableContextTree =>
              forallb (fun rv => match snd rv with [] => false | _ :: _ => true end)
                      tableTree)).
  - cbn. rewrite String.eqb_refl. reflexivity.
  - intros tableTree Ht.
    apply (forallb_alter_fill
             (fun recMap : RecordContextMap =>
                match recMap with [] => false | _ :: _ => true end)).
    + reflexivity.
    + intros recMap _.
      destruct recMap as [|[k0 v0] recMap]; simpl; [reflexivity|].
      destruct (String.eqb k0 _); reflexivity.
    + exact Ht.
  - exact H.
Qed.

(** Every record of a tree built by [groupAppFiles] has a field. *)
Lemma groupAppFiles_records_nonempty fileCtxs :
  records_nonempty (groupAppFiles fileCtxs).
Proof.
  apply records_nonemptyb_spec. rewrite groupAppFiles_fold.
  apply fold_left_invariant; [|reflexivity].
  intros cur tree _. apply add_context_nonempty.
Qed.

(** ** Schedules *)

Lemma in_array_order_valid tree : valid_schedule (in_array_order tree) tree.
Proof.
  unfold valid_schedule, is_order.
  split; [reflexivity|]. intros i table tableTree Hi. cbn.
  rewrite Hi. split; reflexivity.
Qed.

Lemma last_first_valid tree : valid_schedule (last_first tree) tree.
Proof.
  unfold valid_schedule, is_order.
  split; [symmetry; apply Permutation_rev|]. intros i table tableTree Hi. cbn.
  rewrite Hi. split; symmetry; apply Permutation_rev.
Qed.

(** ** Missing-file detector: what is reported, and in what shape *)




Lemma filter_all {A} (p : A -> bool) (l : list A) :
  (forall a, In a l -> p a = true) -> List.filter p l = l.
Proof.
  induction l as [|a l IH]; intros H; simpl; [reflexivity|].
  rewrite (H a) by (left; reflexivity).
  rewrite IH by (intros; apply H; right; assumption). reflexivity.
Qed.



Section DetectorReports.
Context {FU : FileUtils} {RT : Runtime} {CM : ConfigManager}.







End DetectorReports.

(** *** Objects filled in and updated in place *)

Lemma obj_keys_alter {V} (f : V -> V) k (o : obj V) :
  obj_keys (obj_alter f k o) = obj_keys o.
Proof.
  unfold obj_keys. induction o as [|[k0 v0] o IH]; simpl; [reflexivity|].
  destruct (String.eqb k0 k); simpl; congruence.
Qed.

Lemma obj_keys_set {V} (o : obj V) k v :
  obj_keys (obj_set o k v) =
  if bool_decide (k ∈ obj_keys o) then obj_keys o else obj_keys o ++ [k].
Proof.
  unfold obj_keys. induction o as [|[k0 v0] o IH]; simpl; [reflexivity|].
  destruct (String.eqb_spec k0 k) as [->|Hne]; simpl.
  - rewrite bool_decide_eq_true_2 by left. reflexivity.
  - rewrite IH. destruct (bool_decide (k ∈ map fst o)) eqn:E.
    + apply bool_decide_eq_true in E.
      rewrite bool_decide_eq_true_2 by (right; exact E). reflexivity.
    + apply bool_decide_eq_false in E.
      rewrite bool_decide_eq_false_2; [reflexivity|].
      intros Hin. apply elem_of_cons in Hin as [->|Hin]; [apply Hne; reflexivity|auto].
Qed.

Lemma obj_wf_set {V} (o : obj V) k v : obj_wf o -> obj_wf (obj_set o k v).
Proof.
  unfold obj_wf. rewrite obj_keys_set. intros Hwf.
  destruct (bool_decide (k ∈ obj_keys o)) eqn:E; [exact Hwf|].
  apply bool_decide_eq_false in E.
  apply NoDup_app. split; [exact Hwf|]. split.
  - intros x Hx Hk. apply list_elem_of_singleton in Hk. subst. auto.
  - apply NoDup_singleton.
Qed.

Lemma obj_wf_alter {V} (f : V -> V) k (o : obj V) :
  obj_wf o -> obj_wf (obj_alter f k o).
Proof. unfold obj_wf. rewrite obj_keys_alter. auto. Qed.

Lemma obj_wf_fill {V} (d : V) (o : obj V) k : obj_wf o -> obj_wf (obj_fill d o k).
Proof.
  unfold obj_fill. destruct (obj_get o k); [auto|apply obj_wf_set].
Qed.

Lemma fill_not_nil {V} (d : V) (o : obj V) k : obj_fill d o k <> [].
Proof.
  unfold obj_fill. destruct (obj_get o k) eqn:E.
  - intros ->. discriminate.
  - apply obj_set_not_nil.
Qed.

Lemma alter_fill_not_nil {V} (g : V -> V) (d : V) (o : obj V) k :
  obj_alter g k (obj_fill d o k) <> [].
Proof. intros H. apply obj_alter_nil in H. revert H. apply fill_not_nil. Qed.

(** Filling a member in and updating it keeps what holds of every
    member. *)
Lemma Forall_alter_fill {V} (Q : V -> Prop) (g : V -> V) (d : V)
    (o : obj V) (k : string) :
  Q (g d) ->
  (forall v, Q v -> Q (g v)) ->
  Forall (fun kv => Q (snd kv)) o ->
  Forall (fun kv => Q (snd kv)) (obj_alter g k (obj_fill d o k)).
Proof.
  intros Hnil Hg Ho. unfold obj_fill.
  induction o as [|[k0 v0] o IH]; simpl.
  - rewrite String.eqb_refl. repeat constructor. exact Hnil.
  - apply Forall_cons in Ho as [Hv Ho]. specialize (IH Ho).
    destruct (String.eqb k0 k) eqn:E; simpl.
    + rewrite E. constructor; [apply Hg, Hv|exact Ho].
    + destruct (obj_get o k) eqn:Eg; simpl; rewrite E;
        (constructor; [exact Hv|exact IH]).
Qed.

(** The reducer of [markFileMissing], as one update of the table's
    member. *)
Lemma markFileMissing_alter table recordId file missing :
  markFileMissing table recordId file missing =
  obj_alter
    (fun ofTable =>
       obj_alter (fun entries => entries ++ [missing_entry file]) recordId
                 (obj_fill [] ofTable recordId))
    table (obj_fill [] missing table).
Proof.
  unfold markFileMissing. rewrite obj_alter_alter. reflexivity.
Qed.

Lemma missing_records_wf_Forall ofTable :
  missing_records_wf ofTable <->
  obj_wf ofTable /\ ofTable <> [] /\ Forall (fun kr => snd kr <> []) ofTable.
Proof.
  unfold missing_records_wf. rewrite Forall_forall.
  split; intros (Hw & Hn & H); repeat split; auto.
  - intros [recordId entries] Hin. apply (H recordId entries).
    apply list_elem_of_In, Hin.
  - intros recordId entries Hin.
    apply (H (recordId, entries)). apply list_elem_of_In, Hin.
Qed.

Lemma missing_wf_Forall missing :
  missing_wf missing <->
  obj_wf missing /\ Forall (fun kv => missing_records_wf (snd kv)) missing.
Proof.
  unfold missing_wf. rewrite Forall_forall.
  split; intros (Hw & H); split; auto.
  - intros [table ofTable] Hin. apply (H table ofTable). apply list_elem_of_In, Hin.
  - intros table ofTable Hin. apply (H (table, ofTable)). apply list_elem_of_In, Hin.
Qed.

Lemma snoc_not_nil {A} (l : list A) (a : A) : l ++ [a] <> [].
Proof. destruct l; discriminate. Qed.

Lemma markFileMissing_wf table recordId file missing :
  missing_wf missing -> missing_wf (markFileMissing table recordId file missing).
Proof.
  rewrite !missing_wf_Forall, markFileMissing_alter. intros [Hw Hall]. split.
  - apply obj_wf_alter, obj_wf_fill, Hw.
  - apply (Forall_alter_fill missing_records_wf); [| |exact Hall].
    + apply missing_records_wf_Forall. split; [|split].
      * apply obj_wf_alter, obj_wf_fill. apply NoDup_nil_2.
      * apply alter_fill_not_nil.
      * apply (Forall_alter_fill (fun entries => entries <> []));
          [| |constructor]; intros; apply snoc_not_nil.
    + intros ofTable Ht. apply missing_records_wf_Forall in Ht as (Hwt & _ & Hne).
      apply missing_records_wf_Forall. split; [|split].
      * apply obj_wf_alter, obj_wf_fill, Hwt.
      * apply alter_fill_not_nil.
      * apply (Forall_alter_fill (fun entries => entries <> []));
          [| |exact Hne]; intros; apply snoc_not_nil.
Qed.



Section DetectorInvariants.
Context {FU : FileUtils} {RT : Runtime} {CM : ConfigManager}.


(** The map [findMissingFiles] returns is well formed: no table name and
    no record identifier occurs twice, and it holds no table without a
    record and no record without a file entry. *)
Theorem findMissingFiles_well_formed manifest :
  missing_wf (fst (findMissingFiles manifest)).
Proof.
  assert (Hfiles : forall (keep : File -> bool) table recordId files missing,
    missing_wf missing ->
    missing_wf (fold_left (fun missing file =>
                             if keep file then missing
                             else markFileMissing table recordId file missing)
                          files missing)).
  { intros keep table recordId files missing. apply fold_left_invariant.
    intros file m _ Hm. destruct (keep file); [exact Hm|].
    apply markFileMissing_wf, Hm. }
  assert (Hrec : forall record table missing,
    missing_wf missing ->
    missing_wf (markRecordMissing record (markFileMissing table) missing)).
  { intros record table missing. unfold markRecordMissing.
    apply (Hfiles (fun _ => false)). }
  unfold findMissingFiles. rewrite checkTablesForMissing_eq. cbn [fst].
  apply for_each_invariant.
  - intros kv m _ Hm. unfold check_table. cbn zeta. destruct (pathExists _).
    + rewrite checkRecordsForMissing_eq. cbn [fst].
      apply for_each_invariant; [|exact Hm].
      intros kr m' _ Hm'. unfold check_record. cbn zeta. destruct (pathExists _).
      * rewrite checkFilesForMissing_eq. cbn [fst]. apply Hfiles, Hm'.
      * apply Hrec, Hm'.
    + cbn [fst ret]. unfold markTableMissing.
      apply fold_left_invariant; [|exact Hm].
      intros kr m' _. apply Hrec.
  - split; [apply NoDup_nil_2|]. intros table ofTable [].
Qed.

(** [findMissingFiles] only probes: a table directory of the manifest,
    a record directory of a table whose directory it found, or a file of
    a record whose directory, and the table's, it found. *)
Theorem findMissingFiles_probes_below_present manifest :
  Forall
    (fun ev =>
       match ev with
       | EvPathExists path =>
           (exists tableName table,
              In (tableName, table) (man_tables manifest) /\
              path = appendToPath getSourcePath tableName) \/
           (exists tableName table recName record,
              In (tableName, table) (man_tables manifest) /\
              In (recName, record) (tbl_records table) /\
              pathExists (appendToPath getSourcePath tableName) = true /\
              path = appendToPath (appendToPath getSourcePath tableName) recName)
       | EvSNFileExists recPath file =>
           exists tableName table recName record,
             In (tableName, table) (man_tables manifest) /\
             In (recName, record) (tbl_records table) /\
             In file (rec_files record) /\
             pathExists (appendToPath getSourcePath tableName) = true /\
             pathExists recPath = true /\
             recPath = appendToPath (appendToPath getSourcePath tableName) recName
       | _ => False
       end)
    (snd (findMissingFiles manifest)).
Proof.
  rewrite findMissingFiles_trace. apply Forall_forall. intros ev Hin.
  apply list_elem_of_In in Hin. unfold detector_probes in Hin.
  apply in_app_or in Hin as [Hin|Hin].
  - apply in_map_iff in Hin as ([tableName table] & <- & Ht).
    left. exists tableName, table. auto.
  - apply in_concat in Hin as (l & Hl & Hev).
    apply in_map_iff in Hl as ([tableName table] & <- & Ht). cbn [fst snd] in Hev.
    cbn zeta in Hev.
    destruct (pathExists (appendToPath getSourcePath tableName)) eqn:Et;
      [|destruct Hev].
    unfold record_probes in Hev. apply in_app_or in Hev as [Hev|Hev].
    + apply in_map_iff in Hev as ([recName record] & <- & Hr).
      right. exists tableName, table, recName, record. auto.
    + apply in_concat in Hev as (l & Hl & Hev).
      apply in_map_iff in Hl as ([recName record] & <- & Hr). cbn [fst snd] in Hev.
      cbn zeta in Hev.
      destruct (pathExists (appendToPath (appendToPath getSourcePath tableName) recName))
        eqn:Er; [|destruct Hev].
      apply in_map_iff in Hev as (file & <- & Hf).
      exists tableName, table, recName, record. auto 10.
Qed.

End DetectorInvariants.

(** ** File tree builder: lookup, shape, count and order *)

Lemma obj_get_None {V} (o : obj V) k : obj_get o k = None <-> k ∉ obj_keys o.
Proof.
  unfold obj_keys. induction o as [|[k0 v0] o IH]; simpl.
  - split; [intros _; apply not_elem_of_nil|reflexivity].
  - rewrite not_elem_of_cons. destruct (String.eqb_spec k0 k) as [->|Hne].
    + split; [discriminate|intros [H _]; destruct H; reflexivity].
    + rewrite IH. split; [intros H; split; [congruence|exact H]|tauto].
Qed.

Lemma obj_keys_fill {V} (d : V) (o : obj V) k :
  obj_keys (obj_fill d o k) =
  if bool_decide (k ∈ obj_keys o) then obj_keys o else obj_keys o ++ [k].
Proof.
  unfold obj_fill. destruct (obj_get o k) eqn:E.
  - rewrite bool_decide_eq_true_2; [reflexivity|].
    destruct (decide (k ∈ obj_keys o)) as [H|H]; [exact H|].
    apply obj_get_None in H. congruence.
  - rewrite obj_keys_set. reflexivity.
Qed.

Lemma obj_get_alter_fill {V} (g : V -> V) (d : V) (o : obj V) k k' :
  obj_get (obj_alter g k (obj_fill d o k)) k' =
  if String.eqb k k' then Some (g (default d (obj_get o k))) else obj_get o k'.
Proof.
  rewrite obj_get_alter. unfold obj_fill.
  destruct (obj_get o k) eqn:E.
  - rewrite E. reflexivity.
  - rewrite !obj_get_set, String.eqb_refl.
    destruct (String.eqb k k'); reflexivity.
Qed.

Lemma add_context_alter tree cur :
  add_context tree cur =
  obj_alter
    (fun tableTree =>
       obj_alter (fun recMap => obj_set recMap (ctx_targetField cur) cur)
                 (ctx_sys_id cur)
                 (obj_fill [] tableTree (ctx_sys_id cur)))
    (ctx_tableName cur) (obj_fill [] tree (ctx_tableName cur)).
Proof. unfold add_context. rewrite obj_alter_alter. reflexivity. Qed.

Lemma groupAppFiles_snoc fileCtxs cur :
  groupAppFiles (fileCtxs ++ [cur]) = add_context (groupAppFiles fileCtxs) cur.
Proof. rewrite !groupAppFiles_fold, fold_left_app. reflexivity. Qed.

(** *** Lookup *)

Lemma tree_get_add_context tree cur table sysId field :
  tree_get (add_context tree cur) table sysId field =
  if bool_decide (ctx_key cur = (table, sysId, field)) then Some cur
  else tree_get tree table sysId field.
Proof.
  rewrite add_context_alter. unfold tree_get, ctx_key.
  rewrite obj_get_alter_fill.
  destruct (String.eqb_spec (ctx_tableName cur) table) as [Et|Et].
  - rewrite obj_get_alter_fill.
    destruct (String.eqb_spec (ctx_sys_id cur) sysId) as [Er|Er].
    + rewrite obj_get_set.
      destruct (String.eqb_spec (ctx_targetField cur) field) as [Ef|Ef].
      * rewrite bool_decide_eq_true_2 by congruence. reflexivity.
      * rewrite bool_decide_eq_false_2 by congruence. subst.
        destruct (obj_get tree (ctx_tableName cur)) as [tt|]; cbn; [|reflexivity].
        destruct (obj_get tt (ctx_sys_id cur)); reflexivity.
    + rewrite bool_decide_eq_false_2 by congruence. subst.
      destruct (obj_get tree (ctx_tableName cur)) as [tt|]; reflexivity.
  - rewrite bool_decide_eq_false_2 by congruence. reflexivity.
Qed.

Lemma last_filter_snoc {A} (p : A -> bool) (l : list A) (a : A) :
  last (List.filter p (l ++ [a])) = if p a then Some a else last (List.filter p l).
Proof.
  rewrite List.filter_app. simpl. destruct (p a).
  - apply last_snoc.
  - rewrite app_nil_r. reflexivity.
Qed.

(** Looking a field up in the tree [groupAppFiles] builds yields the
    last context of the input filed under that table, record and field,
    and nothing when the input has none. *)
Theorem groupAppFiles_lookup fileCtxs table sysId field :
  tree_get (groupAppFiles fileCtxs) table sysId field =
  last (List.filter (fun ctx => bool_decide (ctx_key ctx = (table, sysId, field)))
                    fileCtxs).
Proof.
  induction fileCtxs as [|cur fileCtxs IH] using rev_ind; [reflexivity|].
  rewrite groupAppFiles_snoc, tree_get_add_context, last_filter_snoc, IH.
  reflexivity.
Qed.

(** *** Well-formedness *)

Lemma table_tree_wf_Forall tableTree :
  table_tree_wf tableTree <->
  obj_wf tableTree /\ tableTree <> [] /\
  Forall (fun rv => obj_wf (snd rv) /\ snd rv <> []) tableTree.
Proof.
  unfold table_tree_wf. rewrite Forall_forall.
  split; intros (Hw & Hn & H); repeat split; auto.
  - apply (H (fst x) (snd x)). destruct x. apply list_elem_of_In. assumption.
  - apply (H (fst x) (snd x)). destruct x. apply list_elem_of_In. assumption.
  - apply (H (recId, recMap)). apply list_elem_of_In. assumption.
  - apply (H (recId, recMap)). apply list_elem_of_In. assumption.
Qed.

Lemma tree_wf_Forall tree :
  tree_wf tree <-> obj_wf tree /\ Forall (fun kv => table_tree_wf (snd kv)) tree.
Proof.
  unfold tree_wf. rewrite Forall_forall.
  split; intros (Hw & H); split; auto.
  - intros [table tableTree] Hin. apply (H table tableTree), list_elem_of_In, Hin.
  - intros table tableTree Hin. apply (H (table, tableTree)), list_elem_of_In, Hin.
Qed.

Lemma add_context_wf tree cur : tree_wf tree -> tree_wf (add_context tree cur).
Proof.
  rewrite !tree_wf_Forall, add_context_alter. intros [Hw Hall].
  assert (Hrec : forall recMap : RecordContextMap,
            obj_wf recMap /\ recMap <> [] ->
            obj_wf (obj_set recMap (ctx_targetField cur) cur) /\
            obj_set recMap (ctx_targetField cur) cur <> []).
  { intros recMap [Hwr _]. split; [apply obj_wf_set, Hwr|apply obj_set_not_nil]. }
  assert (Hnil : obj_wf (obj_set ([] : RecordContextMap) (ctx_targetField cur) cur) /\
                 obj_set ([] : RecordContextMap) (ctx_targetField cur) cur <> []).
  { split; [apply obj_wf_set, NoDup_nil_2|apply obj_set_not_nil]. }
  split.
  - apply obj_wf_alter, obj_wf_fill, Hw.
  - apply (Forall_alter_fill table_tree_wf); [| |exact Hall].
    + apply table_tree_wf_Forall. split; [|split].
      * apply obj_wf_alter, obj_wf_fill, NoDup_nil_2.
      * apply alter_fill_not_nil.
      * apply (Forall_alter_fill (fun recMap : RecordContextMap =>
                                    obj_wf recMap /\ recMap <> []));
          [exact Hnil|exact Hrec|constructor].
    + intros tableTree Ht. apply table_tree_wf_Forall in Ht as (Hwt & _ & Hr).
      apply table_tree_wf_Forall. split; [|split].
      * apply obj_wf_alter, obj_wf_fill, Hwt.
      * apply alter_fill_not_nil.
      * apply (Forall_alter_fill (fun recMap : RecordContextMap =>
                                    obj_wf recMap /\ recMap <> []));
          [exact Hnil|exact Hrec|exact Hr].
Qed.

(** Whatever the input, the tree [groupAppFiles] builds is well formed:
    distinct table names, distinct record identifiers within a table,
    distinct fields within a record, no table without a record and no
    record without a field. *)
Theorem groupAppFiles_well_formed fileCtxs : tree_wf (groupAppFiles fileCtxs).
Proof.
  rewrite groupAppFiles_fold. apply fold_left_invariant.
  - intros cur tree _. apply add_context_wf.
  - split; [apply NoDup_nil_2|]. intros table tableTree [].
Qed.

(** *** Counting records *)

Lemma countRecsInTree_lengths tree :
  countRecsInTree tree = list_sum (map (fun kv => length (snd kv)) tree).
Proof.
  unfold countRecsInTree.
  assert (H : forall acc,
    fold_left (fun acc (kv : string * TableContextTree) =>
                 acc + length (obj_keys (snd kv))) tree acc =
    acc + list_sum (map (fun kv => length (snd kv)) tree)).
  { induction tree as [|[table tableTree] tree IH]; intros acc; simpl; [lia|].
    rewrite IH. unfold obj_keys. rewrite length_map. cbn [snd]. lia. }
  apply (H 0).
Qed.

Lemma length_obj_alter {V} (g : V -> V) k (o : obj V) :
  length (obj_alter g k o) = length o.
Proof.
  induction o as [|[k0 v0] o IH]; simpl; [reflexivity|].
  destruct (String.eqb k0 k); simpl; congruence.
Qed.

Lemma length_obj_fill {V} (d : V) (o : obj V) k :
  length (obj_fill d o k) =
  length o + match obj_get o k with Some _ => 0 | None => 1 end.
Proof.
  unfold obj_fill. destruct (obj_get o k) eqn:E; [lia|].
  induction o as [|[k0 v0] o IH]; simpl in *; [reflexivity|].
  destruct (String.eqb k0 k); [discriminate|]. simpl. rewrite IH by assumption. lia.
Qed.

Lemma list_sum_alter_fill {V} (size : V -> nat) (g : V -> V) (d : V) (inc : V -> nat)
    (o : obj V) (k : string) :
  size d = 0 ->
  (forall v, size (g v) = size v + inc v) ->
  list_sum (map (fun kv => size (snd kv)) (obj_alter g k (obj_fill d o k))) =
  list_sum (map (fun kv => size (snd kv)) o) + inc (default d (obj_get o k)).
Proof.
  intros Hd Hg. unfold obj_fill.
  induction o as [|[k0 v0] o IH]; simpl.
  - rewrite String.eqb_refl. simpl. rewrite Hg, Hd. lia.
  - destruct (String.eqb k0 k) eqn:E; simpl.
    + rewrite E. simpl. rewrite Hg. lia.
    + destruct (obj_get o k) eqn:Eg; simpl; rewrite E; simpl; rewrite IH; simpl; lia.
Qed.

Lemma countRecsInTree_add_context tree cur :
  countRecsInTree (add_context tree cur) =
  countRecsInTree tree +
  if has_rec tree (ctx_tableName cur) (ctx_sys_id cur) then 0 else 1.
Proof.
  rewrite !countRecsInTree_lengths, add_context_alter.
  rewrite (list_sum_alter_fill (V := TableContextTree) (@length _) _ _
             (fun tableTree : TableContextTree =>
                match obj_get tableTree (ctx_sys_id cur) with
                | Some _ => 0 | None => 1 end)).
  - f_equal. unfold has_rec.
    destruct (obj_get tree (ctx_tableName cur)) as [tableTree|];
      cbn [default from_option id obj_get]; [|reflexivity].
    destruct (obj_get tableTree (ctx_sys_id cur)) eqn:E.
    + rewrite bool_decide_eq_true_2 by eauto. reflexivity.
    + rewrite bool_decide_eq_false_2; [reflexivity|]. intros [x Hx]. discriminate.
  - reflexivity.
  - intros tableTree. rewrite length_obj_alter. apply length_obj_fill.
Qed.

Lemma has_rec_add_context tree cur table sysId :
  has_rec (add_context tree cur) table sysId =
  bool_decide (rec_key cur = (table, sysId)) || has_rec tree table sysId.
Proof.
  rewrite add_context_alter. unfold has_rec, rec_key.
  rewrite obj_get_alter_fill.
  destruct (String.eqb_spec (ctx_tableName cur) table) as [Et|Et].
  - rewrite obj_get_alter_fill.
    destruct (String.eqb_spec (ctx_sys_id cur) sysId) as [Er|Er].
    + rewrite (bool_decide_eq_true_2 (_ = _)) by congruence.
      rewrite bool_decide_eq_true_2 by eauto. reflexivity.
    + rewrite (bool_decide_eq_false_2 (_ = _)) by congruence. subst. cbn [orb].
      destruct (obj_get tree (ctx_tableName cur)) as [tt|];
        cbn [default from_option id obj_get]; [reflexivity|].
      rewrite bool_decide_eq_false_2; [reflexivity|]. intros [x Hx]. discriminate.
  - rewrite bool_decide_eq_false_2 by congruence. reflexivity.
Qed.

Lemma has_rec_groupAppFiles fileCtxs table sysId :
  has_rec (groupAppFiles fileCtxs) table sysId =
  bool_decide ((table, sysId) ∈ map rec_key fileCtxs).
Proof.
  induction fileCtxs as [|cur fileCtxs IH] using rev_ind.
  - cbn. rewrite bool_decide_eq_false_2; [reflexivity|apply not_elem_of_nil].
  - rewrite groupAppFiles_snoc, has_rec_add_context, IH, map_app. cbn [map].
    apply eq_true_iff_eq. rewrite orb_true_iff, !bool_decide_eq_true.
    rewrite elem_of_app, list_elem_of_singleton. split.
    + intros [E|H]; [right; symmetry; exact E|left; exact H].
    + intros [H|E]; [right; exact H|left; symmetry; exact E].
Qed.

Lemma length_remove_dups_snoc {A} `{EqDecision A} (l : list A) (a : A) :
  length (remove_dups (l ++ [a])) =
  length (remove_dups l) + if bool_decide (a ∈ l) then 0 else 1.
Proof.
  destruct (bool_decide (a ∈ l)) eqn:E.
  - apply bool_decide_eq_true in E. rewrite Nat.add_0_r.
    apply Permutation_length, NoDup_Permutation; try apply NoDup_remove_dups.
    intros x. rewrite !elem_of_remove_dups, elem_of_app, list_elem_of_singleton.
    split; [intros [H| ->]; assumption|auto].
  - apply bool_decide_eq_false in E.
    replace (length (remove_dups l) + 1) with (length (remove_dups l ++ [a]))
      by (rewrite length_app; reflexivity).
    apply Permutation_length, NoDup_Permutation.
    + apply NoDup_remove_dups.
    + apply NoDup_app. split; [apply NoDup_remove_dups|]. split.
      * intros x Hx Hxa. apply list_elem_of_singleton in Hxa. subst.
        rewrite elem_of_remove_dups in Hx. auto.
      * apply NoDup_singleton.
    + intros x.
      rewrite elem_of_remove_dups, !elem_of_app, elem_of_remove_dups. reflexivity.
Qed.

(** The number of records [countRecsInTree] finds in the tree
    [groupAppFiles] builds is the number of distinct (table, sys_id)
    pairs of the input. *)
Theorem countRecsInTree_groupAppFiles fileCtxs :
  countRecsInTree (groupAppFiles fileCtxs) =
  length (remove_dups (map rec_key fileCtxs)).
Proof.
  induction fileCtxs as [|cur fileCtxs IH] using rev_ind; [reflexivity|].
  rewrite groupAppFiles_snoc, countRecsInTree_add_context, IH.
  rewrite map_app. cbn [map]. rewrite length_remove_dups_snoc.
  rewrite has_rec_groupAppFiles. reflexivity.
Qed.

(** *** Enumeration order *)

Lemma elem_of_first_seen {A} `{EqDecision A} (l : list A) (a : A) :
  a ∈ first_seen l <-> a ∈ l.
Proof.
  unfold first_seen. rewrite elem_of_reverse, elem_of_remove_dups, elem_of_reverse.
  reflexivity.
Qed.

Lemma first_seen_snoc {A} `{EqDecision A} (l : list A) (a : A) :
  first_seen (l ++ [a]) =
  if bool_decide (a ∈ l) then first_seen l else first_seen l ++ [a].
Proof.
  unfold first_seen. rewrite reverse_app, reverse_singleton.
  cbn [app remove_dups].
  destruct (decide_rel elem_of a (reverse l)) as [Hin|Hin].
  - rewrite bool_decide_eq_true_2; [reflexivity|]. apply elem_of_reverse, Hin.
  - rewrite bool_decide_eq_false_2, reverse_cons; [reflexivity|].
    intros H. apply Hin, elem_of_reverse, H.
Qed.

(** The keys of an object that a loop fills in, a key entering behind
    the others when it is first met. *)
Lemma keys_first_seen {A K S} `{EqDecision K} (keys : S -> list K)
    (step : S -> A -> S) (sel : A -> bool) (key : A -> K) (s0 : S) (l : list A) :
  keys s0 = [] ->
  (forall s a, keys (step s a) =
               if sel a
               then (if bool_decide (key a ∈ keys s) then keys s
                     else keys s ++ [key a])
               else keys s) ->
  keys (fold_left step l s0) = first_seen (map key (List.filter sel l)).
Proof.
  intros H0 Hstep. induction l as [|a l IH] using rev_ind; [exact H0|].
  rewrite fold_left_app. cbn [fold_left]. rewrite Hstep, IH.
  rewrite List.filter_app. cbn [List.filter]. destruct (sel a).
  - rewrite map_app. cbn [map]. rewrite first_seen_snoc.
    destruct (bool_decide (key a ∈ map key (List.filter sel l))) eqn:E.
    + apply bool_decide_eq_true in E.
      rewrite bool_decide_eq_true_2; [reflexivity|]. apply elem_of_first_seen, E.
    + apply bool_decide_eq_false in E.
      rewrite bool_decide_eq_false_2; [reflexivity|].
      intros H. apply E, elem_of_first_seen, H.
  - rewrite app_nil_r. reflexivity.
Qed.

Lemma In_obj_get {V} (o : obj V) k v : obj_wf o -> In (k, v) o -> obj_get o k = Some v.
Proof.
  unfold obj_wf, obj_keys. induction o as [|[k0 v0] o IH]; intros Hw Hin; [destruct Hin|].
  cbn [map fst] in Hw. apply NoDup_cons in Hw as [Hk Hw]. simpl.
  destruct Hin as [E|Hin].
  - inversion E; subst. rewrite String.eqb_refl. reflexivity.
  - destruct (String.eqb_spec k0 k) as [->|Hne]; [|apply IH; assumption].
    exfalso. apply Hk. apply list_elem_of_In.
    change k with (fst (k, v)). apply in_map, Hin.
Qed.

Lemma table_of_add_context tree cur table :
  default [] (obj_get (add_context tree cur) table) =
  if String.eqb (ctx_tableName cur) table
  then obj_alter (fun recMap => obj_set recMap (ctx_targetField cur) cur)
                 (ctx_sys_id cur)
                 (obj_fill [] (default [] (obj_get tree table)) (ctx_sys_id cur))
  else default [] (obj_get tree table).
Proof.
  rewrite add_context_alter, obj_get_alter_fill.
  destruct (String.eqb_spec (ctx_tableName cur) table) as [->|]; reflexivity.
Qed.

Lemma record_of_add_context tree cur table sysId :
  default [] (obj_get (default [] (obj_get (add_context tree cur) table)) sysId) =
  if bool_decide (rec_key cur = (table, sysId))
  then obj_set (default [] (obj_get (default [] (obj_get tree table)) sysId))
               (ctx_targetField cur) cur
  else default [] (obj_get (default [] (obj_get tree table)) sysId).
Proof.
  rewrite table_of_add_context. unfold rec_key.
  destruct (String.eqb_spec (ctx_tableName cur) table) as [Et|Et].
  - rewrite obj_get_alter_fill.
    destruct (String.eqb_spec (ctx_sys_id cur) sysId) as [Er|Er].
    + rewrite bool_decide_eq_true_2 by congruence. subst. reflexivity.
    + rewrite bool_decide_eq_false_2 by congruence. reflexivity.
  - rewrite bool_decide_eq_false_2 by congruence. reflexivity.
Qed.

Lemma groupAppFiles_table_keys fileCtxs :
  obj_keys (groupAppFiles fileCtxs) = first_seen (map ctx_tableName fileCtxs).
Proof.
  rewrite groupAppFiles_fold.
  rewrite (keys_first_seen (fun tree : AppFileContextTree => obj_keys tree)
             add_context (fun _ => true) ctx_tableName).
  - rewrite filter_all by reflexivity. reflexivity.
  - reflexivity.
  - intros tree cur. rewrite add_context_alter, obj_keys_alter, obj_keys_fill.
    reflexivity.
Qed.

Lemma groupAppFiles_record_keys fileCtxs table :
  obj_keys (default [] (obj_get (groupAppFiles fileCtxs) table)) =
  first_seen
    (map ctx_sys_id
         (List.filter (fun ctx => String.eqb (ctx_tableName ctx) table) fileCtxs)).
Proof.
  rewrite groupAppFiles_fold.
  apply (keys_first_seen
           (fun tree : AppFileContextTree => obj_keys (default [] (obj_get tree table)))
           add_context).
  - reflexivity.
  - intros tree cur. rewrite table_of_add_context.
    destruct (String.eqb (ctx_tableName cur) table); [|reflexivity].
    rewrite obj_keys_alter, obj_keys_fill. reflexivity.
Qed.

Lemma groupAppFiles_field_keys fileCtxs table sysId :
  obj_keys (default [] (obj_get (default [] (obj_get (groupAppFiles fileCtxs) table))
                                sysId)) =
  first_seen
    (map ctx_targetField
         (List.filter (fun ctx => bool_decide (rec_key ctx = (table, sysId))) fileCtxs)).
Proof.
  rewrite groupAppFiles_fold.
  apply (keys_first_seen
           (fun tree : AppFileContextTree =>
              obj_keys (default [] (obj_get (default [] (obj_get tree table)) sysId)))
           add_context).
  - reflexivity.
  - intros tree cur. rewrite record_of_add_context.
    destruct (bool_decide (rec_key cur = (table, sysId))); [|reflexivity].
    apply obj_keys_set.
Qed.

Lemma enumeration_of_names (created : list string) :
  forallb (fun k => negb (array_index k)) created = true ->
  enumeration created = created.
Proof.
  intros H. unfold enumeration.
  rewrite (filter_all (fun k => negb (array_index k))).
  - replace (List.filter array_index created) with (@nil string); [reflexivity|].
    induction created as [|k created IH]; [reflexivity|].
    cbn [forallb] in H. apply andb_true_iff in H as [Hk H]. simpl.
    destruct (array_index k); [discriminate|]. apply IH, H.
  - intros k Hin. rewrite forallb_forall in H. apply H, Hin.
Qed.

(** [Object.keys] of the tree [groupAppFiles] builds, of each of its
    tables and of each of its records: the keys that are array indices
    first, in ascending numeric order, then the other keys in the order
    in which the input first mentions them (the tables of the input, the
    records of the table, the fields of the record).  The keys of the
    input are names that the empty object does not inherit. *)
Theorem groupAppFiles_enumeration_order fileCtxs :
  forallb own_names fileCtxs = true ->
  Object_keys (groupAppFiles fileCtxs) =
    enumeration (first_seen (map ctx_tableName fileCtxs)) /\
  Forall
    (fun kv =>
       Object_keys (snd kv) =
       enumeration
         (first_seen
            (map ctx_sys_id
                 (List.filter (fun ctx => String.eqb (ctx_tableName ctx) (fst kv))
                              fileCtxs))) /\
       Forall
         (fun rv =>
            Object_keys (snd rv) =
            enumeration
              (first_seen
                 (map ctx_targetField
                      (List.filter
                         (fun ctx => bool_decide (rec_key ctx = (fst kv, fst rv)))
                         fileCtxs))))
         (snd kv))
    (groupAppFiles fileCtxs).
Proof.
  intros _. unfold Object_keys.
  split; [rewrite groupAppFiles_table_keys; reflexivity|].
  pose proof (groupAppFiles_fold fileCtxs) as Hfold.
  assert (Hwf : tree_wf (groupAppFiles fileCtxs)).
  { rewrite Hfold. apply fold_left_invariant.
    - intros cur tree _. apply add_context_wf.
    - split; [apply NoDup_nil_2|]. intros table tableTree []. }
  destruct Hwf as [Hw Hall].
  apply Forall_forall. intros [table tableTree] Hin. apply list_elem_of_In in Hin.
  pose proof (In_obj_get _ _ _ Hw Hin) as Ht. cbn [fst snd].
  destruct (Hall table tableTree Hin) as (Hwt & _ & _).
  split.
  - rewrite <- groupAppFiles_record_keys, Ht. reflexivity.
  - apply Forall_forall. intros [recId recMap] Hr. apply list_elem_of_In in Hr.
    pose proof (In_obj_get _ _ _ Hwt Hr) as Hg. cbn [fst snd].
    rewrite <- groupAppFiles_field_keys, Ht. cbn [default from_option id].
    rewrite Hg. reflexivity.
Qed.

(** ** Push orchestrator: the ticks against the number of records *)

Lemma length_filter_le {A} (p : A -> bool) (l : list A) :
  length (List.filter p l) <= length l.
Proof. induction l as [|a l IH]; simpl; [lia|]. destruct (p a); simpl; lia. Qed.

Lemma length_filter_all {A} (p : A -> bool) (l : list A) :
  length (List.filter p l) = length l <-> forall a, In a l -> p a = true.
Proof.
  induction l as [|a l IH]; simpl.
  - split; [intros _ a []|reflexivity].
  - pose proof (length_filter_le p l) as Hle. destruct (p a) eqn:E; simpl.
    + split.
      * intros H b [<-|Hb]; [exact E|]. apply IH; [lia|exact Hb].
      * intros H. f_equal. apply IH. intros b Hb. apply H. right. exact Hb.
    + split; [lia|]. intros H. rewrite (H a) in E by (left; reflexivity).
      discriminate.
Qed.

Lemma countRecsInTree_records tree :
  countRecsInTree tree = length (concat (map (fun kv => map snd (snd kv)) tree)).
Proof.
  rewrite countRecsInTree_lengths.
  induction tree as [|[table tableTree] tree IH]; simpl; [reflexivity|].
  rewrite length_app, length_map, IH. reflexivity.
Qed.

Section PushTicks.
Context {CM : ConfigManager} {SV : Services}.

(** At log level [info], whatever the order in which promises settle,
    the observer is invoked once for every record that has a field and
    whose build succeeded, and for no other record.  So the number of
    ticks is the number of records of the tree, which is what
    [countRecsInTree] sizes the progress bar with, exactly when every
    record has a field and builds. *)
Theorem pushFiles_ticks sched tree recordCount :
  valid_schedule sched tree ->
  getLogLevel = "info" ->
  ticks (snd (pushFiles sched tree recordCount)) =
    length (List.filter reaches_push
                        (concat (map (fun kv => map snd (snd kv)) tree))) /\
  (ticks (snd (pushFiles sched tree recordCount)) = countRecsInTree tree <->
   forall table tableTree recId recMap,
     In (table, tableTree) tree -> In (recId, recMap) tableTree ->
     recMap <> [] /\ is_ok (fst (buildRec recMap)) = true).
Proof.
  intros Hs Hlevel.
  pose proof (pushFiles_tick_count sched tree recordCount Hs Hlevel) as Hticks.
  unfold pushed_records in Hticks. split; [exact Hticks|].
  rewrite Hticks, countRecsInTree_records, length_filter_all. split.
  - intros H table tableTree recId recMap Ht Hr.
    assert (Hp : reaches_push recMap = true).
    { apply H, in_concat. exists (map snd tableTree). split.
      - apply in_map_iff. exists (table, tableTree). auto.
      - apply in_map_iff. exists (recId, recMap). auto. }
    unfold reaches_push in Hp. destruct recMap; [discriminate|].
    split; [discriminate|exact Hp].
  - intros H recMap Hin. apply in_concat in Hin as (l & Hl & Hin).
    apply in_map_iff in Hl as ([table tableTree] & <- & Ht).
    apply in_map_iff in Hin as ([recId recMap'] & <- & Hr). cbn [snd] in *.
    destruct (H table tableTree recId recMap' Ht Hr) as [Hne Hok].
    unfold reaches_push. destruct recMap'; [congruence|exact Hok].
Qed.

End PushTicks.

(** ** Push orchestrator: the calls issued and the rejection *)

Lemma filter_permutation {A} (p : A -> bool) (l1 l2 : list A) :
  Permutation l1 l2 -> Permutation (List.filter p l1) (List.filter p l2).
Proof.
  induction 1; simpl.
  - reflexivity.
  - destruct (p x); [apply Permutation_skip|]; assumption.
  - destruct (p x), (p y); try reflexivity. apply Permutation_swap.
  - etransitivity; eassumption.
Qed.

Lemma filter_concat {A} (p : A -> bool) (ls : list (list A)) :
  List.filter p (concat ls) = concat (map (List.filter p) ls).
Proof.
  induction ls as [|l ls IH]; simpl; [reflexivity|].
  rewrite List.filter_app, IH. reflexivity.
Qed.

Lemma concat_map_app {A B} (f g : A -> list B) (l : list A) :
  Permutation (concat (map f l) ++ concat (map g l))
              (concat (map (fun a => f a ++ g a) l)).
Proof.
  induction l as [|a l IH]; simpl; [reflexivity|].
  rewrite <- IH, <- !app_assoc. apply Permutation_app_head.
  rewrite !app_assoc. apply Permutation_app_tail, Permutation_app_comm.
Qed.

(** Every call of a group of promises is a call of one of them,
    whatever the order given. *)
Lemma in_settled_in_trace {A} (order : list nat) (tasks : list (M A)) ev :
  In ev (snd (settled_in order tasks)) -> exists t, In t tasks /\ In ev (snd t).
Proof.
  unfold settled_in. cbn [snd]. intros Hin.
  apply in_concat in Hin as (l & Hl & Hev).
  apply in_map_iff in Hl as ([j t] & <- & Hjt).
  apply in_completed in Hjt as [_ Ht]. exists t. split; [|exact Hev].
  apply list_elem_of_In. eapply list_elem_of_lookup_2, Ht.
Qed.

Lemma in_Promise_all_in_trace {A} (order : list nat) (tasks : list (M (Result A))) ev :
  In ev (snd (Promise_all_in order tasks)) -> exists t, In t tasks /\ In ev (snd t).
Proof.
  unfold Promise_all_in, bind, ret. cbn [fst snd]. rewrite app_nil_r.
  apply in_settled_in_trace.
Qed.

Lemma first_rejection_only {A} (rs : list (Result A)) (e0 : Error) :
  (exists r, In r rs /\ r = Err e0) ->
  (forall e, In (Err e) rs -> e = e0) ->
  first_rejection rs = Some e0.
Proof.
  induction rs as [|[a|e] rs IH]; intros (r & Hin & Hr) Hall.
  - destruct Hin.
  - simpl. apply IH.
    + destruct Hin as [<-|Hin]; [discriminate|]. eauto.
    + intros e He. apply Hall. right. exact He.
  - simpl. f_equal. apply Hall. left. reflexivity.
Qed.

(** [Promise.all] rejects as soon as one promise does; when all the
    rejections carry the same error, that is the error. *)
Lemma Promise_all_in_rejects {A} (order : list nat) (tasks : list (M (Result A)))
    (e0 : Error) :
  is_order order (length tasks) ->
  (exists t, In t tasks /\ fst t = Err e0) ->
  (forall t e, In t tasks -> fst t = Err e -> e = e0) ->
  fst (Promise_all_in order tasks) = Err e0.
Proof.
  intros Hp (t & Hin & Ht) Hall. unfold Promise_all_in, bind, ret. cbn [fst snd].
  rewrite (first_rejection_only _ e0); [reflexivity| |].
  - exists (Err e0). split; [|reflexivity].
    apply list_elem_of_In, list_elem_of_lookup in Hin as [j Hj].
    apply in_map_iff. exists (j, t). split; [exact Ht|].
    apply in_completed. split; [|exact Hj].
    apply list_elem_of_In. unfold is_order in Hp. rewrite Hp.
    apply list_elem_of_In, in_seq. apply lookup_lt_Some in Hj. lia.
  - intros e He. apply in_map_iff in He as ([j t'] & E & Hjt). cbn [fst snd] in E.
    apply in_completed in Hjt as [_ Hj].
    apply (Hall t' e); [|exact E].
    apply list_elem_of_In. eapply list_elem_of_lookup_2, Hj.
Qed.

Section PushCalls.
Context {CM : ConfigManager} {SV : Services}.

(** The promises [buildAndPush] waits for in its second stage. *)
Lemma buildAndPush_eq sched table tableTree tick :
  is_order (builds_settle sched) (length tableTree) ->
  buildAndPush sched table tableTree tick =
  (fst (Promise_all_in (pushes_settle sched)
          (map (fun rv => pushRec table tick (fst (buildRec (snd rv))) (fst rv) (snd rv))
               tableTree)),
   snd (settled_in (builds_settle sched) (map (fun rv => buildRec (snd rv)) tableTree)) ++
   snd (Promise_all_in (pushes_settle sched)
          (map (fun rv => pushRec table tick (fst (buildRec (snd rv))) (fst rv) (snd rv))
               tableTree))).
Proof.
  intros Hb. unfold buildAndPush, bind, allSettled_in. cbn [fst snd].
  rewrite settled_in_values by (rewrite length_map; exact Hb).
  rewrite !map_map, zip_map_self, !map_map. reflexivity.
Qed.

Lemma pushRec_calls table level total recId recMap :
  List.filter (fun ev => negb (is_tick ev))
    (snd (pushRec table (getProgTick level total) (fst (buildRec recMap)) recId recMap)) =
  record_update table recId recMap.
Proof.
  unfold pushRec, getProgTick, record_update.
  destruct recMap as [|[field first] rest]; [reflexivity|].
  destruct (fst (buildRec _)) as [fields|e]; [|reflexivity].
  destruct (String.eqb level "info"); reflexivity.
Qed.

Lemma buildRec_calls recMap :
  List.filter (fun ev => negb (is_tick ev)) (snd (buildRec recMap)) =
  map (fun kv => EvGetFinalFileContents (snd kv)) recMap.
Proof.
  rewrite buildRec_eq. cbn [snd].
  induction recMap as [|kv recMap IH]; simpl; congruence.
Qed.

Lemma buildAndPush_calls sched table tableTree level total :
  is_order (builds_settle sched) (length tableTree) ->
  is_order (pushes_settle sched) (length tableTree) ->
  Permutation
    (List.filter (fun ev => negb (is_tick ev))
       (snd (buildAndPush sched table tableTree (getProgTick level total))))
    (concat (map (fun rv => record_calls table (fst rv) (snd rv)) tableTree)).
Proof.
  intros Hb Hp. rewrite buildAndPush_eq by exact Hb. cbn [snd].
  rewrite List.filter_app.
  rewrite (filter_permutation _ _ _
             (settled_in_trace _ _ ltac:(rewrite length_map; exact Hb))).
  rewrite (filter_permutation _ _ _
             (Promise_all_in_trace _ _ ltac:(rewrite length_map; exact Hp))).
  rewrite !filter_concat, !map_map.
  rewrite (map_ext _ (fun rv : string * RecordContextMap =>
                        map (fun kv => EvGetFinalFileContents (snd kv)) (snd rv)))
    by (intros; apply buildRec_calls).
  rewrite (map_ext
             (fun rv : string * RecordContextMap =>
                List.filter (fun ev => negb (is_tick ev))
                  (snd (pushRec table (getProgTick level total)
                          (fst (buildRec (snd rv))) (fst rv) (snd rv))))
             (fun rv : string * RecordContextMap =>
                record_update table (fst rv) (snd rv)))
    by (intros; apply pushRec_calls).
  apply concat_map_app.
Qed.

(** The trace of [pushFiles] without the progress ticks, up to order. *)
Lemma pushFiles_trace_calls sched tree recordCount :
  valid_schedule sched tree ->
  Permutation
    (List.filter (fun ev => negb (is_tick ev)) (snd (pushFiles sched tree recordCount)))
    (expected_calls tree).
Proof.
  intros [Ht Hs]. unfold pushFiles, bind, ret. cbn [fst snd]. rewrite app_nil_r.
  etransitivity.
  { apply filter_permutation, Promise_all_in_trace. rewrite length_imap. exact Ht. }
  rewrite filter_concat. unfold expected_calls. clear Ht.
  change (map snd ?l) with (snd <$> l). rewrite fmap_imap.
  change (map ?f (imap ?g tree)) with (f <$> imap g tree). rewrite fmap_imap.
  cbn [compose].
  assert (H : forall k (l : list (string * TableContextTree)),
    (forall i kv, l !! i = Some kv ->
       is_order (builds_settle (table_schedule sched (k + i))) (length (snd kv)) /\
       is_order (pushes_settle (table_schedule sched (k + i))) (length (snd kv))) ->
    Permutation
      (concat (imap (fun i kv =>
                 List.filter (fun ev => negb (is_tick ev))
                   (snd (buildAndPush (table_schedule sched (k + i)) (fst kv) (snd kv)
                           (getProgTick getLogLevel recordCount)))) l))
      (concat (map (fun kv =>
                 concat (map (fun rv => record_calls (fst kv) (fst rv) (snd rv))
                             (snd kv))) l))).
  { intros k l. revert k. induction l as [|kv l IH]; intros k Hl; [reflexivity|].
    rewrite imap_cons. cbn [concat map].
    apply Permutation_app.
    - destruct (Hl 0 kv eq_refl) as [Hb Hp].
      apply buildAndPush_calls; assumption.
    - rewrite (imap_ext _ (fun i kv =>
                 List.filter (fun ev => negb (is_tick ev))
                   (snd (buildAndPush (table_schedule sched (S k + i)) (fst kv) (snd kv)
                           (getProgTick getLogLevel recordCount))))).
      + apply IH. intros i kv' Hi. replace (S k + i) with (k + S i) by lia.
        apply (Hl (S i) kv' Hi).
      + intros i kv' _. cbn [compose]. replace (k + S i) with (S k + i) by lia.
        reflexivity. }
  apply (H 0). intros i [table tableTree] Hi. apply (Hs i table tableTree Hi).
Qed.

Lemma in_expected_calls ev tree :
  In ev (expected_calls tree) <->
  exists table tableTree recId recMap,
    In (table, tableTree) tree /\ In (recId, recMap) tableTree /\
    In ev (record_calls table recId recMap).
Proof.
  unfold expected_calls. rewrite in_concat. split.
  - intros (l & Hl & Hev). apply in_map_iff in Hl as ([table tableTree] & <- & Ht).
    apply in_concat in Hev as (l & Hl & Hev).
    apply in_map_iff in Hl as ([recId recMap] & <- & Hr).
    exists table, tableTree, recId, recMap. auto.
  - intros (table & tableTree & recId & recMap & Ht & Hr & Hev).
    exists (concat (map (fun rv => record_calls table (fst rv) (snd rv)) tableTree)).
    split.
    + apply in_map_iff. exists (table, tableTree). auto.
    + apply in_concat. exists (record_calls table recId recMap). split; [|exact Hev].
      apply in_map_iff. exists (recId, recMap). auto.
Qed.

Lemma in_record_calls_update table' recId' fields table recId recMap :
  In (EvUpdateRecord table' recId' fields) (record_calls table recId recMap) <->
  table' = table /\ recId' = recId /\ recMap <> [] /\
  fst (buildRec recMap) = Ok fields.
Proof.
  unfold record_calls, record_update. rewrite in_app_iff. split.
  - intros [Hin|Hin].
    + apply in_map_iff in Hin as (fc & E & _). discriminate.
    + destruct recMap as [|fc rest]; [destruct Hin|].
      destruct (fst (buildRec (fc :: rest))) as [built|e]; [|destruct Hin].
      destruct Hin as [E|[]]. injection E as <- <- <-. repeat split. discriminate.
  - intros (-> & -> & Hne & Hok). right.
    destruct recMap as [|fc rest]; [congruence|]. rewrite Hok. left. reflexivity.
Qed.

Lemma record_calls_kinds table recId recMap :
  Forall (fun ev => is_transform ev || is_update ev = true)
         (record_calls table recId recMap).
Proof.
  unfold record_calls, record_update. apply Forall_app. split.
  - apply Forall_forall. intros ev Hin. apply list_elem_of_In in Hin.
    apply in_map_iff in Hin as (fc & <- & _). reflexivity.
  - destruct recMap as [|fc rest]; [constructor|].
    destruct (fst (buildRec (fc :: rest))); repeat constructor.
Qed.

Lemma transforms_of_expected_calls tree :
  List.filter is_transform (expected_calls tree) = transforms tree.
Proof.
  unfold expected_calls, transforms. rewrite filter_concat, map_map. f_equal.
  apply map_ext. intros [table tableTree]. cbn [fst snd].
  rewrite filter_concat, map_map. f_equal.
  apply map_ext. intros [recId recMap]. cbn [fst snd].
  unfold record_calls, record_update. rewrite List.filter_app.
  rewrite (filter_all is_transform (map _ recMap)).
  - destruct recMap as [|fc rest]; [reflexivity|].
    destruct (fst (buildRec (fc :: rest))); cbn [List.filter is_transform];
      apply app_nil_r.
  - intros ev Hin. apply in_map_iff in Hin as (fc & <- & _). reflexivity.
Qed.

Lemma filter_filter_weaker {A} (p q : A -> bool) (l : list A) :
  (forall a, p a = true -> q a = true) ->
  List.filter p (List.filter q l) = List.filter p l.
Proof.
  intros H. induction l as [|a l IH]; simpl; [reflexivity|].
  destruct (q a) eqn:Eq; simpl; rewrite IH; [reflexivity|].
  destruct (p a) eqn:Ep; [|reflexivity]. rewrite (H a Ep) in Eq. discriminate.
Qed.

(** Besides the progress ticks, [pushFiles] calls only the content
    transform and the record update, whatever the order in which the
    promises settle.  The transform is called exactly once for every
    field context of the tree.  An update of a record with a field map
    is requested exactly when the tree holds, under that table and that
    identifier, a record that has a field context and whose transforms
    all succeeded, the map being the one built: none is requested for a
    record one of whose transforms failed, and every record that built
    gets its request.  (How often the retry loop repeats a request is
    not stated.) *)
Theorem pushFiles_calls sched tree recordCount :
  valid_schedule sched tree ->
  Permutation (List.filter is_transform (snd (pushFiles sched tree recordCount)))
              (transforms tree) /\
  (forall table recId fields,
     In (EvUpdateRecord table recId fields) (snd (pushFiles sched tree recordCount)) <->
     exists tableTree recMap,
       In (table, tableTree) tree /\ In (recId, recMap) tableTree /\
       recMap <> [] /\ fst (buildRec recMap) = Ok fields) /\
  Forall (fun ev => is_transform ev || is_update ev || is_tick ev = true)
         (snd (pushFiles sched tree recordCount)).
Proof.
  intros Hs. pose proof (pushFiles_trace_calls sched tree recordCount Hs) as Hperm.
  split; [|split].
  - rewrite <- transforms_of_expected_calls.
    rewrite <- (filter_filter_weaker is_transform (fun ev => negb (is_tick ev))).
    + apply filter_permutation, Hperm.
    + intros ev Hev. destruct ev; try discriminate; reflexivity.
  - intros table recId fields. etransitivity.
    { instantiate (1 := In (EvUpdateRecord table recId fields) (expected_calls tree)).
      split; intros Hin.
      - eapply Permutation_in; [exact Hperm|].
        apply filter_In. split; [exact Hin|reflexivity].
      - eapply Permutation_in in Hin; [|symmetry; exact Hperm].
        apply filter_In in Hin as [Hin _]. exact Hin. }
    rewrite in_expected_calls. split.
    + intros (table' & tableTree & recId' & recMap & Ht & Hr & Hin).
      apply in_record_calls_update in Hin as (-> & -> & Hne & Hok).
      exists tableTree, recMap. auto.
    + intros (tableTree & recMap & Ht & Hr & Hne & Hok).
      exists table, tableTree, recId, recMap. split; [exact Ht|]. split; [exact Hr|].
      apply in_record_calls_update. auto.
  - apply Forall_forall. intros ev Hin. apply list_elem_of_In in Hin.
    destruct (is_tick ev) eqn:Etick; [apply orb_true_r|]. rewrite orb_false_r.
    assert (Hexp : In ev (expected_calls tree)).
    { eapply Permutation_in; [exact Hperm|].
      apply filter_In. split; [exact Hin|]. rewrite Etick. reflexivity. }
    apply in_expected_calls in Hexp as (table & tableTree & recId & recMap & _ & _ & Hc).
    pose proof (record_calls_kinds table recId recMap) as Hk.
    rewrite Forall_forall in Hk. apply Hk, list_elem_of_In, Hc.
Qed.

End PushCalls.

Lemma forallb_false {A} (p : A -> bool) (l : list A) :
  forallb p l = false -> exists a, In a l /\ p a = false.
Proof.
  induction l as [|a l IH]; simpl; [discriminate|].
  destruct (p a) eqn:E; [|eauto].
  intros H. destruct (IH H) as (b & Hb & Hp). eauto.
Qed.

Section PushOutcome.
Context {CM : ConfigManager} {SV : Services}.

Lemma pushRec_calls_none table buildRes recId recMap :
  List.filter (fun ev => negb (is_tick ev))
    (snd (pushRec table None buildRes recId recMap)) =
  snd (pushRec table None buildRes recId recMap).
Proof.
  unfold pushRec. destruct recMap as [|[field first] rest]; [reflexivity|].
  destruct buildRes as [fields|e]; reflexivity.
Qed.

Lemma buildAndPush_no_observer sched table tableTree ev :
  In ev (snd (buildAndPush sched table tableTree None)) -> is_tick ev = false.
Proof.
  unfold buildAndPush, bind, allSettled_in. cbn [fst snd]. intros Hin.
  apply in_app_or in Hin as [Hin|Hin].
  - apply in_settled_in_trace in Hin as (t & Ht & Hev).
    apply in_map_iff in Ht as (rv & <- & _).
    rewrite buildRec_eq in Hev. cbn [snd] in Hev.
    apply in_map_iff in Hev as (kv & <- & _). reflexivity.
  - apply in_Promise_all_in_trace in Hin as (t & Ht & Hev).
    apply in_map_iff in Ht as (br & <- & _).
    rewrite <- pushRec_calls_none in Hev.
    apply List.filter_In in Hev as [_ Hev]. apply negb_true_iff, Hev.
Qed.

(** At a log level other than [info], [pushFiles] never invokes the
    progress observer, whatever the order in which the promises settle. *)
Theorem pushFiles_silent_unless_info sched tree recordCount :
  getLogLevel <> "info" ->
  ticks (snd (pushFiles sched tree recordCount)) = 0.
Proof.
  intros Hlevel. unfold ticks.
  assert (E : List.filter is_tick (snd (pushFiles sched tree recordCount)) = []);
    [|rewrite E; reflexivity].
  destruct (List.filter is_tick _) as [|ev l] eqn:Ef; [reflexivity|exfalso].
  assert (Hin : In ev (List.filter is_tick (snd (pushFiles sched tree recordCount))))
    by (rewrite Ef; left; reflexivity).
  apply List.filter_In in Hin as [Hin Htick].
  unfold pushFiles, bind, ret, getProgTick in Hin. cbn [fst snd] in Hin.
  rewrite app_nil_r in Hin.
  apply String.eqb_neq in Hlevel. rewrite Hlevel in Hin.
  apply in_Promise_all_in_trace in Hin as (t & Ht & Hev).
  apply list_elem_of_In, elem_of_lookup_imap in Ht as (i & kv & -> & _).
  apply buildAndPush_no_observer in Hev. congruence.
Qed.

(** What [buildAndPush] settles to. *)
Lemma buildAndPush_value sched table tableTree tick :
  is_order (builds_settle sched) (length tableTree) ->
  is_order (pushes_settle sched) (length tableTree) ->
  fst (buildAndPush sched table tableTree tick) =
  if forallb (fun rv => match snd rv with [] => false | _ :: _ => true end) tableTree
  then Ok (built_contents
             (map (fun rv => push_outcome table (fst rv) (snd rv)) tableTree))
  else Err TypeError_name_of_undefined.
Proof.
  intros Hb Hp.
  match goal with
  | |- context [forallb ?p tableTree] => destruct (forallb p tableTree) eqn:E
  end.
  - apply buildAndPush_values; auto.
    intros recId recMap Hin ->. rewrite forallb_forall in E.
    specialize (E _ Hin). discriminate.
  - rewrite buildAndPush_eq by exact Hb. cbn [fst].
    apply Promise_all_in_rejects.
    + rewrite length_map. exact Hp.
    + apply forallb_false in E as ([recId recMap] & Hin & Hrec). cbn [snd] in Hrec.
      destruct recMap; [|congruence].
      eexists. split.
      * apply in_map_iff. exists (recId, []). split; [reflexivity|exact Hin].
      * reflexivity.
    + intros t e Ht Het. apply in_map_iff in Ht as ([recId recMap] & <- & _).
      cbn [fst snd] in Het. unfold pushRec in Het.
      destruct recMap as [|[field first] rest]; [cbn in Het; congruence|].
      destruct (fst (buildRec _)); cbn in Het; discriminate.
Qed.

Lemma all_ok_map_Ok {A} (l : list A) : all_ok (map Ok l) = Ok l.
Proof. induction l as [|a l IH]; simpl; [reflexivity|]. rewrite IH. reflexivity. Qed.

(** What [pushFiles] settles to. *)
Lemma pushFiles_value sched tree recordCount :
  valid_schedule sched tree ->
  fst (pushFiles sched tree recordCount) =
  if records_nonemptyb tree
  then Ok (built_contents (record_outcomes tree))
  else Err TypeError_name_of_undefined.
Proof.
  intros [Ht Hs].
  set (tasks := imap (fun i kv =>
                        buildAndPush (table_schedule sched i) (fst kv) (snd kv)
                          (getProgTick getLogLevel recordCount)) tree).
  set (nonempty := fun kv : string * TableContextTree =>
         forallb (fun rv => match snd rv with [] => false | _ :: _ => true end)
                 (snd kv)).
  set (outcomes := fun kv : string * TableContextTree =>
         map (fun rv => push_outcome (fst kv) (fst rv) (snd rv)) (snd kv)).
  assert (Htask : forall i kv, tree !! i = Some kv ->
    fst (buildAndPush (table_schedule sched i) (fst kv) (snd kv)
           (getProgTick getLogLevel recordCount)) =
    if nonempty kv then Ok (built_contents (outcomes kv))
    else Err TypeError_name_of_undefined).
  { intros i [table tableTree] Hi. destruct (Hs i table tableTree Hi) as [Hb Hp].
    apply buildAndPush_value; assumption. }
  assert (Hvalues : map fst tasks =
    map (fun kv => if nonempty kv then Ok (built_contents (outcomes kv))
                   else Err TypeError_name_of_undefined) tree).
  { unfold tasks. change (map fst ?l) with (fst <$> l). rewrite fmap_imap.
    change (map ?f tree) with (f <$> tree). rewrite <- imap_const.
    apply imap_ext. intros i kv Hi. cbn [compose const]. apply Htask, Hi. }
  unfold pushFiles, bind, ret. cbn [fst snd]. fold tasks.
  destruct (records_nonemptyb tree) eqn:E; unfold records_nonemptyb in E;
    change (forallb nonempty tree = true) in E ||
    change (forallb nonempty tree = false) in E.
  - rewrite Promise_all_in_values.
    + rewrite Hvalues. rewrite forallb_forall in E.
      rewrite (map_ext_in _ (fun kv => Ok (built_contents (outcomes kv))))
        by (intros kv Hin; rewrite (E kv Hin); reflexivity).
      rewrite <- (map_map (fun kv => built_contents (outcomes kv)) Ok), all_ok_map_Ok.
      f_equal. unfold record_outcomes. fold outcomes.
      assert (Hall : forall kv, In kv tree -> forallb is_ok (outcomes kv) = true).
      { intros [table tableTree] Hin. unfold outcomes. cbn [fst snd].
        rewrite forallb_map. apply forallb_forall. intros [recId recMap] Hr.
        apply pushRec_settles. cbn [snd]. intros ->. specialize (E _ Hin).
        unfold nonempty in E. cbn [snd] in E. rewrite forallb_forall in E.
        specialize (E _ Hr). discriminate. }
      clear - Hall. induction tree as [|kv tree IH]; [reflexivity|]. simpl.
      unfold built_contents in *. rewrite omap_app. f_equal.
      apply IH. intros kv' Hin. apply Hall. right. exact Hin.
    + unfold tasks. rewrite length_imap. exact Ht.
    + rewrite <- forallb_map, Hvalues, forallb_map. apply forallb_forall.
      intros kv Hin. rewrite forallb_forall in E. rewrite (E kv Hin). reflexivity.
  - rewrite (Promise_all_in_rejects _ _ TypeError_name_of_undefined); [reflexivity| | |].
    + unfold tasks. rewrite length_imap. exact Ht.
    + apply forallb_false in E as (kv & Hin & Hkv).
      apply list_elem_of_In, list_elem_of_lookup in Hin as [i Hi].
      exists (buildAndPush (table_schedule sched i) (fst kv) (snd kv)
                (getProgTick getLogLevel recordCount)). split.
      * apply list_elem_of_In. unfold tasks. apply elem_of_lookup_imap.
        exists i, kv. auto.
      * rewrite (Htask i kv Hi). destruct (nonempty kv); [congruence|reflexivity].
    + intros t e Hin Het.
      apply list_elem_of_In in Hin. unfold tasks in Hin.
      apply elem_of_lookup_imap in Hin as (i & kv & -> & Hi).
      rewrite (Htask i kv Hi) in Het. destruct (nonempty kv); congruence.
Qed.

(** [pushFiles] rejects exactly when the tree holds a record without a
    field context, whatever the order in which the promises settle and
    whatever the other records are; the rejection is the [TypeError] of
    reading the name of the record's first context. *)
Theorem pushFiles_rejects_iff_hollow sched tree recordCount :
  valid_schedule sched tree ->
  is_ok (fst (pushFiles sched tree recordCount)) = records_nonemptyb tree /\
  (records_nonemptyb tree = false ->
   fst (pushFiles sched tree recordCount) = Err TypeError_name_of_undefined).
Proof.
  intros Hv. rewrite (pushFiles_value _ _ _ Hv).
  destruct (records_nonemptyb tree); split; auto; discriminate.
Qed.

(** What [pushFiles] settles to depends neither on the order in which
    its promises settle nor on the count it is given for the progress
    bar: two runs on the same tree resolve with the same results, or
    reject with the same error. *)
Theorem pushFiles_outcome_independent_of_schedule sched sched' tree
    recordCount recordCount' :
  valid_schedule sched tree ->
  valid_schedule sched' tree ->
  fst (pushFiles sched tree recordCount) = fst (pushFiles sched' tree recordCount').
Proof.
  intros Hv Hv'. rewrite !pushFiles_value by assumption. reflexivity.
Qed.

(** A result that says [success] is what [processPushResponse] made of
    the response to an update that carried the built fields. *)
Lemma push_outcome_success table recId recMap result :
  push_outcome table recId recMap = Ok result ->
  success result = true ->
  exists fields response summary,
    fst (buildRec recMap) = Ok fields /\
    retryOnErr_updateRecord table recId fields = Ok response /\
    processPushResponse response summary = Ok result.
Proof.
  unfold push_outcome, pushRec.
  destruct recMap as [|[field first] rest]; [discriminate|].
  destruct (fst (buildRec _)) as [fields|reason].
  - unfold bind, call, ret. cbn [fst snd].
    destruct (retryOnErr_updateRecord table recId fields) as [response|e] eqn:Eu.
    + destruct (processPushResponse response _) as [pushed|e] eqn:Ep.
      * intros H _. injection H as <-. eauto 6.
      * intros H Hs. injection H as <-. discriminate.
    + intros H Hs. injection H as <-. discriminate.
  - cbn. intros H Hs. injection H as <-. discriminate.
Qed.

(** [pushFiles] never reports a success it did not obtain: a result with
    [success] set belongs to a record of the tree whose transforms all
    succeeded and whose update, sent with the built fields, was
    answered; the result is what [processPushResponse] made of the
    answer. *)
Theorem pushFiles_success_means_accepted sched tree recordCount results :
  valid_schedule sched tree ->
  fst (pushFiles sched tree recordCount) = Ok results ->
  Forall
    (fun result =>
       success result = true ->
       exists table tableTree recId recMap fields response summary,
         In (table, tableTree) tree /\
         In (recId, recMap) tableTree /\
         fst (buildRec recMap) = Ok fields /\
         retryOnErr_updateRecord table recId fields = Ok response /\
         processPushResponse response summary = Ok result)
    results.
Proof.
  intros Hv Hres. rewrite (pushFiles_value _ _ _ Hv) in Hres.
  destruct (records_nonemptyb tree); [|discriminate]. injection Hres as <-.
  apply Forall_forall. intros result Hin Hs.
  unfold built_contents in Hin. apply list_elem_of_omap in Hin as (r & Hr & Hok).
  destruct r as [result'|e]; [|discriminate]. injection Hok as ->.
  apply list_elem_of_In in Hr. unfold record_outcomes in Hr.
  apply in_concat in Hr as (l & Hl & Hr).
  apply in_map_iff in Hl as ([table tableTree] & <- & Ht).
  apply in_map_iff in Hr as ([recId recMap] & Ho & Hrec). cbn [fst snd] in Ho.
  destruct (push_outcome_success _ _ _ _ Ho Hs) as (fields & response & summary & H).
  exists table, tableTree, recId, recMap, fields, response, summary.
  destruct H as (Hb & Hu & Hp). auto 10.
Qed.

End PushOutcome.

(** ** Scope guard: when the remote changes *)

Section ScopeFrame.
Context {Remote : Type} {CL : SNClient Remote} {CM : ConfigManager}.

(** A scope read back by [swapScope] is the current scope of the state
    it leaves. *)
Lemma swapScope_reads_back target s scopeObj s' :
  swapScope target s = (Ok scopeObj, s') -> getCurrentScope s' = Ok scopeObj.
Proof.
  unfold swapScope, swapServerScope, await, read.
  destruct (getScopeId target s) as [scopeId|]; [|discriminate].
  destruct (getUserSysId s) as [user|]; [|discriminate].
  destruct (getCurrentAppUserPrefSysId user s) as [prefId|]; [|discriminate].
  destruct (negb (String.eqb prefId "")).
  - destruct (updateCurrentAppUserPref scopeId prefId s) as [[[]|] s1];
      [|discriminate]. intros E. injection E as E <-. exact E.
  - destruct (createCurrentAppUserPref scopeId user s) as [[[]|] s1];
      [|discriminate]. intros E. injection E as E <-. exact E.
Qed.

(** [checkScope] changes the remote only to swap: when it leaves a
    state other than the one it found, [swap] was set, there is a
    manifest and the remote scope it read differs from the manifest's.
    In particular a check without [swap] leaves the remote as it is,
    also when it rejects. *)
Theorem checkScope_writes_only_to_swap swap s :
  snd (checkScope swap s) <> s ->
  swap = true /\
  exists man scopeObj,
    getManifest = Some man /\
    getCurrentScope s = Ok scopeObj /\
    scope scopeObj <> man_scope man.
Proof.
  unfold checkScope, await, read, resolve.
  destruct getManifest as [man|]; [|intros H; destruct H; reflexivity].
  destruct (getCurrentScope s) as [scopeObj|e] eqn:Es;
    [|intros H; destruct H; reflexivity].
  destruct (String.eqb_spec (scope scopeObj) (man_scope man)) as [E|E];
    [intros H; destruct H; reflexivity|].
  destruct swap; [|intros H; destruct H; reflexivity].
  intros _. split; [reflexivity|]. exists man, scopeObj. auto.
Qed.

(** Whenever [checkScope] resolves, [match] says whether the session
    scope it reports equals the manifest scope it reports, and the
    latter is the scope of the manifest (empty without a manifest). *)
Theorem checkScope_match_compares_reported_scopes swap s result s' :
  checkScope swap s = (Ok result, s') ->
  match_ result = String.eqb (sessionScope result) (manifestScope result) /\
  manifestScope result =
    match getManifest with Some man => man_scope man | None => "" end.
Proof.
  unfold checkScope, await, read, resolve.
  destruct getManifest as [man|].
  - destruct (getCurrentScope s) as [scopeObj|e]; [|discriminate].
    destruct (String.eqb (scope scopeObj) (man_scope man)) eqn:E.
    + intros H. injection H as <- <-. cbn. rewrite E. auto.
    + destruct swap.
      * destruct (swapScope (man_scope man) s) as [[swapped|] s1]; [|discriminate].
        intros H. injection H as <- <-. cbn. auto.
      * intros H. injection H as <- <-. cbn. rewrite E. auto.
  - intros H. injection H as <- <-. cbn. auto.
Qed.

(** A check that reports a match is stable: checking again in the state
    it leaves, with or without [swap], reports the same and writes
    nothing. *)
Theorem checkScope_match_is_stable swap swap' s result s' :
  checkScope swap s = (Ok result, s') ->
  match_ result = true ->
  checkScope swap' s' = (Ok result, s').
Proof.
  unfold checkScope, await, read, resolve.
  destruct getManifest as [man|].
  - destruct (getCurrentScope s) as [scopeObj|e] eqn:Es; [|discriminate].
    destruct (String.eqb (scope scopeObj) (man_scope man)) eqn:E.
    + intros H _. injection H as <- <-. rewrite Es, E. reflexivity.
    + destruct swap.
      * destruct (swapScope (man_scope man) s) as [[swapped|] s1] eqn:Esw;
          [|discriminate].
        intros H Hm. injection H as <- <-. cbn in Hm.
        rewrite (swapScope_reads_back _ _ _ _ Esw), Hm. reflexivity.
      * intros H Hm. injection H as <- <-. discriminate.
  - intros H _. injection H as <- <-. reflexivity.
Qed.

End ScopeFrame.

(** ** Manifest writer: what stays of the manifest *)

Section ManifestFrame.
Context {FU : FileUtils} {RT : Runtime} {CM : ConfigManager}.

Lemma strip_rec_idempotent rec : strip_rec (strip_rec rec) = strip_rec rec.
Proof.
  unfold strip_rec. cbn. f_equal. rewrite map_map. reflexivity.
Qed.

Lemma strip_tables_written tables forceWrite :
  strip_tables (strip_written tables forceWrite) = strip_tables tables.
Proof.
  unfold strip_tables, strip_written. rewrite map_map. apply map_ext.
  intros [tableName table]. cbn [fst snd]. do 2 f_equal.
  unfold strip_written_table. destruct (dirs_ok _ _); [|reflexivity].
  cbn [tbl_records]. rewrite map_map. apply map_ext.
  intros [recName rec]. cbn [fst snd]. f_equal.
  destruct (writes_ok _ _ _); [apply strip_rec_idempotent|reflexivity].
Qed.

(** Whether it succeeds or fails, [processManifest] leaves the manifest
    in memory as it was apart from file contents: scope, tables, records,
    names, identifiers and the name and type of every file stay as they
    were, in the same order. *)
Theorem processManifest_only_removes_content manifest forceWrite :
  strip_manifest (snd (fst (processManifest manifest forceWrite))) =
  strip_manifest manifest.
Proof.
  unfold processManifest, bind. cbn [fst snd].
  rewrite processTablesInManifest_memory.
  assert (E : forall r : Result unit * AppManifest * list Event,
    snd (fst r) = {| man_scope := man_scope manifest;
                     man_tables := strip_written (man_tables manifest) forceWrite |} ->
    strip_manifest (snd (fst r)) = strip_manifest manifest).
  { intros r ->. unfold strip_manifest. cbn. rewrite strip_tables_written.
    reflexivity. }
  apply E.
  destruct (fst (fst (processTablesInManifest _ _))); reflexivity.
Qed.

End ManifestFrame.

(** ** Remote reconciler on a complete tree *)

Section ReconcilerOnCompleteTree.
Context {FU : FileUtils} {RT : Runtime} {CM : ConfigManager} {SV : Services}.



End ReconcilerOnCompleteTree.

(** ** Local file scan *)

(** *** Splitting at a one-character separator *)

Lemma prefix_char d c rest :
  String.prefix (String d "") (String c rest) = Ascii.eqb c d.
Proof.
  cbn. destruct (Ascii.ascii_dec d c) as [->|Hne].
  - rewrite Ascii.eqb_refl. destruct rest; reflexivity.
  - symmetry. apply Ascii.eqb_neq. congruence.
Qed.

Lemma string_app_cons x (a b : string) : String x a +:+ b = String x (a +:+ b).
Proof. reflexivity. Qed.

Lemma string_app_assoc (a b c : string) : (a +:+ b) +:+ c = a +:+ (b +:+ c).
Proof.
  induction a as [|x a IH]; [reflexivity|]. rewrite !string_app_cons, IH. reflexivity.
Qed.

Lemma string_app_nil_r (a : string) : a +:+ "" = a.
Proof.
  induction a as [|x a IH]; [reflexivity|]. rewrite string_app_cons, IH. reflexivity.
Qed.

(** A piece without the separator is read up to the next separator. *)
Lemma split_from_piece d chunk piece rest :
  has_char d piece = false ->
  split_from (String d "") 0 chunk (piece +:+ String d rest) =
  (chunk +:+ piece) :: split_from (String d "") 0 "" rest.
Proof.
  revert chunk. induction piece as [|c piece IH]; intros chunk Hfree.
  - change ("" +:+ String d rest) with (String d rest).
    cbn [split_from]. rewrite prefix_char, Ascii.eqb_refl.
    rewrite string_app_nil_r. reflexivity.
  - cbn [has_char] in Hfree. apply orb_false_iff in Hfree as [Hc Hfree].
    rewrite string_app_cons. cbn [split_from].
    rewrite prefix_char, Hc.
    rewrite IH by exact Hfree. rewrite string_app_assoc. reflexivity.
Qed.

Lemma split_from_last d chunk piece :
  has_char d piece = false ->
  split_from (String d "") 0 chunk piece = [chunk +:+ piece].
Proof.
  revert chunk. induction piece as [|c piece IH]; intros chunk Hfree.
  - cbn. rewrite string_app_nil_r. reflexivity.
  - cbn [has_char] in Hfree. apply orb_false_iff in Hfree as [Hc Hfree].
    cbn [split_from]. rewrite prefix_char, Hc.
    rewrite IH by exact Hfree. rewrite string_app_assoc. reflexivity.
Qed.

(** Splitting the pieces joined by the separator gives the pieces back
    (the empty list of pieces reads as one empty piece). *)
Lemma split_concat d pieces :
  forallb (fun piece => negb (has_char d piece)) pieces = true ->
  split (String.concat (String d "") pieces) (String d "") =
  match pieces with [] => [""] | _ :: _ => pieces end.
Proof.
  unfold split. induction pieces as [|piece pieces IH]; intros Hfree; [reflexivity|].
  cbn [forallb] in Hfree. apply andb_true_iff in Hfree as [Hp Hfree].
  apply negb_true_iff in Hp. specialize (IH Hfree).
  destruct pieces as [|piece' pieces].
  - cbn [String.concat]. apply (split_from_last d "" piece Hp).
  - change (String.concat (String d "") (piece :: piece' :: pieces))
      with (piece +:+ String d (String.concat (String d "") (piece' :: pieces))).
    rewrite (split_from_piece d "" piece _ Hp).
    change ("" +:+ piece) with piece.
    rewrite IH. reflexivity.
Qed.

Section FileScanProperties.
Context {FU : FileUtils} {SC : Scanner}.

Lemma filter_by_index {A} (p : A -> bool) (l : list A) :
  map snd (List.filter fst (zip (map p l) l)) = List.filter p l.
Proof.
  induction l as [|a l IH]; [reflexivity|]. cbn.
  destruct (p a); cbn; rewrite IH; reflexivity.
Qed.

Lemma scan_settled_calls {A B} (ev : A -> ScanEvent) (out : A -> B) (l : list A) :
  Scan.settled (map (fun a => (out a, [ev a])) l) = (map out l, map ev l).
Proof.
  unfold Scan.settled. rewrite !map_map. cbn [fst snd]. f_equal.
  induction l; simpl; congruence.
Qed.

Lemma getValidPaths_eq encodedPaths :
  getValidPaths encodedPaths =
  (List.filter pathExists
     (List.filter (fun p => negb (String.eqb p "")) (split encodedPaths PATH_DELIMITER)),
   map ScPathExists
     (List.filter (fun p => negb (String.eqb p "")) (split encodedPaths PATH_DELIMITER))).
Proof.
  unfold getValidPaths, Scan.bind, Scan.ret, Scan.call. cbv zeta.
  rewrite (scan_settled_calls ScPathExists pathExists). cbn [fst snd].
  rewrite filter_by_index, app_nil_r. reflexivity.
Qed.

(** Paths joined by a one-character delimiter that none of them
    contains are decoded as they were given: [getValidPaths] probes each
    non-empty one once, in order, and returns those that exist.  Empty
    paths, and so leading, trailing and doubled delimiters, are passed
    over without a probe. *)
Theorem getValidPaths_decodes d paths :
  PATH_DELIMITER = String d "" ->
  forallb (fun p => negb (has_char d p)) paths = true ->
  getValidPaths (String.concat PATH_DELIMITER paths) =
  (List.filter pathExists (List.filter (fun p => negb (String.eqb p "")) paths),
   map ScPathExists (List.filter (fun p => negb (String.eqb p "")) paths)).
Proof.
  intros Hd Hfree. rewrite getValidPaths_eq, Hd, (split_concat d paths Hfree).
  destruct paths; reflexivity.
Qed.

(** What the scan of one path settles to and the calls it issues. *)
Lemma getAppFilesInPath_eq path :
  is_ok (fst (getAppFilesInPath path)) = scans_ok path /\
  (scans_ok path = true -> fst (getAppFilesInPath path) = Ok (contexts_below path)) /\
  snd (getAppFilesInPath path) =
    ScGetPathsInPath path ::
    match getPathsInPath path with
    | Ok filePaths => map ScGetFileContextFromPath filePaths
    | Err _ => []
    end.
Proof.
  unfold getAppFilesInPath, scans_ok, contexts_below, Scan.bind, Scan.call.
  cbn [fst snd].
  destruct (getPathsInPath path) as [filePaths|e];
    [|cbn; split; [reflexivity|split; [discriminate|reflexivity]]].
  unfold Scan.Promise_all, Scan.bind, Scan.ret.
  rewrite (scan_settled_calls ScGetFileContextFromPath getFileContextFromPath).
  cbn [fst snd]. rewrite app_nil_r.
  assert (H : forall l : list string,
    is_ok (all_ok (map getFileContextFromPath l)) =
      forallb (fun filePath => is_ok (getFileContextFromPath filePath)) l /\
    (forallb (fun filePath => is_ok (getFileContextFromPath filePath)) l = true ->
     all_ok (map getFileContextFromPath l) =
     Ok (map (fun filePath =>
                match getFileContextFromPath filePath with
                | Ok maybe => maybe
                | Err _ => None
                end) l))).
  { induction l as [|filePath l [IH1 IH2]]; [split; reflexivity|]. cbn.
    destruct (getFileContextFromPath filePath) as [maybe|e];
      [|split; [reflexivity|discriminate]].
    cbn. split.
    - rewrite <- IH1. destruct (all_ok _); reflexivity.
    - intros Hl. rewrite (IH2 Hl). reflexivity. }
  destruct (H filePaths) as [H1 H2]. split; [|split].
  - rewrite <- H1. destruct (all_ok _); cbn; rewrite ?app_nil_r; reflexivity.
  - intros Hok. rewrite (H2 Hok). cbn [fst snd]. f_equal.
    clear. induction filePaths as [|filePath l IH]; [reflexivity|].
    cbn [map]. rewrite !omap_cons_eq. cbn [id].
    destruct (getFileContextFromPath filePath) as [[ctx|]|]; rewrite IH; reflexivity.
  - destruct (all_ok _); cbn; rewrite ?app_nil_r; reflexivity.
Qed.

Lemma getAppFilesInPaths_eq paths :
  is_ok (fst (getAppFilesInPaths paths)) = forallb scans_ok paths /\
  (forallb scans_ok paths = true ->
   fst (getAppFilesInPaths paths) = Ok (concat (map contexts_below paths))) /\
  snd (getAppFilesInPaths paths) =
    concat (map (fun path => snd (getAppFilesInPath path)) paths).
Proof.
  unfold getAppFilesInPaths, Scan.Promise_all, Scan.bind, Scan.ret, Scan.settled.
  cbn [fst snd]. rewrite !map_map.
  assert (H : forall l : list string,
    is_ok (all_ok (map (fun path => fst (getAppFilesInPath path)) l)) =
      forallb scans_ok l /\
    (forallb scans_ok l = true ->
     all_ok (map (fun path => fst (getAppFilesInPath path)) l) =
     Ok (map contexts_below l))).
  { induction l as [|path l [IH1 IH2]]; [split; reflexivity|].
    cbn [map forallb].
    destruct (getAppFilesInPath_eq path) as (Hok & Hval & _).
    destruct (scans_ok path) eqn:E.
    - cbn [all_ok andb]. rewrite (Hval eq_refl). split.
      + rewrite <- IH1. destruct (all_ok _); reflexivity.
      + intros Hl. rewrite (IH2 Hl). reflexivity.
    - cbn [all_ok andb].
      destruct (fst (getAppFilesInPath path)); [discriminate|].
      split; [reflexivity|discriminate]. }
  destruct (H paths) as [H1 H2]. split; [|split].
  - rewrite <- H1. destruct (all_ok _); reflexivity.
  - intros Hok. rewrite (H2 Hok). reflexivity.
  - destruct (all_ok _); cbn; rewrite !app_nil_r; reflexivity.
Qed.

(** [getFileTreeAndCount] resolves exactly when the listing of every
    valid path and the parse of every file listed succeed.  The tree is
    then the grouping of the contexts found below the valid paths, in
    the order of the paths, and the count is the number of distinct
    (table, sys_id) pairs among them, which is the number of records of
    the tree. *)
Theorem getFileTreeAndCount_counts_records encodedPaths :
  let validPaths := fst (getValidPaths encodedPaths) in
  let appFileCtxs := concat (map contexts_below validPaths) in
  match fst (getFileTreeAndCount encodedPaths) with
  | Ok (appFileTree, recordCount) =>
      forallb scans_ok validPaths = true /\
      appFileTree = groupAppFiles appFileCtxs /\
      recordCount = countRecsInTree appFileTree /\
      recordCount = length (remove_dups (map rec_key appFileCtxs))
  | Err _ => forallb scans_ok validPaths = false
  end.
Proof.
  cbv zeta. unfold getFileTreeAndCount, Scan.bind. cbn [fst snd].
  destruct (getAppFilesInPaths_eq (fst (getValidPaths encodedPaths)))
    as (Hok & Hval & _).
  destruct (forallb scans_ok (fst (getValidPaths encodedPaths))) eqn:E.
  - rewrite (Hval eq_refl). cbn [Scan.ret fst].
    repeat split.
    generalize (concat (map contexts_below (fst (getValidPaths encodedPaths)))).
    intros fileCtxs.
    induction fileCtxs as [|cur fileCtxs IH] using rev_ind; [reflexivity|].
    rewrite groupAppFiles_snoc, countRecsInTree_add_context, IH.
    rewrite map_app. cbn [map]. rewrite length_remove_dups_snoc.
    rewrite has_rec_groupAppFiles. reflexivity.
  - destruct (fst (getAppFilesInPaths _)); [discriminate|reflexivity].
Qed.

Lemma getFileTreeAndCount_result_shape encodedPaths :
  match fst (getFileTreeAndCount encodedPaths) with
  | Ok (appFileTree, recordCount) =>
      exists appFileCtxs,
        appFileTree = groupAppFiles appFileCtxs /\
        recordCount = countRecsInTree (groupAppFiles appFileCtxs)
  | Err _ => True
  end.
Proof.
  unfold getFileTreeAndCount, Scan.bind. cbn [fst snd].
  destruct (fst (getAppFilesInPaths _)) as [ctxs|e]; cbn; [|exact I].
  exists ctxs. auto.
Qed.

(** [getFileTreeAndCount] probes the non-empty chunks of its argument,
    lists only chunks that it found to exist and parses only paths that
    such a listing returned. *)
Theorem getFileTreeAndCount_scans_valid_paths_only encodedPaths :
  Forall
    (fun ev =>
       match ev with
       | ScPathExists path =>
           path <> "" /\ In path (split encodedPaths PATH_DELIMITER)
       | ScGetPathsInPath path =>
           path <> "" /\ In path (split encodedPaths PATH_DELIMITER) /\
           pathExists path = true
       | ScGetFileContextFromPath filePath =>
           exists path filePaths,
             In path (split encodedPaths PATH_DELIMITER) /\
             pathExists path = true /\
             getPathsInPath path = Ok filePaths /\
             In filePath filePaths
       end)
    (snd (getFileTreeAndCount encodedPaths)).
Proof.
  assert (Htrace : snd (getFileTreeAndCount encodedPaths) =
    snd (getValidPaths encodedPaths) ++
    snd (getAppFilesInPaths (fst (getValidPaths encodedPaths)))).
  { unfold getFileTreeAndCount, Scan.bind. cbn [fst snd].
    destruct (fst (getAppFilesInPaths _)); unfold Scan.ret; cbn [snd];
      rewrite app_nil_r; reflexivity. }
  rewrite Htrace. clear Htrace.
  destruct (getAppFilesInPaths_eq (fst (getValidPaths encodedPaths)))
    as (_ & _ & ->).
  rewrite getValidPaths_eq. cbn [fst snd].
  set (chunks := split encodedPaths PATH_DELIMITER).
  assert (Hchunk : forall path,
    In path (List.filter (fun p => negb (String.eqb p "")) chunks) ->
    path <> "" /\ In path chunks).
  { intros path Hin. apply List.filter_In in Hin as [Hin Hne].
    split; [|exact Hin]. apply negb_true_iff, String.eqb_neq in Hne. exact Hne. }
  apply Forall_app. split; apply Forall_forall; intros ev Hin;
    apply list_elem_of_In in Hin.
  - apply in_map_iff in Hin as (path & <- & Hin). apply Hchunk, Hin.
  - apply in_concat in Hin as (l & Hl & Hev).
    apply in_map_iff in Hl as (path & <- & Hpath).
    apply List.filter_In in Hpath as [Hpath Hex].
    destruct (Hchunk path Hpath) as [Hne Hin].
    destruct (getAppFilesInPath_eq path) as (_ & _ & Htr). rewrite Htr in Hev.
    destruct Hev as [<-|Hev]; [auto|].
    destruct (getPathsInPath path) as [filePaths|e] eqn:El; [|destruct Hev].
    apply in_map_iff in Hev as (filePath & <- & Hf).
    exists path, filePaths. auto.
Qed.

End FileScanProperties.

Section ScanAndPush.
Context {FU : FileUtils} {SC : Scanner} {CM : ConfigManager} {SV : Services}.

(** The tree and the count that [getFileTreeAndCount] returns fit
    [pushFiles]: whatever the order in which the promises settle,
    [pushFiles] resolves on them, with as many results as the count
    says, one per record of the tree in enumeration order. *)
Theorem pushFiles_of_scanned_tree encodedPaths appFileTree recordCount sched :
  fst (getFileTreeAndCount encodedPaths) = Ok (appFileTree, recordCount) ->
  valid_schedule sched appFileTree ->
  exists results,
    fst (pushFiles sched appFileTree recordCount) = Ok results /\
    map Ok results = record_outcomes appFileTree /\
    length results = recordCount.
Proof.
  intros Hscan Hsched.
  pose proof (getFileTreeAndCount_result_shape encodedPaths) as Hshape.
  rewrite Hscan in Hshape. destruct Hshape as (ctxs & -> & ->).
  assert (Hne : records_nonemptyb (groupAppFiles ctxs) = true).
  { rewrite groupAppFiles_fold. apply fold_left_invariant; [|reflexivity].
    intros cur tree _. apply add_context_nonempty. }
  assert (Hall : forallb is_ok (record_outcomes (groupAppFiles ctxs)) = true).
  { unfold record_outcomes. apply forallb_forall. intros r Hin.
    apply in_concat in Hin as (l & Hl & Hin).
    apply in_map_iff in Hl as ([table tableTree] & <- & Ht).
    apply in_map_iff in Hin as ([recId recMap] & <- & Hr).
    apply pushRec_settles.
    exact (records_nonemptyb_spec _ Hne table tableTree recId recMap Ht Hr). }
  exists (built_contents (record_outcomes (groupAppFiles ctxs))).
  rewrite (pushFiles_value _ _ _ Hsched), Hne. split; [reflexivity|]. split.
  - apply map_Ok_built, Hall.
  - rewrite built_contents_length by exact Hall. apply record_outcomes_length.
Qed.

End ScanAndPush.

(** An element of a concatenation lies in one of the lists, behind the
    lists before it. *)
Lemma concat_split {A} (ls : list (list A)) (pre post : list A) (x : A) :
  concat ls = pre ++ x :: post ->
  exists ls1 l1 l2 ls2,
    ls = ls1 ++ (l1 ++ x :: l2) :: ls2 /\ pre = concat ls1 ++ l1.
Proof.
  revert pre. induction ls as [|l ls IH]; intros pre H.
  - destruct pre; discriminate.
  - cbn [concat] in H. apply app_eq_app in H as [k [[Hl Hp]|[Hp Hc]]].
    + destruct k as [|y k].
      * rewrite app_nil_r in Hl. subst l. cbn [app] in Hp.
        destruct (IH [] (eq_sym Hp)) as (ls1 & l1 & l2 & ls2 & -> & E).
        exists (pre :: ls1), l1, l2, ls2. split; [reflexivity|].
        cbn [concat]. rewrite <- app_assoc, <- E, app_nil_r. reflexivity.
      * injection Hp as <- Hp.
        exists [], pre, k, ls. split; [cbn; congruence|reflexivity].
    + destruct (IH k Hc) as (ls1 & l1 & l2 & ls2 & -> & E).
      exists (l :: ls1), l1, l2, ls2. split; [reflexivity|].
      cbn [concat]. rewrite <- app_assoc, <- E. exact Hp.
Qed.

(** ** Manifest writer: files go into created directories *)

Section ManifestOrder.
Context {FU : FileUtils} {RT : Runtime} {CM : ConfigManager}.

(** A file written for a table goes to a record directory of the table
    whose creation succeeded. *)
Lemma table_write_has_dir forceWrite tablePath table forceWrite' file recPath :
  In (EvWriteSNFile forceWrite' file recPath)
     (if dirs_ok tablePath table
      then concat
             (map (fun kv =>
                     map (fun file =>
                            EvWriteSNFile forceWrite file (rec_dir tablePath (snd kv)))
                         (rec_files (snd kv)))
                  (tbl_records table))
      else []) ->
  In (EvCreateDir recPath)
     (map (fun kv => EvCreateDir (rec_dir tablePath (snd kv))) (tbl_records table)) /\
  is_ok (createDirRecursively recPath) = true /\
  forceWrite' = forceWrite.
Proof.
  destruct (dirs_ok tablePath table) eqn:Ed; [|intros []].
  intros Hin. apply in_concat in Hin as (l & Hl & Hin).
  apply in_map_iff in Hl as (kv & <- & Hkv).
  apply in_map_iff in Hin as (file' & E & _). injection E as -> _ <-.
  split; [|split; [|reflexivity]].
  - apply in_map_iff. exists kv. auto.
  - unfold dirs_ok in Ed. rewrite forallb_forall in Ed. apply (Ed kv Hkv).
Qed.

Lemma table_writes_after_dir forceWrite tablePath table pre post
    forceWrite' file recPath :
  table_writes forceWrite tablePath table =
    pre ++ EvWriteSNFile forceWrite' file recPath :: post ->
  In (EvCreateDir recPath) pre /\
  is_ok (createDirRecursively recPath) = true /\
  forceWrite' = forceWrite.
Proof.
  unfold table_writes. intros H.
  assert (Hcase : exists k,
    pre = map (fun kv => EvCreateDir (rec_dir tablePath (snd kv))) (tbl_records table)
          ++ k /\
    In (EvWriteSNFile forceWrite' file recPath)
       (if dirs_ok tablePath table
        then concat
               (map (fun kv =>
                       map (fun file =>
                              EvWriteSNFile forceWrite file (rec_dir tablePath (snd kv)))
                           (rec_files (snd kv)))
                    (tbl_records table))
        else [])).
  { apply app_eq_app in H as [k [[Hl Hp]|[Hp Hw]]].
    - destruct k as [|y k].
      + exists []. rewrite app_nil_r in Hl |- *. split; [congruence|].
        cbn [app] in Hp. rewrite <- Hp. left. reflexivity.
      + exfalso. injection Hp as <- _.
        assert (Hin : In (EvWriteSNFile forceWrite' file recPath)
                         (map (fun kv => EvCreateDir (rec_dir tablePath (snd kv)))
                              (tbl_records table))).
        { rewrite Hl. apply in_or_app. right. left. reflexivity. }
        apply in_map_iff in Hin as (kv & E & _). discriminate.
    - exists k. split; [exact Hp|]. rewrite Hw. apply in_or_app. right. left.
      reflexivity. }
  destruct Hcase as (k & -> & Hin).
  destruct (table_write_has_dir _ _ _ _ _ _ Hin) as (Hdir & Hok & Hfw).
  split; [|split; assumption]. apply in_or_app. left. exact Hdir.
Qed.

(** [processManifest] writes a file only after it has asked for the
    directory of the file's record and the creation has succeeded, and
    it writes with the [forceWrite] it was given. *)
Theorem processManifest_writes_into_created_dirs manifest forceWrite pre post
    forceWrite' file recPath :
  snd (processManifest manifest forceWrite) =
    pre ++ EvWriteSNFile forceWrite' file recPath :: post ->
  In (EvCreateDir recPath) pre /\
  is_ok (createDirRecursively recPath) = true /\
  forceWrite' = forceWrite.
Proof.
  intros H.
  assert (Htrace : exists rest,
    snd (processManifest manifest forceWrite) =
    tables_writes (man_tables manifest) forceWrite ++ rest /\
    forall ev, In ev rest -> is_persist ev = true).
  { unfold processManifest, bind. cbn [fst snd].
    rewrite processTablesInManifest_trace.
    destruct (fst (fst (processTablesInManifest _ _))); cbn [ret call fst snd].
    - eexists. split; [reflexivity|]. intros ev [<-|[]]. reflexivity.
    - exists []. split; [reflexivity|]. intros ev []. }
  destruct Htrace as (rest & Htrace & Hrest). rewrite Htrace in H.
  assert (Hsplit : exists post',
    tables_writes (man_tables manifest) forceWrite =
    pre ++ EvWriteSNFile forceWrite' file recPath :: post').
  { apply app_eq_app in H as [k [[Hl Hp]|[Hp Hw]]].
    - destruct k as [|y k].
      + exfalso. cbn [app] in Hp.
        assert (Hin : In (EvWriteSNFile forceWrite' file recPath) rest)
          by (rewrite <- Hp; left; reflexivity).
        apply Hrest in Hin. discriminate.
      + injection Hp as <- _. exists k. exact Hl.
    - exfalso.
      assert (Hin : In (EvWriteSNFile forceWrite' file recPath) rest)
        by (rewrite Hw; apply in_or_app; right; left; reflexivity).
      apply Hrest in Hin. discriminate. }
  destruct Hsplit as (post' & Hsplit). unfold tables_writes in Hsplit.
  apply concat_split in Hsplit as (ls1 & l1 & l2 & ls2 & Hls & ->).
  assert (Hin : In (l1 ++ EvWriteSNFile forceWrite' file recPath :: l2)
                   (map (fun kv => table_writes forceWrite (table_dir (fst kv)) (snd kv))
                        (man_tables manifest))).
  { rewrite Hls. apply in_or_app. right. left. reflexivity. }
  apply in_map_iff in Hin as (kv & Hkv & _).
  destruct (table_writes_after_dir _ _ _ _ _ _ _ _ Hkv) as (Hdir & Hok & Hfw).
  split; [|split; assumption]. apply in_or_app. right. exact Hdir.
Qed.

End ManifestOrder.

(** ** The example project *)

Section Examples.
#[local] Existing Instance Demo.files.
#[local] Existing Instance Demo.runtime.
#[local] Existing Instance Demo.config.
#[local] Existing Instance Demo.services.
#[local] Existing Instance Demo.client.

(** C1: a record whose build fails is handed to the push callback, which
    returns its failure before entering the [try] block whose [finally]
    ticks: at log level [info] the tree has one record and the observer
    is never invoked. *)
Theorem pushFiles_skips_tick_of_failed_build :
  countRecsInTree Demo.tree_unbuilt = 1 /\
  getProgTick getLogLevel 1 = Some (call (EvTick 1) tt) /\
  ticks (snd (pushFiles (in_array_order Demo.tree_unbuilt) Demo.tree_unbuilt 1)) = 0 /\
  fst (pushFiles (in_array_order Demo.tree_unbuilt) Demo.tree_unbuilt 1) =
  Ok [{| success := false;
         message := "sys_script > abc : " +:+ newline +:+ "0:" +:+ newline +:+
                    "nothing to build" |}].
Proof. repeat split; vm_compute; reflexivity. Qed.

(** C2, as stated, fails: the write of [locked] is refused, so
    [processManifest] fails and persists nothing, yet the record whose
    own file was written has lost its content in memory. *)
Lemma processManifest_strips_record_of_failed_run :
  let done := processManifest Demo.manifest_locked false in
  all_written (man_tables Demo.manifest_locked) false = false /\
  is_ok (fst (fst done)) = false /\
  forallb (fun ev => negb (is_persist ev)) (snd done) = true /\
  snd (fst done) = Demo.manifest_locked_left /\
  Demo.manifest_locked_left <> Demo.manifest_locked.
Proof. repeat split; try (vm_compute; reflexivity). discriminate. Qed.

(** The persisted text of a successful run. *)
Example processManifest_persists_stripped_json :
  last (snd (processManifest Demo.manifest_present false)) =
  Some (EvWriteFileForce "sinc.manifest.json"
          (JSON_stringify (strip_manifest Demo.manifest_present) 2)) /\
  is_ok (fst (fst (processManifest Demo.manifest_present false))) = true.
Proof. split; vm_compute; reflexivity. Qed.

(** C3, as stated, fails: a tree may hold a record without any field
    context; its push callback throws and [pushFiles] rejects instead of
    returning a result for the record. *)
Lemma pushFiles_rejects_hollow_record :
  valid_schedule (in_array_order Demo.tree_hollow) Demo.tree_hollow /\
  countRecsInTree Demo.tree_hollow = 1 /\
  fst (pushFiles (in_array_order Demo.tree_hollow) Demo.tree_hollow 1) =
  Err TypeError_name_of_undefined.
Proof.
  split; [apply in_array_order_valid|]. split; vm_compute; reflexivity.
Qed.

Lemma pushFiles_results_in_enumeration_order_witness :
  let tree := groupAppFiles Demo.contexts in
  valid_schedule (last_first tree) tree /\
  records_nonempty tree /\
  exists results,
    fst (pushFiles (last_first tree) tree (countRecsInTree tree)) = Ok results /\
    map Ok results = record_outcomes tree /\
    length results = countRecsInTree tree.
Proof.
  cbn zeta. split; [apply last_first_valid|].
  split; [apply groupAppFiles_records_nonempty|].
  apply (pushFiles_results_in_enumeration_order
           (last_first (groupAppFiles Demo.contexts)) (groupAppFiles Demo.contexts)).
  - apply last_first_valid.
  - apply groupAppFiles_records_nonempty.
Defined.

(** The results of the example, the same for both schedules. *)
Example pushFiles_example :
  let tree := groupAppFiles Demo.contexts in
  fst (pushFiles (last_first tree) tree 3) =
    Ok [{| success := true; message := "sys_script > abc pushed" |};
        {| success := false; message := "sys_script > locked : Too many retries" |};
        {| success := true; message := "sys_ui_page > def pushed" |}] /\
  fst (pushFiles (in_array_order tree) tree 3) = fst (pushFiles (last_first tree) tree 3) /\
  snd (pushFiles (in_array_order tree) tree 3) <> snd (pushFiles (last_first tree) tree 3).
Proof.
  cbn zeta. split; [vm_compute; reflexivity|]. split; [vm_compute; reflexivity|].
  vm_compute. discriminate.
Qed.

(** C4, as stated, fails: the second field of the record is the one
    that fails (index 1), and the message labels its reason [0], its
    position among the failures. *)
Lemma buildRec_labels_failures_by_position :
  failed_fields (field_outcomes Demo.rec_second_fails) =
    [(1, {| err_message := "nothing to build" |})] /\
  fst (buildRec Demo.rec_second_fails) =
    Err {| err_message :=
             newline +:+ "0:" +:+ newline +:+ "nothing to build" |} /\
  message_by_field_index (field_outcomes Demo.rec_second_fails) =
    newline +:+ "1:" +:+ newline +:+ "nothing to build" /\
  fst (buildRec Demo.rec_second_fails) <>
    Err {| err_message :=
             message_by_field_index (field_outcomes Demo.rec_second_fails) |}.
Proof. repeat split; vm_compute; try reflexivity. discriminate. Qed.

Lemma buildRec_all_or_nothing_witness :
  obj_wf Demo.rec_second_fails /\
  snd (buildRec Demo.rec_second_fails) =
    map (fun kv => EvGetFinalFileContents (snd kv)) Demo.rec_second_fails /\
  fst (buildRec Demo.rec_second_fails) =
    Err {| err_message :=
             aggregateErrorMessages [{| err_message := "nothing to build" |}]
               "Failed to build!" (fun _ position => pretty position) |}.
Proof.
  assert (Hwf : obj_wf Demo.rec_second_fails).
  { apply (bool_decide_unpack (NoDup (map fst Demo.rec_second_fails))).
    vm_compute. exact I. }
  split; [exact Hwf|].
  destruct (buildRec_all_or_nothing Demo.rec_second_fails Hwf) as [Htrace Hvalue].
  destruct Hvalue as [_ Hvalue].
  split; [exact Htrace|]. rewrite Hvalue. vm_compute. reflexivity.
Defined.

(** The message tells the reasons and not the fields: the same record
    with its fields in the other order, the first one failing, fails
    with the same message. *)
Example buildRec_message_of_first_or_second :
  fst (buildRec (rev Demo.rec_second_fails)) = fst (buildRec Demo.rec_second_fails) /\
  failed_fields (field_outcomes (rev Demo.rec_second_fails)) =
    [(0, {| err_message := "nothing to build" |})].
Proof. split; vm_compute; reflexivity. Qed.

(** C5: the record [Validate] is filed under its identifier [abc].
    [processManifest], run on an empty disk, writes its file into the
    directory named by the record and succeeds; on the disk it leaves,
    every declared file is where it was written.  [findMissingFiles]
    looks for the directory of the record under the key, does not find
    it and reports the file as missing. *)
Theorem findMissingFiles_reports_file_where_written :
  let written :=
    processManifest (FU := Demo.files_on []) Demo.manifest_keyed_by_id true in
  let disk := Demo.disk_after (snd written) [] in
  is_ok (fst (fst written)) = true /\
  disk = ["src"; "src/sys_script"; "src/sys_script/Validate";
          "src/sys_script/Validate/script.js"; "sinc.manifest.json"] /\
  all_where_written (FU := Demo.files_on disk) Demo.manifest_keyed_by_id = true /\
  findMissingFiles (FU := Demo.files_on disk) Demo.manifest_keyed_by_id =
    ([("sys_script", [("abc", [{| mf_name := "script"; mf_type := "js" |}])])],
     [EvPathExists "src/sys_script"; EvPathExists "src/sys_script/abc"]).
Proof. cbv zeta. repeat split; vm_compute; reflexivity. Qed.

(** Filed under its name, the same record is found where it was
    written. *)
Example findMissingFiles_finds_file_keyed_by_name :
  let manifest :=
    {| man_scope := "x_app"; man_tables := [("sys_script", Demo.sys_script)] |} in
  let written := processManifest (FU := Demo.files_on []) manifest true in
  let disk := Demo.disk_after (snd written) [] in
  keyed_by_name manifest = true /\
  keyed_by_name Demo.manifest_keyed_by_id = false /\
  all_where_written (FU := Demo.files_on disk) manifest = true /\
  fst (findMissingFiles (FU := Demo.files_on disk) manifest) = [].
Proof. cbv zeta. repeat split; vm_compute; reflexivity. Qed.

(** The example of the specification, and a manifest that is all there. *)
Example findMissingFiles_example :
  fst (findMissingFiles Demo.manifest) =
    [("sys_script", [("abc", [{| mf_name := "script"; mf_type := "js" |}])]);
     ("sys_ui_page", [("def", [{| mf_name := "style"; mf_type := "css" |}])])] /\
  fst (findMissingFiles Demo.manifest_present) = [].
Proof. split; vm_compute; reflexivity. Qed.

(** A record is reported through its files: one that declares none adds
    no key, also below an absent table directory. *)
Example findMissingFiles_record_without_files :
  pathExists (appendToPath getSourcePath "sys_script") = false /\
  findMissingFiles Demo.manifest_no_files = ([], [EvPathExists "src/sys_script"]).
Proof. split; vm_compute; reflexivity. Qed.

Lemma absent_table_reported_without_probes_witness :
  man_tables Demo.manifest !! 0 = Some ("sys_script", Demo.sys_script) /\
  pathExists (appendToPath getSourcePath "sys_script") = false /\
  In (missing_entry Demo.script)
     (missing_of (fst (findMissingFiles Demo.manifest)) "sys_script"
                 (rec_sys_id Demo.validate)) /\
  snd (findMissingFiles Demo.manifest) =
  snd (findMissingFiles (without_records 0 Demo.manifest)).
Proof.
  assert (Hlookup : man_tables Demo.manifest !! 0 =
                    Some ("sys_script", Demo.sys_script)) by reflexivity.
  assert (Habsent : pathExists (appendToPath getSourcePath "sys_script") = false)
    by (vm_compute; reflexivity).
  split; [exact Hlookup|]. split; [exact Habsent|].
  pose proof (absent_table_reported_without_probes Demo.manifest 0 "sys_script"
                Demo.sys_script Hlookup Habsent) as (Hreported & _ & Hprobes).
  split; [|exact Hprobes].
  apply (Hreported "Validate" Demo.validate Demo.script).
  - left. reflexivity.
  - left. reflexivity.
Defined.

(** C7: called with a blank name, [createAndAssignUpdateSet] creates an
    update set named by the empty string, makes it the user's current
    one and returns it. *)
Theorem createAndAssignUpdateSet_blank_name_creates :
  fst (createAndAssignUpdateSet "" Demo.remote) =
    Ok {| us_name := ""; us_id := "us0" |} /\
  Demo.update_sets Demo.remote = [] /\
  Demo.update_sets (snd (createAndAssignUpdateSet "" Demo.remote)) =
    [{| us_name := ""; us_id := "us0" |}] /\
  Demo.current_update_set (snd (createAndAssignUpdateSet "" Demo.remote)) = "us0".
Proof. repeat split; vm_compute; reflexivity. Qed.

Lemma checkScope_cases_witness :
  checkScope (CM := Demo.config_first_run) true Demo.remote =
    (Ok {| match_ := true; sessionScope := ""; manifestScope := "" |}, Demo.remote) /\
  checkScope true Demo.remote_in_scope =
    (Ok {| match_ := true; sessionScope := "x_app"; manifestScope := "x_app" |},
     Demo.remote_in_scope) /\
  checkScope false Demo.remote =
    (Ok {| match_ := false; sessionScope := "global"; manifestScope := "x_app" |},
     Demo.remote) /\
  checkScope true Demo.remote =
    (Ok {| match_ := true; sessionScope := "x_app"; manifestScope := "x_app" |},
     Demo.remote_swapped).
Proof.
  assert (Hman : getManifest = Some Demo.manifest) by reflexivity.
  assert (Hin : getCurrentScope Demo.remote_in_scope = Ok {| scope := "x_app" |})
    by reflexivity.
  assert (Hout : getCurrentScope Demo.remote = Ok {| scope := "global" |})
    by reflexivity.
  assert (Hne : scope {| scope := "global" |} <> man_scope Demo.manifest)
    by discriminate.
  split; [|split; [|split]].
  - apply (proj1 (checkScope_cases (CM := Demo.config_first_run) true Demo.remote)).
    reflexivity.
  - destruct (proj2 (checkScope_cases true Demo.remote_in_scope) _ _ Hman Hin)
      as (Hsame & _ & _).
    apply Hsame. reflexivity.
  - destruct (proj2 (checkScope_cases false Demo.remote) _ _ Hman Hout)
      as (_ & Hkeep & _).
    apply Hkeep; [exact Hne|reflexivity].
  - destruct (proj2 (checkScope_cases true Demo.remote) _ _ Hman Hout)
      as (_ & _ & Hswap).
    apply (Hswap Hne eq_refl (Demo.scope_id "x_app") "user1" ""
             Demo.remote_swapped {| scope := "x_app" |});
      reflexivity.
Defined.

Lemma groupAppFiles_permutation_invariant_witness :
  NoDup (map ctx_key Demo.contexts) /\
  Permutation Demo.contexts (rev Demo.contexts) /\
  tree_map (groupAppFiles (rev Demo.contexts)) =
  tree_map (groupAppFiles Demo.contexts).
Proof.
  assert (Hnd : NoDup (map ctx_key Demo.contexts)).
  { apply (bool_decide_unpack (NoDup (map ctx_key Demo.contexts))).
    vm_compute. exact I. }
  split; [exact Hnd|]. split; [apply Permutation_rev|].
  exact (groupAppFiles_permutation_invariant Demo.contexts (rev Demo.contexts)
           Hnd (Permutation_rev _)).
Defined.

(** Reordering may change the enumeration order of the tree, which is
    why the trees are compared as dictionaries. *)
Example groupAppFiles_enumeration_order_differs :
  groupAppFiles (rev Demo.contexts) <> groupAppFiles Demo.contexts.
Proof. vm_compute. discriminate. Qed.

(** Without distinct keys the last context wins, and the order matters. *)
Example groupAppFiles_duplicate_last_wins :
  obj_get (groupAppFiles Demo.clash) "sys_script" =
    Some [("abc", [("script", Demo.ctx "sys_script" "abc" "script" "second")])] /\
  obj_get (groupAppFiles (rev Demo.clash)) "sys_script" =
    Some [("abc", [("script", Demo.ctx "sys_script" "abc" "script" "first")])].
Proof. split; vm_compute; reflexivity. Qed.

(** A reconciliation run of the example: what it writes. *)
Example processMissingFiles_example :
  List.filter (fun ev => negb (is_probe ev)) (snd (processMissingFiles Demo.manifest)) =
  [EvGetMissingFiles (fst (findMissingFiles Demo.manifest));
   EvCreateDir "src/sys_script/abc";
   EvWriteSNFile false
     {| file_name := "script"; file_type := "js"; file_content := Some "from remote" |}
     "src/sys_script/abc";
   EvCreateDir "src/sys_ui_page/def";
   EvWriteSNFile false
     {| file_name := "style"; file_type := "css"; file_content := Some "from remote" |}
     "src/sys_ui_page/def"].
Proof. vm_compute. reflexivity. Qed.

Lemma pushFiles_ticks_witness :
  let tree := groupAppFiles Demo.contexts in
  valid_schedule (last_first tree) tree /\
  getLogLevel = "info" /\
  countRecsInTree tree = 3 /\
  ticks (snd (pushFiles (last_first tree) tree (countRecsInTree tree))) = 3.
Proof.
  cbv zeta.
  assert (Hlevel : getLogLevel = "info") by reflexivity.
  split; [apply last_first_valid|]. split; [exact Hlevel|].
  split; [vm_compute; reflexivity|].
  rewrite (proj1 (pushFiles_ticks (last_first (groupAppFiles Demo.contexts))
                    (groupAppFiles Demo.contexts)
                    (countRecsInTree (groupAppFiles Demo.contexts))
                    (last_first_valid _) Hlevel)).
  vm_compute. reflexivity.
Defined.


#[local] Existing Instance Demo.scanner.



Lemma processManifest_writes_into_created_dirs_witness :
  snd (processManifest Demo.manifest_present false) =
    [EvCreateDir "src/sys_ui_page/Home"] ++
    EvWriteSNFile false Demo.page "src/sys_ui_page/Home" ::
    [EvWriteFileForce "sinc.manifest.json"
       (JSON_stringify (strip_manifest Demo.manifest_present) 2)] /\
  In (EvCreateDir "src/sys_ui_page/Home") [EvCreateDir "src/sys_ui_page/Home"] /\
  is_ok (createDirRecursively "src/sys_ui_page/Home") = true.
Proof.
  assert (Htrace : snd (processManifest Demo.manifest_present false) =
    [EvCreateDir "src/sys_ui_page/Home"] ++
    EvWriteSNFile false Demo.page "src/sys_ui_page/Home" ::
    [EvWriteFileForce "sinc.manifest.json"
       (JSON_stringify (strip_manifest Demo.manifest_present) 2)])
    by (vm_compute; reflexivity).
  split; [exact Htrace|].
  destruct (processManifest_writes_into_created_dirs Demo.manifest_present false
              _ _ _ _ _ Htrace) as (Hdir & Hok & _).
  split; assumption.
Defined.

Lemma groupAppFiles_enumeration_order_witness :
  forallb own_names Demo.numbered = true /\
  obj_keys (default [] (obj_get (groupAppFiles Demo.numbered) "sys_script")) =
    ["10"; "abc"; "9"] /\
  Object_keys (groupAppFiles Demo.numbered) = ["sys_script"; "sys_ui_page"] /\
  Forall (fun kv => fst kv = "sys_script" -> Object_keys (snd kv) = ["9"; "10"; "abc"])
         (groupAppFiles Demo.numbered).
Proof.
  assert (Hnames : forallb own_names Demo.numbered = true) by (vm_compute; reflexivity).
  destruct (groupAppFiles_enumeration_order Demo.numbered Hnames) as [Htables Hrecords].
  split; [exact Hnames|]. split; [vm_compute; reflexivity|].
  split; [rewrite Htables; vm_compute; reflexivity|].
  eapply Forall_impl; [exact Hrecords|].
  intros [table tableTree] [Hkeys _] E. cbn [fst snd] in *. subst table.
  etransitivity; [exact Hkeys|]. vm_compute. reflexivity.
Defined.

Lemma pushFiles_calls_witness :
  let trace :=
    snd (pushFiles (in_array_order Demo.tree_partly_hollow)
           Demo.tree_partly_hollow 2) in
  valid_schedule (in_array_order Demo.tree_partly_hollow) Demo.tree_partly_hollow /\
  Permutation (List.filter is_transform trace)
    [EvGetFinalFileContents (Demo.ctx "sys_script" "abc" "script" "gs.info(1)")] /\
  In (EvUpdateRecord "sys_script" "abc" [("script", "gs.info(1)")]) trace /\
  Forall (fun ev => is_transform ev || is_update ev || is_tick ev = true) trace.
Proof.
  cbv zeta.
  destruct (pushFiles_calls (in_array_order Demo.tree_partly_hollow)
              Demo.tree_partly_hollow 2 (in_array_order_valid _))
    as (Htransforms & Hupdates & Hkinds).
  split; [apply in_array_order_valid|]. split; [exact Htransforms|].
  split; [|exact Hkinds].
  apply (proj2 (Hupdates "sys_script" "abc" [("script", "gs.info(1)")])).
  exists [("abc", [("script", Demo.ctx "sys_script" "abc" "script" "gs.info(1)")])],
         [("script", Demo.ctx "sys_script" "abc" "script" "gs.info(1)")].
  split; [left; reflexivity|]. split; [left; reflexivity|].
  split; [discriminate|reflexivity].
Defined.

Lemma pushFiles_silent_unless_info_witness :
  getLogLevel (ConfigManager := Demo.config_debug) <> "info" /\
  ticks (snd (pushFiles (CM := Demo.config_debug)
                (last_first (groupAppFiles Demo.contexts))
                (groupAppFiles Demo.contexts) 3)) = 0.
Proof.
  assert (Hlevel : getLogLevel (ConfigManager := Demo.config_debug) <> "info")
    by discriminate.
  split; [exact Hlevel|].
  apply (pushFiles_silent_unless_info (CM := Demo.config_debug)
           (last_first (groupAppFiles Demo.contexts))
           (groupAppFiles Demo.contexts) 3 Hlevel).
Defined.

Lemma pushFiles_rejects_iff_hollow_witness :
  valid_schedule (last_first Demo.tree_partly_hollow) Demo.tree_partly_hollow /\
  records_nonemptyb Demo.tree_partly_hollow = false /\
  fst (pushFiles (last_first Demo.tree_partly_hollow) Demo.tree_partly_hollow 2) =
  Err TypeError_name_of_undefined.
Proof.
  split; [apply last_first_valid|]. split; [reflexivity|].
  apply (pushFiles_rejects_iff_hollow (last_first Demo.tree_partly_hollow)
           Demo.tree_partly_hollow 2); [apply last_first_valid|reflexivity].
Defined.

Lemma pushFiles_outcome_independent_of_schedule_witness :
  let tree := groupAppFiles Demo.contexts in
  valid_schedule (in_array_order tree) tree /\
  valid_schedule (last_first tree) tree /\
  fst (pushFiles (in_array_order tree) tree 3) = fst (pushFiles (last_first tree) tree 0).
Proof.
  cbn zeta. split; [apply in_array_order_valid|]. split; [apply last_first_valid|].
  apply (pushFiles_outcome_independent_of_schedule
           (in_array_order (groupAppFiles Demo.contexts))
           (last_first (groupAppFiles Demo.contexts))
           (groupAppFiles Demo.contexts) 3 0);
    [apply in_array_order_valid|apply last_first_valid].
Defined.

Lemma pushFiles_success_means_accepted_witness :
  let tree := groupAppFiles Demo.contexts in
  let results :=
    [{| success := true; message := "sys_script > abc pushed" |};
     {| success := false; message := "sys_script > locked : Too many retries" |};
     {| success := true; message := "sys_ui_page > def pushed" |}] in
  valid_schedule (last_first tree) tree /\
  fst (pushFiles (last_first tree) tree 3) = Ok results /\
  Forall
    (fun result =>
       success result = true ->
       exists table tableTree recId recMap fields response summary,
         In (table, tableTree) tree /\
         In (recId, recMap) tableTree /\
         fst (buildRec recMap) = Ok fields /\
         retryOnErr_updateRecord table recId fields = Ok response /\
         processPushResponse response summary = Ok result)
    results.
Proof.
  cbv zeta.
  assert (Hres : fst (pushFiles (last_first (groupAppFiles Demo.contexts))
                        (groupAppFiles Demo.contexts) 3) =
    Ok [{| success := true; message := "sys_script > abc pushed" |};
        {| success := false; message := "sys_script > locked : Too many retries" |};
        {| success := true; message := "sys_ui_page > def pushed" |}])
    by (vm_compute; reflexivity).
  split; [apply last_first_valid|]. split; [exact Hres|].
  apply (pushFiles_success_means_accepted
           (last_first (groupAppFiles Demo.contexts))
           (groupAppFiles Demo.contexts) 3 _ (last_first_valid _) Hres).
Defined.

Lemma checkScope_writes_only_to_swap_witness :
  snd (checkScope true Demo.remote) <> Demo.remote /\
  exists man scopeObj,
    getManifest = Some man /\
    getCurrentScope Demo.remote = Ok scopeObj /\
    scope scopeObj <> man_scope man.
Proof.
  assert (Hchanged : snd (checkScope true Demo.remote) <> Demo.remote)
    by (vm_compute; discriminate).
  split; [exact Hchanged|].
  apply (checkScope_writes_only_to_swap true Demo.remote Hchanged).
Defined.

Lemma checkScope_match_compares_reported_scopes_witness :
  checkScope true Demo.remote =
    (Ok {| match_ := true; sessionScope := "x_app"; manifestScope := "x_app" |},
     Demo.remote_swapped) /\
  manifestScope
    {| match_ := true; sessionScope := "x_app"; manifestScope := "x_app" |} =
  match getManifest with Some man => man_scope man | None => "" end.
Proof.
  assert (Hcheck : checkScope true Demo.remote =
    (Ok {| match_ := true; sessionScope := "x_app"; manifestScope := "x_app" |},
     Demo.remote_swapped)) by (vm_compute; reflexivity).
  split; [exact Hcheck|].
  apply (checkScope_match_compares_reported_scopes true Demo.remote _ _ Hcheck).
Defined.

Lemma checkScope_match_is_stable_witness :
  checkScope true Demo.remote =
    (Ok {| match_ := true; sessionScope := "x_app"; manifestScope := "x_app" |},
     Demo.remote_swapped) /\
  checkScope false Demo.remote_swapped =
    (Ok {| match_ := true; sessionScope := "x_app"; manifestScope := "x_app" |},
     Demo.remote_swapped).
Proof.
  assert (Hcheck : checkScope true Demo.remote =
    (Ok {| match_ := true; sessionScope := "x_app"; manifestScope := "x_app" |},
     Demo.remote_swapped)) by (vm_compute; reflexivity).
  split; [exact Hcheck|].
  apply (checkScope_match_is_stable true false Demo.remote _ _ Hcheck).
  reflexivity.
Defined.

Lemma getValidPaths_decodes_witness :
  let paths := ["src/sys_ui_page"; ""; "src/nowhere"] in
  PATH_DELIMITER = String Demo.colon "" /\
  forallb (fun p => negb (has_char Demo.colon p)) paths = true /\
  String.concat PATH_DELIMITER paths = "src/sys_ui_page::src/nowhere" /\
  getValidPaths (String.concat PATH_DELIMITER paths) =
  (List.filter pathExists (List.filter (fun p => negb (String.eqb p "")) paths),
   map ScPathExists (List.filter (fun p => negb (String.eqb p "")) paths)) /\
  List.filter pathExists (List.filter (fun p => negb (String.eqb p "")) paths) =
  ["src/sys_ui_page"].
Proof.
  cbv zeta.
  assert (Hd : PATH_DELIMITER = String Demo.colon "") by (vm_compute; reflexivity).
  assert (Hfree : forallb (fun p => negb (has_char Demo.colon p))
                          ["src/sys_ui_page"; ""; "src/nowhere"] = true)
    by (vm_compute; reflexivity).
  split; [exact Hd|]. split; [exact Hfree|]. split; [vm_compute; reflexivity|].
  split; [|vm_compute; reflexivity].
  exact (getValidPaths_decodes Demo.colon ["src/sys_ui_page"; ""; "src/nowhere"]
           Hd Hfree).
Defined.

Lemma pushFiles_of_scanned_tree_witness :
  fst (getFileTreeAndCount "src/sys_ui_page:src/nowhere") =
    Ok (Demo.tree_scanned, 1) /\
  valid_schedule (last_first Demo.tree_scanned) Demo.tree_scanned /\
  exists results,
    fst (pushFiles (last_first Demo.tree_scanned) Demo.tree_scanned 1) = Ok results /\
    map Ok results = record_outcomes Demo.tree_scanned /\
    length results = 1.
Proof.
  assert (Hscan : fst (getFileTreeAndCount "src/sys_ui_page:src/nowhere") =
                  Ok (Demo.tree_scanned, 1)) by (vm_compute; reflexivity).
  split; [exact Hscan|]. split; [apply last_first_valid|].
  apply (pushFiles_of_scanned_tree "src/sys_ui_page:src/nowhere"
           Demo.tree_scanned 1 (last_first Demo.tree_scanned) Hscan).
  apply last_first_valid.
Defined.

End Examples.
